(** * wrapline: a shallow embedding of [wrapline.go] and its properties

    The program reads records (newline- or NUL-terminated) from an input
    stream, optionally trims them, drops empty ones according to a
    one-record lookahead, and writes each surviving record wrapped in a
    delimiter.

    Go [string] and [[]byte] values are byte sequences: they are lists of
    [Z] whose elements are meant to lie in [0, 256).  Go [int] values are
    [Z]; fixed-width conversions are written out with their wrap-around.

    The standard-library functions the program calls ([strings.HasPrefix],
    [strings.ReplaceAll], [bytes.TrimSpace], [strconv.ParseInt], the
    [string(rune)] conversion) are embedded from their Go definitions, one
    module per package.  Streams are in-memory byte sequences: reads end
    with [io.EOF] and writes succeed, so the [os.Exit(1)] paths for I/O
    failures are outside the model. *)

From Stdlib Require Import String Ascii.
From Stdlib Require Import ZArith List Lia Bool.
Import ListNotations.
Open Scope Z_scope.

(* ================================================================= *)
(** ** Bytes, slices and fixed-width integers *)

Definition byte := Z.
Definition rune := Z.
Definition bytes := list byte.

Definition is_byte (b : Z) : Prop := 0 <= b < 256.

(** [len(s)] *)
Definition len (s : bytes) : Z := Z.of_nat (length s).

(** [s[i]], with 0 standing for the run-time panic out of range *)
Definition at_ (s : bytes) (i : Z) : byte :=
  if i <? 0 then 0 else nth (Z.to_nat i) s 0.

(** [s[lo:]] and [s[lo:hi]] *)
Definition from (s : bytes) (lo : Z) : bytes := skipn (Z.to_nat lo) s.
Definition slice (s : bytes) (lo hi : Z) : bytes :=
  firstn (Z.to_nat (hi - lo)) (skipn (Z.to_nat lo) s).

Definition uint8 (z : Z) : Z := z mod 256.
Definition uint32 (z : Z) : Z := z mod 2 ^ 32.
Definition uint64 (z : Z) : Z := z mod 2 ^ 64.
Definition int32 (z : Z) : Z := (z + 2 ^ 31) mod 2 ^ 32 - 2 ^ 31.
Definition int64 (z : Z) : Z := (z + 2 ^ 63) mod 2 ^ 64 - 2 ^ 63.

(** A string literal as the bytes of its characters. *)
Definition B (s : string) : bytes :=
  map (fun a => Z.of_N (N_of_ascii a)) (list_ascii_of_string s).

Fixpoint bytes_eqb (a b : bytes) : bool :=
  match a, b with
  | [], [] => true
  | x :: a', y :: b' => (x =? y) && bytes_eqb a' b'
  | _, _ => false
  end.

(* ================================================================= *)
(** ** Package [unicode/utf8] *)

Module utf8.

Definition RuneError : rune := 0xFFFD.
Definition RuneSelf : Z := 0x80.
Definition MaxRune : rune := 0x10FFFF.
Definition UTFMax : Z := 4.

Definition surrogateMin : Z := 0xD800.
Definition surrogateMax : Z := 0xDFFF.

Definition tx : Z := 0x80.
Definition t2 : Z := 0xC0.
Definition t3 : Z := 0xE0.
Definition t4 : Z := 0xF0.

Definition maskx : Z := 0x3F.
Definition mask2 : Z := 0x1F.
Definition mask3 : Z := 0x0F.
Definition mask4 : Z := 0x07.

Definition rune1Max : Z := 2 ^ 7 - 1.
Definition rune2Max : Z := 2 ^ 11 - 1.
Definition rune3Max : Z := 2 ^ 16 - 1.

Definition locb : Z := 0x80.
Definition hicb : Z := 0xBF.

(** Entries of the table [first]: high nibble an index into
    [acceptRanges] (or F for the one-byte cases), low nibble the size. *)
Definition xx : Z := 0xF1.
Definition as_ : Z := 0xF0.
Definition s1 : Z := 0x02.
Definition s2 : Z := 0x13.
Definition s3 : Z := 0x03.
Definition s4 : Z := 0x23.
Definition s5 : Z := 0x34.
Definition s6 : Z := 0x04.
Definition s7 : Z := 0x44.

(** [first[b]], the 256-entry table written by its runs. *)
Definition first (b : byte) : Z :=
  if b <? 0x80 then as_          (* 0x00-0x7F *)
  else if b <? 0xC2 then xx      (* 0x80-0xC1 *)
  else if b <? 0xE0 then s1      (* 0xC2-0xDF *)
  else if b =? 0xE0 then s2
  else if b <? 0xED then s3      (* 0xE1-0xEC *)
  else if b =? 0xED then s4
  else if b <? 0xF0 then s3      (* 0xEE-0xEF *)
  else if b =? 0xF0 then s5
  else if b <? 0xF4 then s6      (* 0xF1-0xF3 *)
  else if b =? 0xF4 then s7
  else xx.                       (* 0xF5-0xFF *)

Record acceptRange := { lo : Z; hi : Z }.

Definition acceptRanges (i : Z) : acceptRange :=
  if i =? 0 then {| lo := locb; hi := hicb |}
  else if i =? 1 then {| lo := 0xA0; hi := hicb |}
  else if i =? 2 then {| lo := locb; hi := 0x9F |}
  else if i =? 3 then {| lo := 0x90; hi := hicb |}
  else if i =? 4 then {| lo := locb; hi := 0x8F |}
  else {| lo := 0; hi := 0 |}.

(** [DecodeRune(p)]: the first rune of [p] and its width in bytes;
    [(RuneError, 1)] on an invalid encoding, [(RuneError, 0)] on empty. *)
Definition DecodeRune (p : bytes) : rune * Z :=
  let n := len p in
  if n <? 1 then (RuneError, 0) else
  let p0 := at_ p 0 in
  let x := first p0 in
  if x >=? as_ then
    let mask := Z.shiftr (int32 (Z.shiftl x 31)) 31 in
    (Z.lor (Z.land p0 (Z.lnot mask)) (Z.land RuneError mask), 1)
  else
  let sz := Z.land x 7 in
  let accept := acceptRanges (Z.shiftr x 4) in
  if n <? sz then (RuneError, 1) else
  let b1 := at_ p 1 in
  if (b1 <? lo accept) || (hi accept <? b1) then (RuneError, 1) else
  if sz <=? 2 then
    (Z.lor (Z.shiftl (Z.land p0 mask2) 6) (Z.land b1 maskx), 2)
  else
  let b2 := at_ p 2 in
  if (b2 <? locb) || (hicb <? b2) then (RuneError, 1) else
  if sz <=? 3 then
    (Z.lor (Z.lor (Z.shiftl (Z.land p0 mask3) 12)
                  (Z.shiftl (Z.land b1 maskx) 6))
           (Z.land b2 maskx), 3)
  else
  let b3 := at_ p 3 in
  if (b3 <? locb) || (hicb <? b3) then (RuneError, 1) else
  (Z.lor (Z.lor (Z.lor (Z.shiftl (Z.land p0 mask4) 18)
                       (Z.shiftl (Z.land b1 maskx) 12))
                (Z.shiftl (Z.land b2 maskx) 6))
         (Z.land b3 maskx), 4).

Definition RuneStart (b : byte) : bool := negb (Z.land b 0xC0 =? 0x80).

(** The backwards scan of [DecodeLastRune]:
    [for start--; start >= lim; start-- { if RuneStart(p[start]) { break } }],
    entered after the [start--].  It runs at most [UTFMax] times. *)
Fixpoint scan_back (fuel : nat) (p : bytes) (start lim : Z) : Z :=
  match fuel with
  | O => start
  | S k =>
      if start >=? lim then
        if RuneStart (at_ p start) then start
        else scan_back k p (start - 1) lim
      else start
  end.

Definition DecodeLastRune (p : bytes) : rune * Z :=
  let end_ := len p in
  if end_ =? 0 then (RuneError, 0) else
  let start := end_ - 1 in
  let r := at_ p start in
  if r <? RuneSelf then (r, 1) else
  let lim := Z.max (end_ - UTFMax) 0 in
  let start := scan_back (Z.to_nat UTFMax) p (start - 1) lim in
  let start := if start <? 0 then 0 else start in
  let '(r, size) := DecodeRune (slice p start end_) in
  if negb (start + size =? end_) then (RuneError, 1) else (r, size).

(** [encoderune], as used by the conversion [string(rune)]: the UTF-8
    encoding of [r]; surrogates and values beyond [MaxRune] are encoded
    as [RuneError]. *)
Definition encoderune (r : rune) : bytes :=
  let i := uint32 r in
  if i <=? rune1Max then [uint8 r]
  else if i <=? rune2Max then
    [Z.lor t2 (uint8 (Z.shiftr r 6)); Z.lor tx (Z.land (uint8 r) maskx)]
  else
    let three (r : rune) :=
      [Z.lor t3 (uint8 (Z.shiftr r 12));
       Z.lor tx (Z.land (uint8 (Z.shiftr r 6)) maskx);
       Z.lor tx (Z.land (uint8 r) maskx)] in
    if (MaxRune <? i) || ((surrogateMin <=? i) && (i <=? surrogateMax))
    then three RuneError
    else if i <=? rune3Max then three r
    else
      [Z.lor t4 (uint8 (Z.shiftr r 18));
       Z.lor tx (Z.land (uint8 (Z.shiftr r 12)) maskx);
       Z.lor tx (Z.land (uint8 (Z.shiftr r 6)) maskx);
       Z.lor tx (Z.land (uint8 r) maskx)].

End utf8.

(** The conversion [string(r)] of a rune. *)
Definition string_of_rune (r : rune) : bytes := utf8.encoderune r.

(* ================================================================= *)
(** ** Package [unicode] *)

Module unicode.

Definition MaxLatin1 : Z := 0xFF.

(** [IsSpace]: the Latin-1 cases of the switch, then the part of the
    [White_Space] range table above Latin-1. *)
Definition IsSpace (r : rune) : bool :=
  if uint32 r <=? MaxLatin1 then
    (r =? 9) || (r =? 10) || (r =? 11) || (r =? 12) || (r =? 13)
    || (r =? 32) || (r =? 0x85) || (r =? 0xA0)
  else
    (r =? 0x1680)
    || ((0x2000 <=? r) && (r <=? 0x200a))
    || ((0x2028 <=? r) && (r <=? 0x2029))
    || (r =? 0x202f) || (r =? 0x205f) || (r =? 0x3000).

End unicode.

(* ================================================================= *)
(** ** Package [bytes] *)

Module Bytes.

(** [asciiSpace[c] == 1] *)
Definition asciiSpace (c : byte) : bool :=
  (c =? 9) || (c =? 10) || (c =? 11) || (c =? 12) || (c =? 13) || (c =? 32).

(** [indexFunc(s, f, truth)]: the loop [for start < len(s)], run from
    [start]; each round advances by at least one byte. *)
Fixpoint indexFunc_loop (fuel : nat) (s : bytes) (f : rune -> bool)
    (truth : bool) (start : Z) : Z :=
  match fuel with
  | O => -1
  | S k =>
      if start <? len s then
        let r0 := at_ s start in
        let '(r, wid) :=
          if r0 >=? utf8.RuneSelf then utf8.DecodeRune (from s start)
          else (r0, 1) in
        if Bool.eqb (f r) truth then start
        else indexFunc_loop k s f truth (start + wid)
      else -1
  end.

Definition indexFunc (s : bytes) (f : rune -> bool) (truth : bool) : Z :=
  indexFunc_loop (S (length s)) s f truth 0.

(** [lastIndexFunc(s, f, truth)]: the loop [for i := len(s); i > 0;]. *)
Fixpoint lastIndexFunc_loop (fuel : nat) (s : bytes) (f : rune -> bool)
    (truth : bool) (i : Z) : Z :=
  match fuel with
  | O => -1
  | S k =>
      if 0 <? i then
        let r0 := at_ s (i - 1) in
        let '(r, size) :=
          if r0 >=? utf8.RuneSelf then utf8.DecodeLastRune (slice s 0 i)
          else (r0, 1) in
        let i := i - size in
        if Bool.eqb (f r) truth then i
        else lastIndexFunc_loop k s f truth i
      else -1
  end.

Definition lastIndexFunc (s : bytes) (f : rune -> bool) (truth : bool) : Z :=
  lastIndexFunc_loop (S (length s)) s f truth (len s).

Definition TrimLeftFunc (s : bytes) (f : rune -> bool) : bytes :=
  let i := indexFunc s f false in
  if i =? -1 then [] else from s i.

Definition TrimRightFunc (s : bytes) (f : rune -> bool) : bytes :=
  let i := lastIndexFunc s f false in
  let i :=
    if (0 <=? i) && (at_ s i >=? utf8.RuneSelf) then
      let '(_, wid) := utf8.DecodeRune (from s i) in i + wid
    else i + 1 in
  slice s 0 i.

Definition TrimFunc (s : bytes) (f : rune -> bool) : bytes :=
  TrimRightFunc (TrimLeftFunc s f) f.

(** Outcome of one of the two ASCII scans of [TrimSpace]: the index the
    scan stopped at, or the signal that a byte [>= RuneSelf] was met
    there. *)
Inductive scan := Stop (i : Z) | NonASCII (i : Z).

(** [for ; start < len(s); start++], over the suffix [s[start:]] *)
Fixpoint scan_start (rest : bytes) (start : Z) : scan :=
  match rest with
  | [] => Stop start
  | c :: rest' =>
      if c >=? utf8.RuneSelf then NonASCII start
      else if negb (asciiSpace c) then Stop start
      else scan_start rest' (start + 1)
  end.

(** [for ; stop > start; stop--], over the reversed slice [s[start:stop]] *)
Fixpoint scan_stop (rev_rest : bytes) (stop : Z) : scan :=
  match rev_rest with
  | [] => Stop stop
  | c :: rev_rest' =>
      if c >=? utf8.RuneSelf then NonASCII stop
      else if negb (asciiSpace c) then Stop stop
      else scan_stop rev_rest' (stop - 1)
  end.

(** [TrimSpace(s)]: ASCII fast path from both ends, with the fall back to
    [TrimFunc(_, unicode.IsSpace)] on the first non-ASCII byte met. *)
Definition TrimSpace (s : bytes) : bytes :=
  match scan_start s 0 with
  | NonASCII start => TrimFunc (from s start) unicode.IsSpace
  | Stop start =>
      match scan_stop (rev (from s start)) (len s) with
      | NonASCII stop => TrimFunc (slice s start stop) unicode.IsSpace
      | Stop stop => if start =? stop then [] else slice s start stop
      end
  end.

End Bytes.

(* ================================================================= *)
(** ** Package [strings] *)

Module Strings.

(** [HasPrefix(s, prefix)]:
    [len(s) >= len(prefix) && s[:len(prefix)] == prefix] *)
Definition HasPrefix (s prefix : bytes) : bool :=
  (len s >=? len prefix) && bytes_eqb (slice s 0 (len prefix)) prefix.

(** [Index(s, substr)]: the index of the first instance of [substr] in
    [s], or -1. *)
Fixpoint Index (s substr : bytes) : Z :=
  if HasPrefix s substr then 0
  else match s with
       | [] => -1
       | _ :: s' => let i := Index s' substr in
                    if i <? 0 then -1 else i + 1
       end.

(** [utf8.RuneCountInString(s)]: one per rune, an invalid byte counting
    as a rune of width 1. *)
Fixpoint RuneCount_loop (fuel : nat) (s : bytes) (i n : Z) : Z :=
  match fuel with
  | O => n
  | S k =>
      if i <? len s then
        let '(_, size) := utf8.DecodeRune (from s i) in
        RuneCount_loop k s (i + size) (n + 1)
      else n
  end.

Definition RuneCountInString (s : bytes) : Z :=
  RuneCount_loop (S (length s)) s 0 0.

(** The loop of [Count] for a non-empty [substr]:
    [for { i := Index(s, substr); if i == -1 { return n }; n++;
           s = s[i+len(substr):] }] *)
Fixpoint Count_loop (fuel : nat) (s substr : bytes) (n : Z) : Z :=
  match fuel with
  | O => n
  | S k =>
      let i := Index s substr in
      if i =? -1 then n
      else Count_loop k (from s (i + len substr)) substr (n + 1)
  end.

Definition Count (s substr : bytes) : Z :=
  if len substr =? 0 then RuneCountInString s + 1
  else Count_loop (S (length s)) s substr 0.

(** The replacement loop of [Replace], [for i := 0; i < n; i++]: [k]
    rounds remain, [b] is the builder, [start] the read position. *)
Fixpoint Replace_loop (k : nat) (i : Z) (s old new : bytes)
    (start : Z) (b : bytes) : bytes * Z :=
  match k with
  | O => (b, start)
  | S k' =>
      let j :=
        if len old =? 0 then
          if 0 <? i then start + snd (utf8.DecodeRune (from s start))
          else start
        else start + Index (from s start) old in
      let b := b ++ slice s start j in
      let b := b ++ new in
      Replace_loop k' (i + 1) s old new (j + len old) b
  end.

Definition Replace (s old new : bytes) (n : Z) : bytes :=
  if bytes_eqb old new || (n =? 0) then s else
  let m := Count s old in
  if m =? 0 then s else
  let n := if (n <? 0) || (m <? n) then m else n in
  let '(b, start) := Replace_loop (Z.to_nat n) 0 s old new 0 [] in
  b ++ from s start.

Definition ReplaceAll (s old new : bytes) : bytes := Replace s old new (-1).

End Strings.

(* ================================================================= *)
(** ** Package [strconv] *)

Module strconv.

Inductive error := ErrSyntax | ErrRange.

(** [*NumError]: the failing function, the input and the cause. *)
Record NumError := { Func : string; Num : bytes; Err : error }.

Definition syntaxError (fn : string) (str : bytes) : NumError :=
  {| Func := fn; Num := str; Err := ErrSyntax |}.
Definition rangeError (fn : string) (str : bytes) : NumError :=
  {| Func := fn; Num := str; Err := ErrRange |}.

Definition maxUint64 : Z := 2 ^ 64 - 1.

(** [lower(c)]: [c | ('x' - 'X')] *)
Definition lower (c : byte) : byte := Z.lor c 0x20.

(** The digit loop of [ParseUint] for an explicit base in [2, 36] (no
    underscores, which only base 0 admits): [n] is the value so far. *)
Fixpoint ParseUint_loop (s0 : bytes) (base : Z) (cutoff maxVal : Z)
    (cs : bytes) (n : Z) : Z * option NumError :=
  match cs with
  | [] => (n, None)
  | c :: cs' =>
      let digit :=
        if (0x30 <=? c) && (c <=? 0x39) then Some (c - 0x30)
        else if (0x61 <=? lower c) && (lower c <=? 0x7A)
             then Some (uint8 (lower c - 0x61 + 10))
        else None in
      match digit with
      | None => (0, Some (syntaxError "ParseUint" s0))
      | Some d =>
          if d >=? uint8 base then (0, Some (syntaxError "ParseUint" s0))
          else if n >=? cutoff then (maxVal, Some (rangeError "ParseUint" s0))
          else
            let n := uint64 (n * base) in
            let n1 := uint64 (n + d) in
            if (n1 <? n) || (maxVal <? n1)
            then (maxVal, Some (rangeError "ParseUint" s0))
            else ParseUint_loop s0 base cutoff maxVal cs' n1
      end
  end.

(** [ParseUint(s, base, bitSize)] for [2 <= base <= 36] and
    [0 < bitSize <= 64], the only way this program calls it. *)
Definition ParseUint (s : bytes) (base bitSize : Z) : Z * option NumError :=
  if len s =? 0 then (0, Some (syntaxError "ParseUint" s)) else
  let cutoff := maxUint64 / base + 1 in
  let maxVal := uint64 (Z.shiftl 1 bitSize) - 1 in
  ParseUint_loop s base cutoff maxVal s 0.

Definition ParseInt (s : bytes) (base bitSize : Z) : Z * option NumError :=
  if len s =? 0 then (0, Some (syntaxError "ParseInt" s)) else
  let s0 := s in
  let c0 := at_ s 0 in
  let '(neg, s) :=
    if c0 =? 0x2B then (false, from s 1)
    else if c0 =? 0x2D then (true, from s 1)
    else (false, s) in
  let '(un, err) := ParseUint s base bitSize in
  let checked :=
    let cutoff := uint64 (Z.shiftl 1 (bitSize - 1)) in
    if negb neg && (un >=? cutoff)
    then (int64 (cutoff - 1), Some (rangeError "ParseInt" s0))
    else if neg && (cutoff <? un)
    then (- int64 cutoff, Some (rangeError "ParseInt" s0))
    else
      let n := int64 un in
      let n := if neg then int64 (- n) else n in
      (n, None) in
  match err with
  | Some e =>
      match Err e with
      | ErrRange => checked
      | ErrSyntax =>
          (0, Some {| Func := "ParseInt"; Num := s0; Err := Err e |})
      end
  | None => checked
  end.

End strconv.

(* ================================================================= *)
(** ** The program: [wrapline.go] *)

(** The two errors [parseDelimiter] builds with [fmt.Errorf]:
    ["invalid hex value '%s': %w"], wrapping the [strconv] error, and
    ["hex value '%s' out of valid Unicode range"]. *)
Inductive DelimiterError :=
| InvalidHexValue (arg : bytes) (cause : strconv.NumError)
| OutOfUnicodeRange (arg : bytes).

(** [parseDelimiter(arg)]: the pair [(string, error)] it returns. *)
Definition parseDelimiter (arg : bytes) : bytes * option DelimiterError :=
  if Strings.HasPrefix arg (B "0x") then
    let '(value, err) := strconv.ParseInt (from arg 2) 16 32 in
    match err with
    | Some e => ([], Some (InvalidHexValue arg e))
    | None =>
        if (value <? 0) || (0x10FFFF <? value)
        then ([], Some (OutOfUnicodeRange arg))
        else (string_of_rune (int32 value), None)
    end
  else (arg, None).

(** What [processLine] reads and updates through its pointers: the bytes
    accepted by [writer] so far and the reusable [outputBuf]. *)
Record Sink := { written : bytes; outputBuf : bytes }.

(** The one-byte string of the backslash that escapes a delimiter. *)
Definition backslash : bytes := [92].

(** [processLine(writer, line, delimiter, escapeDelim, &outputBuf)] *)
Definition processLine (k : Sink) (line delimiter : bytes)
    (escapeDelim : bool) : Sink :=
  (* Reset the buffer for reuse *)
  let buf := slice (outputBuf k) 0 0 in
  (* Add opening delimiter *)
  let buf := buf ++ delimiter in
  (* Add line content (escaped if needed) *)
  let buf :=
    if escapeDelim && (0 <? len delimiter) then
      let escapedLine :=
        Strings.ReplaceAll line delimiter (backslash ++ delimiter) in
      buf ++ escapedLine
    else buf ++ line in
  (* Add closing delimiter and newline *)
  let buf := buf ++ delimiter in
  let buf := buf ++ [10] in
  (* Single write operation *)
  {| written := written k ++ buf; outputBuf := buf |}.

(** The command-line flags the record pipeline depends on:
    [-d], [-s], [-e], [-escape], [-0]. *)
Record Flags := {
  delimiterArg : bytes;
  stripWS : bool;
  skipEmpty : bool;
  escapeDelim : bool;
  nullTerminated : bool
}.

(** The flags with [-e] set to [b]. *)
Definition with_skipEmpty (b : bool) (fl : Flags) : Flags :=
  {| delimiterArg := delimiterArg fl; stripWS := stripWS fl; skipEmpty := b;
     escapeDelim := escapeDelim fl; nullTerminated := nullTerminated fl |}.

(** The flag defaults: [-d] is a double quote, the rest are off. *)
Definition defaultFlags : Flags :=
  {| delimiterArg := [34]; stripWS := false; skipEmpty := false;
     escapeDelim := false; nullTerminated := false |}.

(** [reader.ReadBytes(delim)] on the unread input: the bytes up to and
    including the first [delim], whether [io.EOF] was met instead, and
    what is left unread. *)
Fixpoint ReadBytes (unread : bytes) (delim : byte) : bytes * bool * bytes :=
  match unread with
  | [] => ([], true, [])
  | b :: rest =>
      if b =? delim then ([b], false, rest)
      else let '(line, eof, rest') := ReadBytes rest delim in
           (b :: line, eof, rest')
  end.

(** The variables of [main] that live across loop iterations. *)
Record State := {
  unread : bytes;
  bufferedLine : bytes;
  hasBufferedLine : bool;
  sink : Sink
}.

Inductive Outcome := Continue (s : State) | Break (s : State).

(** The lookahead buffer as the option it encodes. *)
Definition pending (st : State) : option bytes :=
  if hasBufferedLine st then Some (bufferedLine st) else None.

Section Loop.

Variable fl : Flags.
Variable delimiter : bytes.

Definition delimByte : byte := if nullTerminated fl then 0 else 10.

(** The three places where a record is trimmed when [-s] is given. *)
Definition strip (line : bytes) : bytes :=
  if stripWS fl then Bytes.TrimSpace line else line.

(** One round of the [for] loop of [main]. *)
Definition iteration (st : State) : Outcome :=
  let '(line, eof, rest) := ReadBytes (unread st) delimByte in
  (* Remove the delimiter from the end *)
  let line :=
    if (0 <? len line) && (at_ line (len line - 1) =? delimByte)
    then slice line 0 (len line - 1) else line in
  if eof then
    (* If we have a buffered line, it's the last line *)
    let k := sink st in
    let k :=
      if hasBufferedLine st then
        let processedLine := strip (bufferedLine st) in
        (* Always skip empty last lines *)
        if 0 <? len processedLine
        then processLine k processedLine delimiter (escapeDelim fl)
        else k
      else k in
    (* If line has data (no trailing delimiter case), it's also the
       last line *)
    let k :=
      if 0 <? len line then
        let processedLine := strip line in
        if 0 <? len processedLine
        then processLine k processedLine delimiter (escapeDelim fl)
        else k
      else k in
    Break {| unread := rest; bufferedLine := bufferedLine st;
             hasBufferedLine := hasBufferedLine st; sink := k |}
  else
    (* If we have a buffered line, process it now (we know it's not the
       last line) *)
    let k := sink st in
    let k :=
      if hasBufferedLine st then
        let processedLine := strip (bufferedLine st) in
        (* Output line unless it's empty and we're skipping empty lines *)
        if (0 <? len processedLine) || negb (skipEmpty fl)
        then processLine k processedLine delimiter (escapeDelim fl)
        else k
      else k in
    (* Buffer current line for next iteration *)
    Continue {| unread := rest; bufferedLine := line;
                hasBufferedLine := true; sink := k |}.

(** The [for] loop, with a bound on the number of rounds. *)
Fixpoint loop (fuel : nat) (st : State) : option State :=
  match fuel with
  | O => None
  | S n =>
      match iteration st with
      | Break st' => Some st'
      | Continue st' => loop n st'
      end
  end.

(** The state at loop entry: nothing buffered, nothing written,
    [outputBuf := make([]byte, 0, 1024)]. *)
Definition initial (input : bytes) : State :=
  {| unread := input; bufferedLine := []; hasBufferedLine := false;
     sink := {| written := []; outputBuf := [] |} |}.


End Loop.

(** The bytes written by the loop run on [input] with the resolved
    [delimiter]; the bound allows one round per input byte and one for
    the end of the stream. *)
Definition run (fl : Flags) (delimiter : bytes) (input : bytes)
    : option bytes :=
  match loop fl delimiter (S (length input)) (initial input) with
  | Some st => Some (written (sink st))
  | None => None
  end.

(** How [main] ends: [os.Exit(1)] on a bad delimiter, or a normal return
    after the deferred [writer.Flush()], with everything written. *)
Inductive Exit :=
| ExitInvalidDelimiter (e : DelimiterError)
| ExitOK (output : bytes).

(** [main], from the parsed flags and the input bytes; [None] would be a
    loop that outlives its bound. *)
Definition main_fuel (fuel : nat) (fl : Flags) (input : bytes) : option Exit :=
  match parseDelimiter (delimiterArg fl) with
  | (_, Some e) => Some (ExitInvalidDelimiter e)
  | (delimiter, None) =>
      match loop fl delimiter fuel (initial input) with
      | Some st => Some (ExitOK (written (sink st)))
      | None => None
      end
  end.

Definition main (fl : Flags) (input : bytes) : option Exit :=
  main_fuel (S (length input)) fl input.

(* ================================================================= *)
(** ** The vocabulary of the specification

    These definitions follow the words of the specification, not the
    code; the theorems below compare the two. *)

Module Spec.

(** *** Records *)

(** Segmentation of a stream on one separator byte: the records that are
    followed by a separator, in order, and the bytes after the last
    separator (the fragment without a trailing separator). *)
Fixpoint split_records (sep : byte) (input : bytes) : list bytes * bytes :=
  match input with
  | [] => ([], [])
  | b :: rest =>
      let '(rs, f) := split_records sep rest in
      if b =? sep then ([] :: rs, f)
      else match rs with
           | [] => ([], b :: f)
           | r :: rs' => ((b :: r) :: rs', f)
           end
  end.

(** The stream made of the terminated records [rs] and the fragment [f]. *)
Definition join (sep : byte) (rs : list bytes) (f : bytes) : bytes :=
  flat_map (fun r => r ++ [sep]) rs ++ f.

(** A record holds no separator. *)
Definition sep_free (sep : byte) (r : bytes) : Prop := ~ In sep r.

(** The records of a stream in order: the terminated ones, then the
    fragment when it is not empty. *)
Definition records (sep : byte) (input : bytes) : list bytes :=
  let '(rs, f) := split_records sep input in
  match f with [] => rs | _ => rs ++ [f] end.

(** *** Whitespace *)

(** The bytes of the ASCII white space characters:
    tab, line feed, vertical tab, form feed, carriage return, space. *)
Definition ascii_space (c : byte) : Prop :=
  c = 9 \/ c = 10 \/ c = 11 \/ c = 12 \/ c = 13 \/ c = 32.

(** Code points with the Unicode [White_Space] property. *)
Definition white_space (r : rune) : Prop :=
  (9 <= r <= 13) \/ r = 0x20 \/ r = 0x85 \/ r = 0xA0 \/ r = 0x1680
  \/ (0x2000 <= r <= 0x200A) \/ r = 0x2028 \/ r = 0x2029 \/ r = 0x202F
  \/ r = 0x205F \/ r = 0x3000.

(** The UTF-8 text of a code point, by the bit layout of the encoding:
    1 byte below 0x80, 2 below 0x800, 3 below 0x10000, 4 above. *)
Definition code_point_text (v : Z) : bytes :=
  if v <? 0x80 then [v]
  else if v <? 0x800 then [0xC0 + v / 64; 0x80 + v mod 64]
  else if v <? 0x10000 then
    [0xE0 + v / 4096; 0x80 + (v / 64) mod 64; 0x80 + v mod 64]
  else
    [0xF0 + v / 262144; 0x80 + (v / 4096) mod 64;
     0x80 + (v / 64) mod 64; 0x80 + v mod 64].

(** The surrogate code points, which are no characters. *)
Definition is_surrogate (v : Z) : bool := (0xD800 <=? v) && (v <=? 0xDFFF).

(** The code points that have a UTF-8 text. *)
Definition character (c : rune) : Prop :=
  0 <= c <= 0x10FFFF /\ is_surrogate c = false.

(** Text made of white space only. *)
Inductive blank : bytes -> Prop :=
| blank_nil : blank []
| blank_cons r s : white_space r -> blank s -> blank (code_point_text r ++ s).

(** A character other than white space. *)
Definition mark (c : rune) : Prop := character c /\ ~ white_space c.

(** Text that begins with a mark and ends with a mark. *)
Definition edged (s : bytes) : Prop :=
  (exists c rest, mark c /\ s = code_point_text c ++ rest) /\
  (exists c rest, mark c /\ s = rest ++ code_point_text c).

(** *** Escaping *)

(** [d] occurs in [s] at offset [k]. *)
Definition occurs_at (d s : bytes) (k : nat) : Prop :=
  firstn (length d) (skipn k s) = d.

(** [Escaped d s t]: [t] is [s] with every occurrence of [d], taken left
    to right without overlap, preceded by a backslash. *)
Inductive Escaped (d : bytes) : bytes -> bytes -> Prop :=
| Escaped_rest s :
    (forall k, ~ occurs_at d s k) -> Escaped d s s
| Escaped_next p s t :
    (forall k, (k < length p)%nat -> ~ occurs_at d (p ++ d ++ s) k) ->
    Escaped d s t ->
    Escaped d (p ++ d ++ s) (p ++ 92 :: d ++ t).

(** *** Emission *)

Section Emission.

Variable fl : Flags.
Variable d : bytes.

(** Step 1: trimming, when enabled. *)
Definition processed (r : bytes) : bytes :=
  if stripWS fl then Bytes.TrimSpace r else r.

(** Step 4: the content between the delimiters. *)
Definition content (p : bytes) : bytes :=
  if escapeDelim fl && negb (len d =? 0)
  then Strings.ReplaceAll p d (92 :: d) else p.

(** The output format [<delimiter><content><delimiter>\n]. *)
Definition wrapped (p : bytes) : bytes := d ++ content p ++ d ++ [10].

(** Steps 2 and 3 for an interior record: dropped when empty and
    skip-empty is set. *)
Definition emit_interior (r : bytes) : bytes :=
  let p := processed r in
  if (len p =? 0) && skipEmpty fl then [] else wrapped p.

(** Steps 2 and 3 for terminal content: dropped when empty. *)
Definition emit_terminal (r : bytes) : bytes :=
  let p := processed r in
  if len p =? 0 then [] else wrapped p.

(** What a whole stream produces when every record but the last falls
    under the interior policy and the last one under the terminal
    policy. *)
Definition output_by_policy (sep : byte) (input : bytes) : bytes :=
  let rs := records sep input in
  flat_map emit_interior (removelast rs) ++
  match rs with [] => [] | _ => emit_terminal (last rs []) end.

(** The records that survive steps 2 and 3, as they are after step 1. *)
Definition keep_interior (r : bytes) : list bytes :=
  let p := processed r in
  if (len p =? 0) && skipEmpty fl then [] else [p].

Definition keep_terminal (r : bytes) : list bytes :=
  let p := processed r in
  if len p =? 0 then [] else [p].

(** The same, told from the lookahead: with [pend] the record held
    back, the terminated records [rs] still to come are each held back
    in turn, and at the end of the stream the one held back and the
    fragment [f] are both terminal content. *)
Fixpoint drain (pend : option bytes) (rs : list bytes) (f : bytes) : bytes :=
  match rs with
  | [] =>
      (match pend with Some p => emit_terminal p | None => [] end)
      ++ emit_terminal f
  | r :: rs' =>
      (match pend with Some p => emit_interior p | None => [] end)
      ++ drain (Some r) rs' f
  end.

(** The surviving records in the order of [drain]. *)
Fixpoint kept (pend : option bytes) (rs : list bytes) (f : bytes)
    : list bytes :=
  match rs with
  | [] =>
      (match pend with Some p => keep_terminal p | None => [] end)
      ++ keep_terminal f
  | r :: rs' =>
      (match pend with Some p => keep_interior p | None => [] end)
      ++ kept (Some r) rs' f
  end.

(** The records of [input] that are written. *)
Definition survivors (input : bytes) : list bytes :=
  let '(rs, f) := split_records (delimByte fl) input in kept None rs f.

End Emission.

(** *** Base-16 integers *)

Definition hex_digit (c : byte) : option Z :=
  if (0x30 <=? c) && (c <=? 0x39) then Some (c - 0x30)
  else if (0x61 <=? c) && (c <=? 0x66) then Some (c - 0x61 + 10)
  else if (0x41 <=? c) && (c <=? 0x46) then Some (c - 0x41 + 10)
  else None.

(** The value of a run of hexadecimal digits, most significant first,
    continuing from [acc]. *)
Fixpoint digits_value (cs : bytes) (acc : Z) : option Z :=
  match cs with
  | [] => Some acc
  | c :: cs' =>
      match hex_digit c with
      | Some v => digits_value cs' (16 * acc + v)
      | None => None
      end
  end.

Definition unsigned_value (cs : bytes) : option Z :=
  match cs with [] => None | _ => digits_value cs 0 end.

(** The integer a text denotes in base 16: an optional sign, then one or
    more hexadecimal digits; no bound on the magnitude. *)
Definition base16_value (s : bytes) : option Z :=
  match s with
  | [] => None
  | c :: cs =>
      if c =? 0x2B then unsigned_value cs
      else if c =? 0x2D then option_map Z.opp (unsigned_value cs)
      else unsigned_value s
  end.

(** The values of the signed 32-bit integers. *)
Definition fits_int32 (v : Z) : bool := (- 2 ^ 31 <=? v) && (v <? 2 ^ 31).

(** The two error kinds of the resolver. *)
Definition InvalidDelimiterSyntax (r : bytes * option DelimiterError) : Prop :=
  exists arg cause, r = ([], Some (InvalidHexValue arg cause)).
Definition DelimiterOutOfRange (r : bytes * option DelimiterError) : Prop :=
  exists arg, r = ([], Some (OutOfUnicodeRange arg)).

End Spec.

(* ================================================================= *)
(** ** The command line of [main]

    The part of [main] before the loop: the flag set and [flag.Parse],
    the version banner, the choice of the input and of the output, and
    then the loop once more, with the reads and the writes that fail. *)

Definition pgmName : bytes := B "wrapline".
Definition pgmURL : bytes := B "https://github.com/jftuga/wrapline".
Definition pgmVersion : bytes := B "1.1.6".

(** The values of the seven flags: [-v], the five of [Flags], [-o]. *)
Record Options := {
  showVersion : bool;
  flags : Flags;
  outputFile : bytes
}.

(** The defaults given to [flag.Bool] and [flag.String]. *)
Definition defaultOptions : Options :=
  {| showVersion := false; flags := defaultFlags; outputFile := [] |}.

Definition with_delimiterArg (s : bytes) (fl : Flags) : Flags :=
  {| delimiterArg := s; stripWS := stripWS fl; skipEmpty := skipEmpty fl;
     escapeDelim := escapeDelim fl; nullTerminated := nullTerminated fl |}.
Definition with_stripWS (b : bool) (fl : Flags) : Flags :=
  {| delimiterArg := delimiterArg fl; stripWS := b; skipEmpty := skipEmpty fl;
     escapeDelim := escapeDelim fl; nullTerminated := nullTerminated fl |}.
Definition with_escapeDelim (b : bool) (fl : Flags) : Flags :=
  {| delimiterArg := delimiterArg fl; stripWS := stripWS fl;
     skipEmpty := skipEmpty fl; escapeDelim := b;
     nullTerminated := nullTerminated fl |}.
Definition with_nullTerminated (b : bool) (fl : Flags) : Flags :=
  {| delimiterArg := delimiterArg fl; stripWS := stripWS fl;
     skipEmpty := skipEmpty fl; escapeDelim := escapeDelim fl;
     nullTerminated := b |}.

Definition with_flags (f : Flags -> Flags) (o : Options) : Options :=
  {| showVersion := showVersion o; flags := f (flags o);
     outputFile := outputFile o |}.
Definition with_showVersion (b : bool) (o : Options) : Options :=
  {| showVersion := b; flags := flags o; outputFile := outputFile o |}.
Definition with_outputFile (s : bytes) (o : Options) : Options :=
  {| showVersion := showVersion o; flags := flags o; outputFile := s |}.

(* ================================================================= *)
(** ** Package [flag], on the flag set of [main] *)

Module flag.

(** [strconv.ParseBool], which [boolValue.Set] calls. *)
Definition ParseBool (str : bytes) : option bool :=
  if existsb (bytes_eqb str)
       [B "1"; B "t"; B "T"; B "true"; B "TRUE"; B "True"] then Some true
  else if existsb (bytes_eqb str)
       [B "0"; B "f"; B "F"; B "false"; B "FALSE"; B "False"] then Some false
  else None.

(** The errors of [parseOne], by their formats:
    ["bad flag syntax: %s"], [ErrHelp],
    ["flag provided but not defined: -%s"],
    ["invalid boolean value %q for -%s: %v"],
    ["flag needs an argument: -%s"]. *)
Inductive Error :=
| BadSyntax (s : bytes)
| ErrHelp
| NotDefined (name : bytes)
| InvalidBoolean (value name : bytes)
| NeedsArgument (name : bytes).

(** A defined flag: a boolean one, which needs no argument, or a string
    one; each with the assignment to its variable. *)
Inductive Formal :=
| BoolVar (set : bool -> Options -> Options)
| StringVar (set : bytes -> Options -> Options).

(** [f.formal[name]] for the seven flags of [main]. *)
Definition formal (name : bytes) : option Formal :=
  if bytes_eqb name (B "v") then Some (BoolVar with_showVersion)
  else if bytes_eqb name (B "d")
  then Some (StringVar (fun s => with_flags (with_delimiterArg s)))
  else if bytes_eqb name (B "s")
  then Some (BoolVar (fun b => with_flags (with_stripWS b)))
  else if bytes_eqb name (B "e")
  then Some (BoolVar (fun b => with_flags (with_skipEmpty b)))
  else if bytes_eqb name (B "escape")
  then Some (BoolVar (fun b => with_flags (with_escapeDelim b)))
  else if bytes_eqb name (B "o") then Some (StringVar with_outputFile)
  else if bytes_eqb name (B "0")
  then Some (BoolVar (fun b => with_flags (with_nullTerminated b)))
  else None.

(** The scan [for i := 1; i < len(name); i++ { if name[i] == '=' ...]:
    the index of the first equals sign in [name[i:]], counted in [name]. *)
Fixpoint index_equals (rest : bytes) (i : Z) : option Z :=
  match rest with
  | [] => None
  | c :: rest' => if c =? 0x3D then Some i else index_equals rest' (i + 1)
  end.

(** What one call of [parseOne] does to [f.args] and the flag values:
    a flag was seen, or the flags are over, or there is an error. *)
Inductive Step :=
| Seen (args : list bytes) (o : Options)
| NotSeen (args : list bytes)
| Failed (e : Error).

Definition parseOne (args : list bytes) (o : Options) : Step :=
  match args with
  | [] => NotSeen []
  | s :: args' =>
      if (len s <? 2) || negb (at_ s 0 =? 0x2D) then NotSeen args else
      let numMinuses := if at_ s 1 =? 0x2D then 2 else 1 in
      (* "--" terminates the flags *)
      if (at_ s 1 =? 0x2D) && (len s =? 2) then NotSeen args' else
      let name := from s numMinuses in
      if (len name =? 0) || (at_ name 0 =? 0x2D) || (at_ name 0 =? 0x3D)
      then Failed (BadSyntax s) else
      (* it's a flag. does it have an argument? *)
      let '(name, hasValue, value) :=
        match index_equals (from name 1) 1 with
        | Some i => (slice name 0 i, true, from name (i + 1))
        | None => (name, false, [])
        end in
      match formal name with
      | None =>
          if bytes_eqb name (B "help") || bytes_eqb name (B "h")
          then Failed ErrHelp
          else Failed (NotDefined name)
      | Some (BoolVar set) =>
          (* special case: doesn't need an arg *)
          if hasValue then
            match ParseBool value with
            | Some b => Seen args' (set b o)
            | None => Failed (InvalidBoolean value name)
            end
          else Seen args' (set true o)
      | Some (StringVar set) =>
          (* It must have a value, which might be the next argument. *)
          if hasValue then Seen args' (set value o)
          else match args' with
               | value :: args'' => Seen args'' (set value o)
               | [] => Failed (NeedsArgument name)
               end
      end
  end.

(** How [Parse] ends under [ExitOnError]: with the flag values and the
    arguments left, or by [os.Exit]: status 0 on [ErrHelp], else 2. *)
Inductive Parsed :=
| ParseOK (o : Options) (args : list bytes)
| ParseExit (code : Z) (e : Error).

(** The loop of [Parse]; every flag seen takes an argument off. *)
Fixpoint Parse_loop (fuel : nat) (args : list bytes) (o : Options)
    : option Parsed :=
  match fuel with
  | O => None
  | S k =>
      match parseOne args o with
      | Seen args' o' => Parse_loop k args' o'
      | NotSeen args' => Some (ParseOK o args')
      | Failed e =>
          Some (ParseExit (match e with ErrHelp => 0 | _ => 2 end) e)
      end
  end.

(** [flag.Parse()] on [os.Args[1:]]. *)
Definition Parse (arguments : list bytes) : option Parsed :=
  Parse_loop (S (length arguments)) arguments defaultOptions.

End flag.

(* ================================================================= *)
(** ** Package [bufio]: the writer *)

Module bufio.

Definition defaultBufSize : Z := 4096.

(** The [io.Writer] under the buffered writer, [os.Stdout] or the file
    of [-o]: the bytes it has taken, and how many more it takes before
    a write fails ([None]: any number). *)
Record Device := { taken : bytes; room : option Z }.

(** [wr.Write(p)]: the device after the call, the count [n] and whether
    an error is returned.  A write that fails has taken what there was
    room for. *)
Definition wr_Write (dv : Device) (p : bytes) : Device * Z * bool :=
  match room dv with
  | None => ({| taken := taken dv ++ p; room := None |}, len p, false)
  | Some k =>
      if len p <=? k
      then ({| taken := taken dv ++ p; room := Some (k - len p) |},
            len p, false)
      else ({| taken := taken dv ++ slice p 0 (Z.max 0 k); room := Some 0 |},
            Z.max 0 k, true)
  end.

(** [*Writer]: the device, the bytes [b.buf[0:b.n]] and whether [b.err]
    is set. *)
Record Writer := { wr : Device; buf : bytes; err : bool }.

(** [NewWriter(w)] *)
Definition NewWriter (dv : Device) : Writer :=
  {| wr := dv; buf := []; err := false |}.

Definition Available (b : Writer) : Z := defaultBufSize - len (buf b).
Definition Buffered (b : Writer) : Z := len (buf b).

(** [b.Flush()]: the writer after the call and whether an error is
    returned. *)
Definition Flush (b : Writer) : Writer * bool :=
  if err b then (b, true)
  else if len (buf b) =? 0 then (b, false)
  else
    let '(dv, n, e) := wr_Write (wr b) (buf b) in
    (* n < b.n && err == nil: io.ErrShortWrite *)
    let e := if (n <? len (buf b)) && negb e then true else e in
    if e then ({| wr := dv; buf := from (buf b) n; err := true |}, true)
    else ({| wr := dv; buf := []; err := false |}, false).

(** The loop of [b.Write(p)],
    [for len(p) > b.Available() && b.err == nil]: a large write with an
    empty buffer goes to the device, else the buffer is filled and
    flushed.  It runs twice at most. *)
Fixpoint Write_loop (fuel : nat) (b : Writer) (p : bytes) : Writer * bytes :=
  match fuel with
  | O => (b, p)
  | S k =>
      if (Available b <? len p) && negb (err b) then
        if Buffered b =? 0 then
          (* Large write, empty buffer. *)
          let '(dv, n, e) := wr_Write (wr b) p in
          Write_loop k {| wr := dv; buf := buf b; err := e |} (from p n)
        else
          (* n = copy(b.buf[b.n:], p); b.n += n; b.Flush() *)
          let n := Z.min (Available b) (len p) in
          let b := {| wr := wr b; buf := buf b ++ slice p 0 n;
                      err := err b |} in
          Write_loop k (fst (Flush b)) (from p n)
      else (b, p)
  end.

(** [b.Write(p)]: the writer after the call and whether an error is
    returned. *)
Definition Write (b : Writer) (p : bytes) : Writer * bool :=
  let '(b, p) := Write_loop 3 b p in
  if err b then (b, true)
  else ({| wr := wr b; buf := buf b ++ p; err := false |}, false).

End bufio.

(* ================================================================= *)
(** ** [main] from the command line

    The outside world: the standard input, whether it is a terminal,
    the files, and how much the output takes.  A stream that is read is
    its bytes and the way its reads end: with [io.EOF], or with an
    error, as the reads on a directory do at once.  Paths name files;
    two paths can name one file. *)

Module Cli.

Inductive Ending := EOF | ReadError.

Record Stream := { data : bytes; ending : Ending }.

(** A file that holds nothing, as [os.Create] leaves it. *)
Definition empty : Stream := {| data := []; ending := EOF |}.

(** The files that exist, each under its identity. *)
Definition Files := list (Z * Stream).

Fixpoint lookup (fs : Files) (id : Z) : option Stream :=
  match fs with
  | [] => None
  | (i, s) :: fs' => if i =? id then Some s else lookup fs' id
  end.

(** The file [id] holding [s], whatever it held before. *)
Definition store (fs : Files) (id : Z) (s : Stream) : Files :=
  (id, s) :: filter (fun e => negb (fst e =? id)) fs.

Record World := {
  (** [term.IsTerminal(int(os.Stdin.Fd()))] *)
  inputIsTerminal : bool;
  (** what is read from [os.Stdin] *)
  stdin : Stream;
  (** the files [os.Open] opens, directories included *)
  files : Files;
  (** the file a path names, or would name once created *)
  resolve : bytes -> Z;
  (** whether [os.Create] succeeds on a path *)
  creatable : bytes -> bool;
  (** how many bytes the output takes before a write fails *)
  outputRoom : option Z
}.

(** The messages on [os.Stderr], by their formats. *)
Inductive Message :=
| FlagError (e : flag.Error)
| InvalidDelimiter (e : DelimiterError)
| FilenameRequired
| OpenFailed (filename : bytes)
| CreateFailed (outputFile : bytes)
| ReadFailed
| WriteFailed.

(** What a run leaves behind. *)
Record Result := {
  exitCode : Z;
  stdout : bytes;
  stderr : option Message;
  filesAfter : Files
}.

(** [os.Exit(code)] after a message, before any output. *)
Definition fail (code : Z) (m : Message) (w : World) : Result :=
  {| exitCode := code; stdout := []; stderr := Some m;
     filesAfter := files w |}.

(** [fmt.Printf("%s v%s\n%s\n", pgmName, pgmVersion, pgmURL)] *)
Definition banner : bytes :=
  pgmName ++ B " v" ++ pgmVersion ++ [10] ++ pgmURL ++ [10].

Inductive Output := Stdout | OutFile (id : Z).

(** The [switch] on [len(args)] that chooses the file name. *)
Definition chooseFilename (args : list bytes) (inputIsTerminal : bool)
    : option bytes :=
  match args with
  | [filename] => Some filename
  | [] => if negb inputIsTerminal then Some (B "-") else None
  | _ => None
  end.

Section Loop.

Variable fl : Flags.
Variable delimiter : bytes.

(** How the reads on the input end. *)
Variable ending : Ending.

(** [processLine] with the error that [writer.Write] returns. *)
Definition processLine (k : Sink) (b : bufio.Writer) (line : bytes)
    : Sink * bufio.Writer * bool :=
  let k := processLine k line delimiter (escapeDelim fl) in
  let '(b, err) := bufio.Write b (outputBuf k) in
  (k, b, err).

(** How a round of the loop ends: with the next round, with [break],
    or with [os.Exit(1)] after a read or a write that failed. *)
Inductive Round :=
| Next (st : State) (b : bufio.Writer)
| Finished (st : State) (b : bufio.Writer)
| ReadFailure (b : bufio.Writer)
| WriteFailure (b : bufio.Writer).

(** One round of the [for] loop of [main], failures included. *)
Definition iteration (st : State) (b : bufio.Writer) : Round :=
  let '(line, eof, rest) := ReadBytes (unread st) (delimByte fl) in
  (* err != nil && err != io.EOF *)
  if eof && (match ending with ReadError => true | EOF => false end)
  then ReadFailure b else
  (* Remove the delimiter from the end *)
  let line :=
    if (0 <? len line) && (at_ line (len line - 1) =? delimByte fl)
    then slice line 0 (len line - 1) else line in
  if eof then
    (* If we have a buffered line, it's the last line *)
    let '(k, b, err) :=
      if hasBufferedLine st then
        let processedLine := strip fl (bufferedLine st) in
        (* Always skip empty last lines *)
        if 0 <? len processedLine
        then processLine (sink st) b processedLine
        else (sink st, b, false)
      else (sink st, b, false) in
    if err then WriteFailure b else
    (* If line has data (no trailing delimiter case), it's also the
       last line *)
    let '(k, b, err) :=
      if 0 <? len line then
        let processedLine := strip fl line in
        if 0 <? len processedLine
        then processLine k b processedLine
        else (k, b, false)
      else (k, b, false) in
    if err then WriteFailure b else
    Finished {| unread := rest; bufferedLine := bufferedLine st;
                hasBufferedLine := hasBufferedLine st; sink := k |} b
  else
    (* If we have a buffered line, process it now (we know it's not the
       last line) *)
    let '(k, b, err) :=
      if hasBufferedLine st then
        let processedLine := strip fl (bufferedLine st) in
        (* Output line unless it's empty and we're skipping empty lines *)
        if (0 <? len processedLine) || negb (skipEmpty fl)
        then processLine (sink st) b processedLine
        else (sink st, b, false)
      else (sink st, b, false) in
    if err then WriteFailure b else
    (* Buffer current line for next iteration *)
    Next {| unread := rest; bufferedLine := line;
            hasBufferedLine := true; sink := k |} b.

(** The [for] loop, with a bound on the number of rounds; it does not
    end with [Next]. *)
Fixpoint loop (fuel : nat) (st : State) (b : bufio.Writer) : option Round :=
  match fuel with
  | O => None
  | S n =>
      match iteration st b with
      | Next st' b' => loop n st' b'
      | r => Some r
      end
  end.

End Loop.

(** What the output holds when the run ends with status [code]: the
    bytes the device has taken. *)
Definition deliver (code : Z) (m : option Message) (output : Output)
    (fs : Files) (b : bufio.Writer) : Result :=
  match output with
  | Stdout =>
      {| exitCode := code; stdout := bufio.taken (bufio.wr b); stderr := m;
         filesAfter := fs |}
  | OutFile id =>
      {| exitCode := code; stdout := []; stderr := m;
         filesAfter :=
           store fs id {| data := bufio.taken (bufio.wr b);
                          ending := EOF |} |}
  end.

(** [main] after [flag.Parse()]. *)
Definition mainParsed (o : Options) (args : list bytes) (w : World)
    : option Result :=
  (* Handle version flag *)
  if showVersion o then
    Some {| exitCode := 0; stdout := banner; stderr := None;
            filesAfter := files w |}
  else
  (* Parse delimiter (handle hex notation) *)
  match parseDelimiter (delimiterArg (flags o)) with
  | (_, Some e) => Some (fail 1 (InvalidDelimiter e) w)
  | (delimiter, None) =>
  match chooseFilename args (inputIsTerminal w) with
  | None => Some (fail 1 FilenameRequired w)
  | Some filename =>
  (* Open input source: the file that is read, if any *)
  let opened :=
    if bytes_eqb filename (B "-") then Some None
    else match lookup (files w) (resolve w filename) with
         | Some _ => Some (Some (resolve w filename))
         | None => None
         end in
  match opened with
  | None => Some (fail 1 (OpenFailed filename) w)
  | Some input =>
  (* Set up output destination *)
  let created :=
    if negb (bytes_eqb (outputFile o) []) then
      if creatable w (outputFile o)
      then Some (OutFile (resolve w (outputFile o)),
                 store (files w) (resolve w (outputFile o)) empty)
      else None
    else Some (Stdout, files w) in
  match created with
  | None => Some (fail 1 (CreateFailed (outputFile o)) w)
  | Some (output, fs) =>
  (* what the reader yields once the loop starts reading *)
  let s :=
    match input with
    | None => stdin w
    | Some id => match lookup fs id with Some s => s | None => empty end
    end in
  let writer :=
    bufio.NewWriter {| bufio.taken := []; bufio.room := outputRoom w |} in
  match loop (flags o) delimiter (ending s) (S (length (data s)))
             (initial (data s)) writer with
  | None | Some (Next _ _) => None
  | Some (Finished _ b) =>
      (* the deferred [writer.Flush()], its error dropped *)
      Some (deliver 0 None output fs (fst (bufio.Flush b)))
  | Some (ReadFailure b) => Some (deliver 1 (Some ReadFailed) output fs b)
  | Some (WriteFailure b) => Some (deliver 1 (Some WriteFailed) output fs b)
  end end end end end.

(** [main] on the arguments [os.Args[1:]]. *)
Definition main (argv : list bytes) (w : World) : option Result :=
  match flag.Parse argv with
  | None => None
  | Some (flag.ParseExit code e) => Some (fail code (FlagError e) w)
  | Some (flag.ParseOK o args) => mainParsed o args w
  end.

(** What a run that has set up its output leaves behind, on the standard
    output or in the file of [-o], when the device has taken [out]. *)
Definition outcome (o : Options) (w : World) (code : Z)
    (m : option Message) (out : bytes) : Result :=
  if bytes_eqb (outputFile o) [] then
    {| exitCode := code; stdout := out; stderr := m;
       filesAfter := files w |}
  else
    {| exitCode := code; stdout := []; stderr := m;
       filesAfter :=
         store (files w) (resolve w (outputFile o))
               {| data := out; ending := EOF |} |}.

(** Whether [n] bytes are within what the output takes. *)
Definition fits (room : option Z) (n : Z) : bool :=
  match room with None => true | Some k => n <=? k end.

(** The writer has been handed [W] and holds it, in the device or in
    its buffer, without error; the device, which takes [cap] bytes in
    all, has room for the rest. *)
Definition holds (cap : option Z) (W : bytes) (b : bufio.Writer) : Prop :=
  bufio.err b = false /\
  bufio.taken (bufio.wr b) ++ bufio.buf b = W /\
  bufio.room (bufio.wr b) =
    option_map (fun K => K - len (bufio.taken (bufio.wr b))) cap.

(** The writer has been handed [W] and holds all of it in its buffer,
    the device as it was when the writer was made. *)
Definition buffered (dv : bufio.Device) (W : bytes) (b : bufio.Writer)
    : Prop :=
  bufio.err b = false /\ bufio.wr b = dv /\ bufio.buf b = W.

End Cli.

(* ================================================================= *)
(** ** More vocabulary for the properties *)

Module Text.

(** The lower-case form of an ASCII letter; other bytes are kept. *)
Definition ascii_lower (c : byte) : byte :=
  if (0x41 <=? c) && (c <=? 0x5A) then c + 32 else c.

(** One record between its delimiters, as a line of the output. *)
Definition frame (d c : bytes) : bytes := d ++ c ++ d ++ [10].

(** Whether a byte string holds a byte. *)
Definition nonempty (p : bytes) : bool := 0 <? len p.

(** [t] is a contiguous part of [s]. *)
Definition part_of (t s : bytes) : Prop := exists a b, s = a ++ t ++ b.

(** Escaping a one-byte delimiter, byte by byte. *)
Definition escape_byte (c : byte) (line : bytes) : bytes :=
  flat_map (fun b => if b =? c then [92; c] else [b]) line.

(** Valid UTF-8: the texts of characters, one after the other. *)
Definition utf8_text (cs : list rune) : bytes :=
  flat_map Spec.code_point_text cs.

(** White space, as [unicode.IsSpace] tells it. *)
Definition is_space (c : rune) : Prop := unicode.IsSpace c = true.

(** The characters left when the white space at both ends is taken
    off. *)
Fixpoint drop_white (cs : list rune) : list rune :=
  match cs with
  | [] => []
  | c :: cs' => if unicode.IsSpace c then drop_white cs' else cs
  end.

Definition trim_white (cs : list rune) : list rune :=
  rev (drop_white (rev (drop_white cs))).

End Text.

(* ================================================================= *)
(** * Properties *)

(** Boolean comparisons of hypotheses as propositions, then [lia]. *)
Ltac prop_of_bool :=
  repeat match goal with
  | H : (_ <? _) = true |- _ => apply Z.ltb_lt in H
  | H : (_ <? _) = false |- _ => apply Z.ltb_ge in H
  | H : (_ <=? _) = true |- _ => apply Z.leb_le in H
  | H : (_ <=? _) = false |- _ => apply Z.leb_gt in H
  | H : (_ =? _) = true |- _ => apply Z.eqb_eq in H
  | H : (_ =? _) = false |- _ => apply Z.eqb_neq in H
  | H : (_ >=? _) = _ |- _ => rewrite Z.geb_leb in H
  | H : (_ >? _) = _ |- _ => rewrite Z.gtb_ltb in H
  | H : (_ && _) = true |- _ => apply andb_true_iff in H; destruct H
  | H : (_ || _) = false |- _ => apply orb_false_iff in H; destruct H
  | H : negb _ = true |- _ => apply negb_true_iff in H
  | H : negb _ = false |- _ => apply negb_false_iff in H
  end.
Ltac blia := prop_of_bool; lia.

(** ** Slices *)

Lemma len_nil : len [] = 0.
Proof. reflexivity. Qed.

Lemma len_cons x s : len (x :: s) = len s + 1.
Proof. unfold len. simpl length. lia. Qed.

Lemma len_app s t : len (s ++ t) = len s + len t.
Proof. unfold len. rewrite length_app. lia. Qed.

Lemma len_nonneg s : 0 <= len s.
Proof. unfold len. lia. Qed.

Lemma len_zero s : len s = 0 -> s = [].
Proof. destruct s; [reflexivity | rewrite len_cons; pose proof (len_nonneg s); lia]. Qed.

Lemma len_pos_iff (s : bytes) : (0 <? len s) = negb (len s =? 0).
Proof. pose proof (len_nonneg s). destruct (len s =? 0) eqn:E, (0 <? len s) eqn:E2; simpl; try reflexivity; blia. Qed.

Lemma from_0 s : from s 0 = s.
Proof. reflexivity. Qed.

Lemma from_len_app s t : from (s ++ t) (len s) = t.
Proof.
  unfold from, len. rewrite Nat2Z.id.
  rewrite skipn_app, skipn_all, Nat.sub_diag. reflexivity.
Qed.

Lemma slice_0_len_app s t : slice (s ++ t) 0 (len s) = s.
Proof.
  unfold slice, len. rewrite Z.sub_0_r, Nat2Z.id. simpl skipn.
  rewrite firstn_app, firstn_all, Nat.sub_diag. simpl. apply app_nil_r.
Qed.

Lemma slice_0_0 s : slice s 0 0 = [].
Proof. reflexivity. Qed.

Lemma at_len_app s x t : at_ (s ++ x :: t) (len s) = x.
Proof.
  unfold at_, len.
  destruct (Z.of_nat (length s) <? 0) eqn:E; [blia|].
  rewrite Nat2Z.id, app_nth2, Nat.sub_diag by lia. reflexivity.
Qed.

Lemma at_In s i : 0 <= i < len s -> In (at_ s i) s.
Proof.
  unfold at_, len. intros H.
  destruct (i <? 0) eqn:E; [blia|]. apply nth_In. lia.
Qed.

(** ** Reading records *)

Lemma ReadBytes_terminated sep r rest :
  ~ In sep r ->
  ReadBytes (r ++ sep :: rest) sep = (r ++ [sep], false, rest).
Proof.
  induction r as [|b r IH]; intros Hr; simpl.
  - rewrite Z.eqb_refl. reflexivity.
  - destruct (b =? sep) eqn:E.
    + exfalso. apply Hr. left. blia.
    + rewrite IH; [reflexivity|]. intros Hin. apply Hr. now right.
Qed.

Lemma ReadBytes_eof sep f :
  ~ In sep f -> ReadBytes f sep = (f, true, []).
Proof.
  induction f as [|b f IH]; intros Hf; simpl; [reflexivity|].
  destruct (b =? sep) eqn:E.
  - exfalso. apply Hf. left. blia.
  - rewrite IH; [reflexivity|]. intros Hin. apply Hf. now right.
Qed.

(** The separator is cut off a terminated record and nothing is cut off
    a fragment. *)
Lemma cut_terminated sep r :
  (if (0 <? len (r ++ [sep]))
      && (at_ (r ++ [sep]) (len (r ++ [sep]) - 1) =? sep)
   then slice (r ++ [sep]) 0 (len (r ++ [sep]) - 1) else r ++ [sep]) = r.
Proof.
  assert (len (r ++ [sep]) - 1 = len r) as ->
    by (rewrite len_app, len_cons, len_nil; lia).
  rewrite at_len_app, Z.eqb_refl, slice_0_len_app.
  pose proof (len_nonneg r).
  destruct (0 <? len (r ++ [sep])) eqn:E; [reflexivity|].
  prop_of_bool. unfold len in *. rewrite length_app in *. simpl in *. lia.
Qed.

Lemma cut_fragment sep f :
  ~ In sep f ->
  (if (0 <? len f) && (at_ f (len f - 1) =? sep)
   then slice f 0 (len f - 1) else f) = f.
Proof.
  intros Hf.
  destruct (0 <? len f) eqn:E; [|reflexivity].
  destruct (at_ f (len f - 1) =? sep) eqn:E2; [|reflexivity].
  exfalso. apply Hf.
  prop_of_bool. subst sep. apply at_In. lia.
Qed.

(** ** Writing a record *)

Lemma written_processLine k line d e :
  written (processLine k line d e) =
  written k ++ d ++
    (if e && (0 <? len d) then Strings.ReplaceAll line d (92 :: d) else line)
    ++ d ++ [10].
Proof.
  unfold processLine. cbn [written]. rewrite slice_0_0.
  unfold backslash. cbn [app].
  destruct (e && (0 <? len d)); rewrite <- !app_assoc; reflexivity.
Qed.

Lemma written_processLine_wrapped fl d k p :
  written (processLine k p d (escapeDelim fl)) =
  written k ++ Spec.wrapped fl d p.
Proof.
  rewrite written_processLine. unfold Spec.wrapped, Spec.content.
  rewrite len_pos_iff. reflexivity.
Qed.

(** ** One round of the loop *)

Lemma TrimSpace_nil : Bytes.TrimSpace [] = [].
Proof. reflexivity. Qed.

Lemma processed_nil fl : Spec.processed fl [] = [].
Proof. unfold Spec.processed. destruct (stripWS fl); reflexivity. Qed.

Lemma emit_terminal_nil fl d : Spec.emit_terminal fl d [] = [].
Proof. unfold Spec.emit_terminal. rewrite processed_nil. reflexivity. Qed.

(** The three guarded calls of [processLine] in the loop. *)
Lemma terminal_write fl d k r :
  written (if 0 <? len (strip fl r)
           then processLine k (strip fl r) d (escapeDelim fl) else k) =
  written k ++ Spec.emit_terminal fl d r.
Proof.
  unfold Spec.emit_terminal, strip. fold (Spec.processed fl r).
  rewrite len_pos_iff.
  destruct (len (Spec.processed fl r) =? 0); cbn [negb].
  - now rewrite app_nil_r.
  - apply written_processLine_wrapped.
Qed.

Lemma fragment_write fl d k f :
  written (if 0 <? len f
           then if 0 <? len (strip fl f)
                then processLine k (strip fl f) d (escapeDelim fl) else k
           else k) =
  written k ++ Spec.emit_terminal fl d f.
Proof.
  destruct (0 <? len f) eqn:E; [apply terminal_write|].
  assert (f = []) as ->
    by (apply len_zero; pose proof (len_nonneg f); blia).
  now rewrite emit_terminal_nil, app_nil_r.
Qed.

Lemma interior_write fl d k r :
  written (if (0 <? len (strip fl r)) || negb (skipEmpty fl)
           then processLine k (strip fl r) d (escapeDelim fl) else k) =
  written k ++ Spec.emit_interior fl d r.
Proof.
  unfold Spec.emit_interior, strip. fold (Spec.processed fl r).
  rewrite len_pos_iff.
  destruct (len (Spec.processed fl r) =? 0), (skipEmpty fl);
    cbn [negb orb andb]; try apply written_processLine_wrapped.
  now rewrite app_nil_r.
Qed.

(** A round that finds a separator writes the record held back, under
    the interior policy, and holds back the record just read. *)
Lemma iteration_terminated fl d st r rest :
  ~ In (delimByte fl) r ->
  unread st = r ++ delimByte fl :: rest ->
  exists st',
    iteration fl d st = Continue st' /\
    unread st' = rest /\
    bufferedLine st' = r /\ hasBufferedLine st' = true /\
    written (sink st') =
      written (sink st) ++
      (match pending st with
       | Some p => Spec.emit_interior fl d p | None => [] end).
Proof.
  intros Hr Hu. unfold iteration. rewrite Hu, ReadBytes_terminated by assumption.
  rewrite cut_terminated. eexists. split; [reflexivity|].
  cbn [unread bufferedLine hasBufferedLine sink].
  repeat split. unfold pending.
  destruct (hasBufferedLine st); [apply interior_write | now rewrite app_nil_r].
Qed.

(** The round that meets the end of the stream writes the record held
    back and the fragment just read, both under the terminal policy, and
    leaves the loop. *)
Lemma iteration_eof fl d st f :
  ~ In (delimByte fl) f ->
  unread st = f ->
  exists st',
    iteration fl d st = Break st' /\
    written (sink st') =
      written (sink st) ++
      (match pending st with
       | Some p => Spec.emit_terminal fl d p | None => [] end)
      ++ Spec.emit_terminal fl d f.
Proof.
  intros Hf Hu. unfold iteration. rewrite Hu, ReadBytes_eof by assumption.
  rewrite cut_fragment by assumption. eexists. split; [reflexivity|].
  cbn [sink]. rewrite fragment_write. unfold pending.
  destruct (hasBufferedLine st).
  - rewrite terminal_write, <- app_assoc. reflexivity.
  - reflexivity.
Qed.

(** ** The whole loop *)

Lemma pending_after st r :
  hasBufferedLine st = true -> bufferedLine st = r -> pending st = Some r.
Proof. unfold pending. now intros -> ->. Qed.

(** From any state, reading the terminated records [rs] and then the
    fragment [f] ends the loop within [length rs + 1] rounds, having
    written what [Spec.drain] tells. *)
Lemma loop_drain fl d rs :
  forall f st fuel,
    Forall (Spec.sep_free (delimByte fl)) rs ->
    Spec.sep_free (delimByte fl) f ->
    unread st = Spec.join (delimByte fl) rs f ->
    (length rs < fuel)%nat ->
    exists st',
      loop fl d fuel st = Some st' /\
      written (sink st') =
        written (sink st) ++ Spec.drain fl d (pending st) rs f.
Proof.
  induction rs as [|r rs IH]; intros f st fuel Hrs Hf Hu Hfuel.
  - destruct fuel as [|fuel]; [simpl in Hfuel; lia|].
    destruct (iteration_eof fl d st f Hf Hu) as (st' & Hit & Hw).
    exists st'. simpl. rewrite Hit. split; [reflexivity|]. exact Hw.
  - destruct fuel as [|fuel]; [simpl in Hfuel; lia|].
    inversion Hrs as [|? ? Hr Hrs']; subst.
    unfold Spec.join in Hu. simpl in Hu. rewrite <- !app_assoc in Hu.
    simpl in Hu.
    destruct (iteration_terminated fl d st r _ Hr Hu)
      as (st1 & Hit & Hu1 & Hb1 & Hh1 & Hw1).
    destruct (IH f st1 fuel Hrs' Hf Hu1) as (st' & Hl & Hw);
      [simpl in Hfuel; lia|].
    exists st'. simpl. rewrite Hit. split; [exact Hl|].
    rewrite Hw, Hw1, (pending_after st1 r Hh1 Hb1), <- app_assoc.
    reflexivity.
Qed.

(** ** Segmentation *)

Lemma split_records_join sep input :
  let '(rs, f) := Spec.split_records sep input in
  input = Spec.join sep rs f /\
  Forall (Spec.sep_free sep) rs /\ Spec.sep_free sep f /\
  (length rs <= length input)%nat.
Proof.
  induction input as [|b input IH]; simpl.
  - repeat split; auto. intros [].
  - destruct (Spec.split_records sep input) as [rs f].
    destruct IH as (Hj & Hrs & Hf & Hlen).
    destruct (b =? sep) eqn:E.
    + prop_of_bool. subst b. repeat split; auto; simpl; try lia.
      * unfold Spec.join in *. simpl.  rewrite <- Hj. reflexivity.
      * constructor; auto. intros [].
    + destruct rs as [|r rs].
      * repeat split; auto; simpl; try lia.
        -- unfold Spec.join in *. simpl in *. rewrite <- Hj. reflexivity.
        -- intros [H|H]; [blia | now apply Hf].
      * inversion Hrs; subst. repeat split; auto; simpl in *; try lia.
        -- constructor; auto. intros [H|H]; [blia | contradiction].
Qed.

Lemma split_records_fragment sep f :
  Spec.sep_free sep f -> Spec.split_records sep f = ([], f).
Proof.
  induction f as [|b f IH]; intros Hf; simpl; [reflexivity|].
  rewrite IH by (intros H; apply Hf; now right).
  destruct (b =? sep) eqn:E; [|reflexivity].
  exfalso. apply Hf. left. blia.
Qed.

Lemma split_records_cons sep r input :
  Spec.sep_free sep r ->
  Spec.split_records sep (r ++ sep :: input) =
  let '(rs, f) := Spec.split_records sep input in (r :: rs, f).
Proof.
  induction r as [|b r IH]; intros Hr; simpl.
  - rewrite Z.eqb_refl. reflexivity.
  - rewrite IH by (intros H; apply Hr; now right).
    destruct (Spec.split_records sep input) as [rs f].
    destruct (b =? sep) eqn:E; [|reflexivity].
    exfalso. apply Hr. left. blia.
Qed.

Lemma split_records_unique sep rs :
  forall f, Forall (Spec.sep_free sep) rs -> Spec.sep_free sep f ->
            Spec.split_records sep (Spec.join sep rs f) = (rs, f).
Proof.
  induction rs as [|r rs IH]; intros f Hrs Hf.
  - apply split_records_fragment, Hf.
  - inversion Hrs as [|? ? Hr Hrs']; subst.
    unfold Spec.join. simpl. rewrite <- !app_assoc. simpl.
    fold (Spec.join sep rs f).
    rewrite split_records_cons, IH by assumption. reflexivity.
Qed.

(** The loop, run on any input, ends within its bound. *)
Lemma run_drain fl d input :
  run fl d input =
  Some (let '(rs, f) := Spec.split_records (delimByte fl) input in
        Spec.drain fl d None rs f).
Proof.
  pose proof (split_records_join (delimByte fl) input) as H.
  destruct (Spec.split_records (delimByte fl) input) as [rs f].
  destruct H as (Hj & Hrs & Hf & Hlen).
  destruct (loop_drain fl d rs f (initial input) (S (length input)) Hrs Hf Hj)
    as (st' & Hl & Hw); [lia|].
  unfold run. rewrite Hl, Hw. reflexivity.
Qed.

Lemma run_join fl d rs f :
  Forall (Spec.sep_free (delimByte fl)) rs ->
  Spec.sep_free (delimByte fl) f ->
  run fl d (Spec.join (delimByte fl) rs f) = Some (Spec.drain fl d None rs f).
Proof.
  intros Hrs Hf. rewrite run_drain, split_records_unique by assumption.
  reflexivity.
Qed.

Lemma main_run fl input :
  main fl input =
  match parseDelimiter (delimiterArg fl) with
  | (_, Some e) => Some (ExitInvalidDelimiter e)
  | (d, None) => option_map ExitOK (run fl d input)
  end.
Proof.
  unfold main, main_fuel, run.
  destruct (parseDelimiter (delimiterArg fl)) as [d [e|]]; [reflexivity|].
  destruct (loop fl d (S (length input)) (initial input)); reflexivity.
Qed.

(** ** Occurrences and [strings.Index] *)

Lemma bytes_eqb_eq a : forall b, bytes_eqb a b = true <-> a = b.
Proof.
  induction a as [|x a IH]; intros [|y b]; simpl; try (split; congruence).
  rewrite andb_true_iff, Z.eqb_eq, IH. split.
  - intros [-> ->]. reflexivity.
  - intros H. inversion H. auto.
Qed.

Lemma bytes_eqb_refl a : bytes_eqb a a = true.
Proof. now apply bytes_eqb_eq. Qed.

Lemma from_from s a b : 0 <= a -> 0 <= b -> from (from s a) b = from s (a + b).
Proof.
  intros Ha Hb. unfold from. rewrite skipn_skipn. f_equal. lia.
Qed.

Lemma len_from s a : 0 <= a <= len s -> len (from s a) = len s - a.
Proof. unfold from, len. intros H. rewrite length_skipn. lia. Qed.

Lemma occurs_at_bound d s k :
  Spec.occurs_at d s k -> d <> [] -> (k + length d <= length s)%nat.
Proof.
  unfold Spec.occurs_at. intros H Hd.
  apply (f_equal (@length _)) in H. rewrite length_firstn, length_skipn in H.
  destruct d; [congruence|]. cbn [length] in *. lia.
Qed.

Lemma occurs_at_split d s k :
  Spec.occurs_at d s k ->
  s = firstn k s ++ d ++ skipn (k + length d) s.
Proof.
  unfold Spec.occurs_at. intros H.
  rewrite <- (firstn_skipn k s) at 1. f_equal.
  rewrite <- (firstn_skipn (length d) (skipn k s)) at 1.
  rewrite H, skipn_skipn. do 2 f_equal. lia.
Qed.

Lemma occurs_at_cons d a s k :
  Spec.occurs_at d (a :: s) (S k) <-> Spec.occurs_at d s k.
Proof. reflexivity. Qed.

Lemma HasPrefix_occurs s d :
  Strings.HasPrefix s d = true <-> Spec.occurs_at d s 0.
Proof.
  unfold Strings.HasPrefix, Spec.occurs_at, slice, len.
  rewrite Z.sub_0_r, Nat2Z.id. simpl skipn.
  rewrite andb_true_iff, bytes_eqb_eq. split.
  - intros [_ H]. exact H.
  - intros H. split; [|exact H].
    apply (f_equal (@length _)) in H. rewrite length_firstn in H.
    apply Z.geb_le. lia.
Qed.

Lemma HasPrefix_app d s : Strings.HasPrefix (d ++ s) d = true.
Proof.
  apply HasPrefix_occurs. unfold Spec.occurs_at. simpl.
  rewrite firstn_app, firstn_all, Nat.sub_diag. simpl. apply app_nil_r.
Qed.

(** [Index] finds the leftmost occurrence, or reports that there is
    none. *)
Lemma Index_spec d s :
  (Strings.Index s d = -1 /\ forall k, ~ Spec.occurs_at d s k) \/
  (0 <= Strings.Index s d /\
   Spec.occurs_at d s (Z.to_nat (Strings.Index s d)) /\
   forall k, (k < Z.to_nat (Strings.Index s d))%nat -> ~ Spec.occurs_at d s k).
Proof.
  induction s as [|a s IH].
  - simpl. destruct (Strings.HasPrefix [] d) eqn:E.
    + right. apply HasPrefix_occurs in E. repeat split; [lia|exact E|].
      simpl. intros k Hk. lia.
    + left. split; [reflexivity|]. intros k Hk.
      assert (Spec.occurs_at d [] 0) as H0
        by (unfold Spec.occurs_at in *; now rewrite skipn_nil in * ).
      apply HasPrefix_occurs in H0. congruence.
  - cbn [Strings.Index]. destruct (Strings.HasPrefix (a :: s) d) eqn:E.
    + right. apply HasPrefix_occurs in E. repeat split; [lia|exact E|].
      simpl. intros k Hk. lia.
    + destruct IH as [[Hi Hno] | (Hi & Hocc & Hmin)].
      * left. rewrite Hi. simpl. split; [reflexivity|].
        intros [|k] Hk.
        -- apply HasPrefix_occurs in Hk. congruence.
        -- apply (Hno k). exact Hk.
      * right. destruct (Strings.Index s d <? 0) eqn:Elt; [blia|].
        replace (Z.to_nat (Strings.Index s d + 1))
          with (S (Z.to_nat (Strings.Index s d))) by lia.
        repeat split; [lia | exact Hocc |].
        intros [|k] Hk Hoc.
        -- apply HasPrefix_occurs in Hoc. congruence.
        -- apply (Hmin k); [lia | exact Hoc].
Qed.

(** ** [strings.ReplaceAll] escapes every occurrence *)

Lemma Count_loop_acc d fuel :
  forall s n, Strings.Count_loop fuel s d n = n + Strings.Count_loop fuel s d 0.
Proof.
  induction fuel as [|fuel IH]; intros s n; simpl; [lia|].
  destruct (Strings.Index s d =? -1); [lia|].
  rewrite (IH _ (n + 1)), (IH _ (0 + 1)). lia.
Qed.

Lemma Count_loop_nonneg d fuel s : 0 <= Strings.Count_loop fuel s d 0.
Proof.
  revert s. induction fuel as [|fuel IH]; intros s; simpl; [lia|].
  destruct (Strings.Index s d =? -1); [lia|].
  rewrite Count_loop_acc. specialize (IH (from s (Strings.Index s d + len d))).
  lia.
Qed.

Lemma app_same_length {A} (p : list A) :
  forall p' q q', length p = length p' -> p ++ q = p' ++ q' ->
                  p = p' /\ q = q'.
Proof.
  induction p as [|x p IH]; intros [|y p'] q q' Hlen Heq;
    simpl in *; try discriminate.
  - auto.
  - inversion Heq; subst. destruct (IH p' q q') as [-> ->]; auto.
Qed.

Section Escaping.

Variable d : bytes.
Hypothesis d_nonempty : d <> [].

Lemma delimiter_len_pos : 0 < len d.
Proof.
  destruct d as [|x l]; [congruence|]. rewrite len_cons.
  pose proof (len_nonneg l). lia.
Qed.

Lemma delimiter_len_eqb : (len d =? 0) = false.
Proof. pose proof delimiter_len_pos. apply Z.eqb_neq. lia. Qed.

(** The replacement loop, run for as many rounds as [Count] found
    occurrences in what is left to read, builds an escaped text. *)
Lemma Replace_loop_Escaped s :
  forall k fuel i start b,
    0 <= start <= len s ->
    (length (from s start) < fuel)%nat ->
    Strings.Count_loop fuel (from s start) d 0 = Z.of_nat k ->
    exists t,
      (let '(b', start') := Strings.Replace_loop k i s d (92 :: d) start b in
       b' ++ from s start') = b ++ t /\
      Spec.Escaped d (from s start) t.
Proof.
  induction k as [|k IH]; intros fuel i start b Hstart Hfuel Hcount.
  - exists (from s start). split; [reflexivity|].
    apply Spec.Escaped_rest.
    destruct fuel as [|fuel]; [lia|]. simpl in Hcount.
    destruct (Index_spec d (from s start)) as [[Hi Hno] | (Hi & _)];
      [exact Hno|].
    destruct (Strings.Index (from s start) d =? -1) eqn:E; [blia|].
    rewrite Count_loop_acc in Hcount.
    pose proof (Count_loop_nonneg d fuel
                  (from (from s start)
                        (Strings.Index (from s start) d + len d))).
    lia.
  - destruct fuel as [|fuel]; [lia|]. simpl in Hcount.
    destruct (Index_spec d (from s start)) as [[Hi Hno] | (Hi & Hocc & Hmin)].
    { rewrite Hi in Hcount. simpl in Hcount. lia. }
    destruct (Strings.Index (from s start) d =? -1) eqn:E; [blia|].
    set (ix := Strings.Index (from s start) d) in *.
    pose proof (occurs_at_bound _ _ _ Hocc d_nonempty) as Hbound.
    assert (Hd : (0 < length d)%nat)
      by (destruct d; [congruence | simpl; lia]).
    pose proof (occurs_at_split _ _ _ Hocc) as Hsplit.
    assert (Hlen : len (from s start) = len s - start) by now apply len_from.
    assert (Hrest : from s (start + ix + len d) =
                    skipn (Z.to_nat ix + length d) (from s start)).
    { rewrite <- Z.add_assoc, <- from_from by (unfold len; lia).
      unfold from at 1. f_equal. unfold len. lia. }
    rewrite Count_loop_acc in Hcount.
    destruct (IH fuel (i + 1) (start + ix + len d)
                 ((b ++ slice s start (start + ix)) ++ 92 :: d))
      as (t & Ht & Hesc).
    + unfold len in *. lia.
    + rewrite Hrest, length_skipn. lia.
    + rewrite from_from in Hcount by (unfold len; lia).
      rewrite Z.add_assoc in Hcount. lia.
    + exists (firstn (Z.to_nat ix) (from s start) ++ 92 :: d ++ t).
      split.
      * cbn [Strings.Replace_loop].
        rewrite delimiter_len_eqb. fold ix. rewrite Ht.
        assert (slice s start (start + ix) =
                firstn (Z.to_nat ix) (from s start)) as ->.
        { unfold slice, from. do 2 f_equal. lia. }
        rewrite <- !app_assoc. reflexivity.
      * rewrite Hsplit at 1. rewrite <- Hrest.
        apply Spec.Escaped_next; [|exact Hesc].
        intros k0 Hk0. rewrite Hrest, <- Hsplit. apply Hmin.
        rewrite length_firstn in Hk0. lia.
Qed.

(** [ReplaceAll(s, d, backslash+d)] is [s] with every occurrence of [d]
    escaped. *)
Lemma ReplaceAll_Escaped s :
  Spec.Escaped d s (Strings.ReplaceAll s d (92 :: d)).
Proof.
  unfold Strings.ReplaceAll, Strings.Replace.
  assert (bytes_eqb d (92 :: d) = false) as ->.
  { destruct (bytes_eqb d (92 :: d)) eqn:E; [|reflexivity].
    apply bytes_eqb_eq in E. apply (f_equal (@length _)) in E.
    simpl in E. lia. }
  cbn [orb Z.eqb].
  unfold Strings.Count.
  rewrite delimiter_len_eqb.
  pose proof (Count_loop_nonneg d (S (length s)) s) as Hnn.
  set (m := Strings.Count_loop (S (length s)) s d 0) in *.
  destruct (Replace_loop_Escaped s (Z.to_nat m) (S (length s)) 0 0 [])
    as (t & Ht & Hesc).
  { pose proof (len_nonneg s). lia. }
  { rewrite from_0. lia. }
  { rewrite from_0. fold m. lia. }
  rewrite from_0 in Hesc.
  destruct (m =? 0) eqn:Em.
  - apply Z.eqb_eq in Em. rewrite Em in Ht. simpl in Ht.
    rewrite from_0 in Ht. rewrite <- Ht in Hesc. exact Hesc.
  - assert (((-1 <? 0) || (m <? -1)) = true) as -> by reflexivity.
    destruct (Strings.Replace_loop (Z.to_nat m) 0 s d (92 :: d) 0 [])
      as [b' start'].
    simpl in Ht. rewrite Ht. exact Hesc.
Qed.

(** The escaped text is determined by the record and the delimiter. *)
Lemma Escaped_functional s t1 :
  Spec.Escaped d s t1 -> forall t2, Spec.Escaped d s t2 -> t1 = t2.
Proof.
  assert (Hhere : forall p s', Spec.occurs_at d (p ++ d ++ s') (length p)).
  { intros p s'. unfold Spec.occurs_at.
    rewrite skipn_app, skipn_all, Nat.sub_diag. simpl.
    rewrite firstn_app, firstn_all, Nat.sub_diag. simpl. apply app_nil_r. }
  induction 1 as [s Hno | p s t Hmin Hesc IH]; intros t2 H2.
  - inversion H2 as [|p' s' t' Hmin' Hesc' Heq]; subst; [reflexivity|].
    exfalso. exact (Hno _ (Hhere p' s')).
  - inversion H2 as [s0 Hno Heq | p' s' t' Hmin' Hesc' Heq]; subst.
    + exfalso. exact (Hno _ (Hhere p s)).
    + assert (Hlen : length p = length p').
      { destruct (Nat.lt_trichotomy (length p) (length p'))
          as [Hlt | [Heq' | Hgt]]; [|exact Heq'|].
        - exfalso. apply (Hmin' _ Hlt). rewrite Heq. apply Hhere.
        - exfalso. apply (Hmin _ Hgt). rewrite <- Heq. apply Hhere. }
      destruct (app_same_length _ _ _ _ Hlen (eq_sym Heq)) as [-> Heq'].
      apply app_inv_head in Heq'.
      subst s'. rewrite (IH t' Hesc'). reflexivity.
Qed.

End Escaping.

(** ** Bit operations as arithmetic *)

Lemma testbit_small m k n : 0 <= m < 2 ^ k -> k <= n -> Z.testbit m n = false.
Proof.
  intros Hm Hn.
  destruct (Z.eq_dec m 0) as [-> | Hne]; [apply Z.testbit_0_l|].
  apply Z.bits_above_log2; [lia|].
  assert (Z.log2 m < k); [|lia].
  apply Z.log2_lt_pow2; lia.
Qed.

(** Or-ing a multiple of [2^k] with a value below [2^k] adds them. *)
Lemma lor_high_low a m k :
  0 <= k -> 0 <= m < 2 ^ k -> Z.lor (a * 2 ^ k) m = a * 2 ^ k + m.
Proof.
  intros Hk Hm.
  assert (Hland : Z.land (a * 2 ^ k) m = 0).
  { apply Z.bits_inj'. intros n Hn.
    rewrite Z.land_spec, Z.testbit_0_l.
    destruct (Z.lt_ge_cases n k) as [Hlt | Hge].
    - rewrite Z.mul_pow2_bits_low by lia. reflexivity.
    - rewrite (testbit_small m k n) by lia. apply andb_false_r. }
  pose proof (Z.add_lor_land (a * 2 ^ k) m). lia.
Qed.

Lemma land_low_bits x k : 0 <= k -> Z.land x (2 ^ k - 1) = x mod 2 ^ k.
Proof.
  intros Hk. rewrite <- Z.land_ones by lia. f_equal.
  rewrite Z.ones_equiv. lia.
Qed.

(** [c | 0x20] sets one bit: it is [c] or [c + 32]. *)
Lemma lower_cases c :
  (strconv.lower c = c /\ Z.testbit c 5 = true) \/
  (strconv.lower c = c + 32 /\ Z.testbit c 5 = false).
Proof.
  unfold strconv.lower.
  assert (Hland : Z.land c 32 = if Z.testbit c 5 then 32 else 0).
  { apply Z.bits_inj'. intros n Hn. rewrite Z.land_spec.
    change 32 with (2 ^ 5) at 1. rewrite Z.pow2_bits_eqb by lia.
    destruct (Z.eqb_spec 5 n) as [<- | Hne].
    - destruct (Z.testbit c 5); reflexivity.
    - rewrite andb_false_r.
      destruct (Z.testbit c 5); [|now rewrite Z.testbit_0_l].
      change 32 with (2 ^ 5). rewrite Z.pow2_bits_eqb by lia.
      symmetry. apply Z.eqb_neq. exact Hne. }
  pose proof (Z.add_lor_land c 32) as H. rewrite Hland in H.
  destruct (Z.testbit c 5); [left | right]; split; auto; lia.
Qed.

(** ** [strconv.ParseInt] in base 16 reads a base-16 integer *)

Lemma hex_digit_range c v : Spec.hex_digit c = Some v -> 0 <= v < 16.
Proof.
  unfold Spec.hex_digit.
  destruct ((0x30 <=? c) && (c <=? 0x39)) eqn:E1;
    [intros [= <-]; blia|].
  destruct ((0x61 <=? c) && (c <=? 0x66)) eqn:E2;
    [intros [= <-]; blia|].
  destruct ((0x41 <=? c) && (c <=? 0x46)) eqn:E3;
    [intros [= <-]; blia | discriminate].
Qed.

Lemma digits_value_ge cs :
  forall n v, 0 <= n -> Spec.digits_value cs n = Some v -> n <= v.
Proof.
  induction cs as [|c cs IH]; intros n v Hn; cbn [Spec.digits_value].
  - intros [= <-]. lia.
  - destruct (Spec.hex_digit c) as [x|] eqn:E; [|discriminate].
    pose proof (hex_digit_range _ _ E) as Hx. intros Hv.
    apply IH in Hv; lia.
Qed.

(** The digit read by [ParseUint] in base 16 is the hexadecimal digit. *)
Lemma ParseUint_digit c :
  match Spec.hex_digit c with
  | Some v =>
      (if (0x30 <=? c) && (c <=? 0x39) then Some (c - 0x30)
       else if (0x61 <=? strconv.lower c) && (strconv.lower c <=? 0x7A)
            then Some (uint8 (strconv.lower c - 0x61 + 10))
            else None) = Some v
  | None =>
      match (if (0x30 <=? c) && (c <=? 0x39) then Some (c - 0x30)
             else if (0x61 <=? strconv.lower c) && (strconv.lower c <=? 0x7A)
                  then Some (uint8 (strconv.lower c - 0x61 + 10))
                  else None) with
      | Some d => (d >=? uint8 16) = true
      | None => True
      end
  end.
Proof.
  unfold Spec.hex_digit.
  destruct ((0x30 <=? c) && (c <=? 0x39)) eqn:E1; [reflexivity|].
  assert (Hbit : forall x, 0x61 <= x <= 0x7A -> Z.testbit x 5 = true).
  { intros x Hx.
    assert (Hc : x = 0x60 + (x - 0x60)) by lia.
    rewrite Hc. change 0x60 with (3 * 2 ^ 5).
    rewrite <- lor_high_low by lia.
    rewrite Z.lor_spec, Z.mul_pow2_bits by lia.
    reflexivity. }
  assert (Hnobit : forall x, 0x41 <= x <= 0x5A -> Z.testbit x 5 = false).
  { intros x Hx.
    assert (Hc : x = 0x40 + (x - 0x40)) by lia.
    rewrite Hc. change 0x40 with (1 * 2 ^ 6).
    rewrite <- lor_high_low by lia.
    rewrite Z.lor_spec, Z.mul_pow2_bits_low by lia.
    apply (testbit_small _ 5); lia. }
  unfold uint8.
  destruct (lower_cases c) as [[Hl Hb] | [Hl Hb]]; rewrite Hl.
  - (* bit 5 set: [lower c = c] *)
    destruct ((0x61 <=? c) && (c <=? 0x66)) eqn:E2.
    + prop_of_bool.
      destruct ((0x61 <=? c) && (c <=? 0x7A)) eqn:E3;
        [|apply andb_false_iff in E3; destruct E3; blia].
      rewrite Z.mod_small by lia. reflexivity.
    + destruct ((0x41 <=? c) && (c <=? 0x46)) eqn:E3.
      { prop_of_bool. rewrite Hnobit in Hb by lia. discriminate. }
      destruct ((0x61 <=? c) && (c <=? 0x7A)) eqn:E4; [|exact I].
      prop_of_bool. rewrite Z.mod_small by lia.
      apply andb_false_iff in E2. rewrite Z.geb_leb. apply Z.leb_le.
      change (16 mod 256) with 16. destruct E2; blia.
  - (* bit 5 clear: [lower c = c + 32] *)
    destruct ((0x61 <=? c) && (c <=? 0x66)) eqn:E2.
    { prop_of_bool. rewrite Hbit in Hb by lia. discriminate. }
    destruct ((0x41 <=? c) && (c <=? 0x46)) eqn:E3.
    + prop_of_bool.
      destruct ((0x61 <=? c + 32) && (c + 32 <=? 0x7A)) eqn:E4;
        [|apply andb_false_iff in E4; destruct E4; blia].
      rewrite Z.mod_small by lia. f_equal. lia.
    + destruct ((0x61 <=? c + 32) && (c + 32 <=? 0x7A)) eqn:E4; [|exact I].
      prop_of_bool. rewrite Z.mod_small by lia.
      apply andb_false_iff in E3. rewrite Z.geb_leb. apply Z.leb_le.
      change (16 mod 256) with 16. destruct E3; blia.
Qed.

(** The digit loop, for base 16 and 32 bits: the value of the digits when
    it fits in 32 bits, a range error when it does not, an error when
    some byte is not a hexadecimal digit. *)
Lemma ParseUint_loop_spec s0 cs :
  forall n, 0 <= n <= 2 ^ 32 - 1 ->
    match Spec.digits_value cs n with
    | Some v =>
        strconv.ParseUint_loop s0 16 (strconv.maxUint64 / 16 + 1)
                               (2 ^ 32 - 1) cs n =
        if v <=? 2 ^ 32 - 1 then (v, None)
        else (2 ^ 32 - 1, Some (strconv.rangeError "ParseUint" s0))
    | None =>
        exists r e,
          strconv.ParseUint_loop s0 16 (strconv.maxUint64 / 16 + 1)
                                 (2 ^ 32 - 1) cs n = (r, Some e) /\
          (strconv.Err e = strconv.ErrRange -> r = 2 ^ 32 - 1)
    end.
Proof.
  induction cs as [|c cs IH]; intros n Hn;
    cbn [Spec.digits_value strconv.ParseUint_loop].
  - destruct (n <=? 2 ^ 32 - 1) eqn:E; [reflexivity | blia].
  - pose proof (ParseUint_digit c) as Hd.
    destruct (Spec.hex_digit c) as [x|] eqn:Ex.
    + rewrite Hd. pose proof (hex_digit_range _ _ Ex) as Hx.
      change (uint8 16) with 16.
      destruct (x >=? 16) eqn:E16; [blia|].
      change (strconv.maxUint64 / 16 + 1) with (2 ^ 60).
      destruct (n >=? 2 ^ 60) eqn:E60; [blia|].
      unfold uint64. rewrite (Z.mod_small (n * 16)) by lia.
      rewrite (Z.mod_small (n * 16 + x)) by lia.
      destruct (n * 16 + x <? n * 16) eqn:Elt; [blia|]. cbn [orb].
      replace (16 * n + x) with (n * 16 + x) by lia.
      destruct (2 ^ 32 - 1 <? n * 16 + x) eqn:Emax.
      * destruct (Spec.digits_value cs (n * 16 + x)) as [v|] eqn:Ev.
        -- apply digits_value_ge in Ev; [|lia].
           destruct (v <=? 2 ^ 32 - 1) eqn:E; [blia | reflexivity].
        -- eexists _, _. split; [reflexivity | reflexivity].
      * apply IH. blia.
    + destruct (if (48 <=? c) && (c <=? 57) then Some (c - 48)
                else if (97 <=? strconv.lower c) && (strconv.lower c <=? 122)
                     then Some (uint8 (strconv.lower c - 97 + 10))
                     else None) as [dg|].
      * rewrite Hd. eexists _, _. split; [reflexivity | discriminate].
      * eexists _, _. split; [reflexivity | discriminate].
Qed.

Lemma ParseUint_spec cs :
  match Spec.unsigned_value cs with
  | Some v =>
      0 <= v /\
      strconv.ParseUint cs 16 32 =
      if v <=? 2 ^ 32 - 1 then (v, None)
      else (2 ^ 32 - 1, Some (strconv.rangeError "ParseUint" cs))
  | None =>
      exists r e,
        strconv.ParseUint cs 16 32 = (r, Some e) /\
        (strconv.Err e = strconv.ErrRange -> r = 2 ^ 32 - 1)
  end.
Proof.
  unfold Spec.unsigned_value, strconv.ParseUint.
  destruct cs as [|c cs].
  - eexists _, _. split; [reflexivity | discriminate].
  - assert ((len (c :: cs) =? 0) = false) as ->.
    { rewrite len_cons. pose proof (len_nonneg cs). apply Z.eqb_neq. lia. }
    change (uint64 (Z.shiftl 1 32) - 1) with (2 ^ 32 - 1).
    pose proof (ParseUint_loop_spec (c :: cs) (c :: cs) 0) as H.
    destruct (Spec.digits_value (c :: cs) 0) as [v|] eqn:Ev.
    + split; [apply digits_value_ge in Ev; lia | apply H; lia].
    + apply H. lia.
Qed.

(** What [ParseInt] does after the sign is taken off. *)
Lemma ParseInt_signed (neg : bool) s0 cs :
  let r :=
    let '(un, err) := strconv.ParseUint cs 16 32 in
    let checked :=
      let cutoff := uint64 (Z.shiftl 1 (32 - 1)) in
      if negb neg && (un >=? cutoff)
      then (int64 (cutoff - 1), Some (strconv.rangeError "ParseInt" s0))
      else if neg && (cutoff <? un)
      then (- int64 cutoff, Some (strconv.rangeError "ParseInt" s0))
      else
        let n := int64 un in
        let n := if neg then int64 (- n) else n in
        (n, None) in
    match err with
    | Some e =>
        match strconv.Err e with
        | strconv.ErrRange => checked
        | strconv.ErrSyntax =>
            (0, Some {| strconv.Func := "ParseInt"; strconv.Num := s0;
                        strconv.Err := strconv.Err e |})
        end
    | None => checked
    end in
  match option_map (fun v => if neg then - v else v)
                   (Spec.unsigned_value cs) with
  | Some v => if Spec.fits_int32 v then r = (v, None)
              else exists x e, r = (x, Some e)
  | None => exists x e, r = (x, Some e)
  end.
Proof.
  cbv zeta. change (uint64 (Z.shiftl 1 (32 - 1))) with (2 ^ 31).
  pose proof (ParseUint_spec cs) as H.
  destruct (Spec.unsigned_value cs) as [v|]; cbn [option_map].
  - destruct H as [Hv H]. rewrite H. unfold Spec.fits_int32.
    destruct (v <=? 2 ^ 32 - 1) eqn:E32.
    + destruct neg; cbn [negb andb].
      * destruct (2 ^ 31 <? v) eqn:E31.
        -- assert ((- 2 ^ 31 <=? - v) && (- v <? 2 ^ 31) = false) as ->
             by (apply andb_false_iff; left; apply Z.leb_gt; blia).
           eexists _, _. reflexivity.
        -- assert ((- 2 ^ 31 <=? - v) && (- v <? 2 ^ 31) = true) as ->
             by (apply andb_true_iff; split;
                 [apply Z.leb_le | apply Z.ltb_lt]; blia).
           unfold int64. prop_of_bool.
           rewrite (Z.mod_small (v + 2 ^ 63)) by lia.
           replace (- (v + 2 ^ 63 - 2 ^ 63) + 2 ^ 63) with (2 ^ 63 - v) by lia.
           rewrite Z.mod_small by lia. f_equal. lia.
      * destruct (v >=? 2 ^ 31) eqn:E31.
        -- assert ((- 2 ^ 31 <=? v) && (v <? 2 ^ 31) = false) as ->
             by (apply andb_false_iff; right; apply Z.ltb_ge; blia).
           eexists _, _. reflexivity.
        -- assert ((- 2 ^ 31 <=? v) && (v <? 2 ^ 31) = true) as ->
             by (apply andb_true_iff; split;
                 [apply Z.leb_le | apply Z.ltb_lt]; blia).
           unfold int64. prop_of_bool.
           rewrite (Z.mod_small (v + 2 ^ 63)) by lia. f_equal. lia.
    + cbn [strconv.Err strconv.rangeError].
      assert (fits : (if neg then - v else v) < - 2 ^ 31 \/
                     2 ^ 31 <= (if neg then - v else v))
        by (destruct neg; blia).
      assert (((- 2 ^ 31 <=? (if neg then - v else v)) &&
               ((if neg then - v else v) <? 2 ^ 31)) = false) as ->.
      { apply andb_false_iff. destruct fits; [left | right];
          [apply Z.leb_gt | apply Z.ltb_ge]; lia. }
      destruct neg; cbn [negb andb]; eexists _, _; reflexivity.
  - destruct H as (r & e & He & Hr). rewrite He.
    destruct (strconv.Err e) eqn:Ee.
    + eexists _, _. reflexivity.
    + rewrite (Hr eq_refl).
      destruct neg; cbn [negb andb]; eexists _, _; reflexivity.
Qed.

(** [ParseInt(s, 16, 32)] succeeds exactly on the texts that denote a
    base-16 integer in the signed 32-bit range, and returns it. *)
Lemma ParseInt_spec s :
  match Spec.base16_value s with
  | Some v => if Spec.fits_int32 v then strconv.ParseInt s 16 32 = (v, None)
              else exists x e, strconv.ParseInt s 16 32 = (x, Some e)
  | None => exists x e, strconv.ParseInt s 16 32 = (x, Some e)
  end.
Proof.
  destruct s as [|c cs].
  - eexists _, _. reflexivity.
  - unfold Spec.base16_value, strconv.ParseInt.
    assert ((len (c :: cs) =? 0) = false) as ->.
    { rewrite len_cons. pose proof (len_nonneg cs). apply Z.eqb_neq. lia. }
    change (at_ (c :: cs) 0) with c.
    change (from (c :: cs) 1) with cs.
    destruct (c =? 43) eqn:Eplus.
    + pose proof (ParseInt_signed false (c :: cs) cs) as H.
      destruct (Spec.unsigned_value cs); exact H.
    + destruct (c =? 45) eqn:Eminus.
      * pose proof (ParseInt_signed true (c :: cs) cs) as H.
        destruct (Spec.unsigned_value cs); exact H.
      * pose proof (ParseInt_signed false (c :: cs) (c :: cs)) as H.
        destruct (Spec.unsigned_value (c :: cs)); exact H.
Qed.

(** ** The conversion [string(rune)] writes UTF-8 *)

Lemma uint8_small x : 0 <= x < 256 -> uint8 x = x.
Proof. intros H. unfold uint8. now rewrite Z.mod_small. Qed.

Lemma lead2 x : 0 <= x < 32 -> Z.lor utf8.t2 (uint8 x) = 0xC0 + x.
Proof.
  intros H. rewrite uint8_small by lia.
  change utf8.t2 with (3 * 2 ^ 6). now rewrite lor_high_low by lia.
Qed.

Lemma lead3 x : 0 <= x < 16 -> Z.lor utf8.t3 (uint8 x) = 0xE0 + x.
Proof.
  intros H. rewrite uint8_small by lia.
  change utf8.t3 with (14 * 2 ^ 4). now rewrite lor_high_low by lia.
Qed.

Lemma lead4 x : 0 <= x < 8 -> Z.lor utf8.t4 (uint8 x) = 0xF0 + x.
Proof.
  intros H. rewrite uint8_small by lia.
  change utf8.t4 with (30 * 2 ^ 3). now rewrite lor_high_low by lia.
Qed.

Lemma continuation x :
  Z.lor utf8.tx (Z.land (uint8 x) utf8.maskx) = 0x80 + x mod 64.
Proof.
  change utf8.maskx with (2 ^ 6 - 1). rewrite land_low_bits by lia.
  assert (uint8 x mod 2 ^ 6 = x mod 64) as ->.
  { unfold uint8. change (2 ^ 6) with 64.
    apply Z.mod_mod_divide. exists 4. reflexivity. }
  change utf8.tx with (2 * 2 ^ 6). rewrite lor_high_low; [reflexivity|lia|].
  apply Z.mod_pos_bound. lia.
Qed.

(** Within the code space, [string(rune(v))] is the UTF-8 text of [v],
    except that a surrogate is replaced by U+FFFD. *)
Lemma string_of_rune_text v :
  0 <= v <= 0x10FFFF ->
  string_of_rune (int32 v) =
  Spec.code_point_text (if Spec.is_surrogate v then 0xFFFD else v).
Proof.
  intros Hv. unfold Spec.is_surrogate.
  assert (int32 v = v) as ->
    by (unfold int32; rewrite Z.mod_small by lia; lia).
  unfold string_of_rune, utf8.encoderune.
  assert (uint32 v = v) as -> by (unfold uint32; apply Z.mod_small; lia).
  change utf8.rune1Max with 127. change utf8.rune2Max with 2047.
  change utf8.rune3Max with 65535. change utf8.MaxRune with 0x10FFFF.
  change utf8.surrogateMin with 0xD800. change utf8.surrogateMax with 0xDFFF.
  unfold Spec.code_point_text.
  destruct (v <=? 127) eqn:E1.
  { prop_of_bool.
    assert ((0xD800 <=? v) && (v <=? 0xDFFF) = false) as ->
      by (apply andb_false_iff; left; apply Z.leb_gt; lia).
    destruct (v <? 128) eqn:E; [|blia]. now rewrite uint8_small by lia. }
  destruct (v <=? 2047) eqn:E2.
  { prop_of_bool.
    assert ((0xD800 <=? v) && (v <=? 0xDFFF) = false) as ->
      by (apply andb_false_iff; left; apply Z.leb_gt; lia).
    destruct (v <? 128) eqn:E; [blia|].
    destruct (v <? 2048) eqn:E'; [|blia].
    rewrite Z.shiftr_div_pow2 by lia. change (2 ^ 6) with 64.
    rewrite lead2, continuation; [reflexivity|].
    split; [apply Z.div_pos; lia | apply Z.div_lt_upper_bound; lia]. }
  destruct (1114111 <? v) eqn:E3; [blia|]. cbn [orb].
  destruct ((0xD800 <=? v) && (v <=? 0xDFFF)) eqn:Es; [reflexivity|].
  destruct (v <? 128) eqn:E; [blia|].
  destruct (v <? 2048) eqn:E'; [blia|].
  destruct (v <=? 65535) eqn:E4.
  { destruct (v <? 65536) eqn:E5; [|blia]. prop_of_bool.
    rewrite !Z.shiftr_div_pow2 by lia.
    change (2 ^ 6) with 64. change (2 ^ 12) with 4096.
    rewrite lead3, !continuation; [reflexivity|].
    split; [apply Z.div_pos; lia | apply Z.div_lt_upper_bound; lia]. }
  destruct (v <? 65536) eqn:E5; [blia|]. prop_of_bool.
  rewrite !Z.shiftr_div_pow2 by lia.
  change (2 ^ 6) with 64. change (2 ^ 12) with 4096.
  change (2 ^ 18) with 262144.
  rewrite lead4, !continuation; [reflexivity|].
  split; [apply Z.div_pos; lia | apply Z.div_lt_upper_bound; lia].
Qed.

(** ** The delimiter resolver *)

Lemma parseDelimiter_prefixed s :
  parseDelimiter (B "0x" ++ s) =
  match strconv.ParseInt s 16 32 with
  | (_, Some e) => ([], Some (InvalidHexValue (B "0x" ++ s) e))
  | (value, None) =>
      if (value <? 0) || (0x10FFFF <? value)
      then ([], Some (OutOfUnicodeRange (B "0x" ++ s)))
      else (string_of_rune (int32 value), None)
  end.
Proof.
  unfold parseDelimiter. rewrite HasPrefix_app.
  change 2 with (len (B "0x")). rewrite from_len_app.
  destruct (strconv.ParseInt s 16 32) as [value [e|]]; reflexivity.
Qed.

Lemma HasPrefix_true s d :
  Strings.HasPrefix s d = true -> exists rest, s = d ++ rest.
Proof.
  intros H. apply HasPrefix_occurs, occurs_at_split in H.
  simpl in H. eexists. exact H.
Qed.

Lemma parseDelimiter_literal arg :
  Strings.HasPrefix arg (B "0x") = false -> parseDelimiter arg = (arg, None).
Proof. unfold parseDelimiter. now intros ->. Qed.

(** What the resolver returns on a token [0x]+[s], told from the base-16
    reading of [s]. *)
Lemma parseDelimiter_hex s :
  parseDelimiter (B "0x" ++ s) =
  match Spec.base16_value s with
  | Some v =>
      if Spec.fits_int32 v then
        if (v <? 0) || (0x10FFFF <? v)
        then ([], Some (OutOfUnicodeRange (B "0x" ++ s)))
        else (Spec.code_point_text (if Spec.is_surrogate v then 0xFFFD else v),
              None)
      else ([], Some (InvalidHexValue (B "0x" ++ s)
                        (match snd (strconv.ParseInt s 16 32) with
                         | Some e => e
                         | None => strconv.syntaxError "" []
                         end)))
  | None => ([], Some (InvalidHexValue (B "0x" ++ s)
                        (match snd (strconv.ParseInt s 16 32) with
                         | Some e => e
                         | None => strconv.syntaxError "" []
                         end)))
  end.
Proof.
  rewrite parseDelimiter_prefixed.
  pose proof (ParseInt_spec s) as H.
  destruct (Spec.base16_value s) as [v|].
  - destruct (Spec.fits_int32 v) eqn:Ef.
    + rewrite H. destruct ((v <? 0) || (0x10FFFF <? v)) eqn:Er; [reflexivity|].
      rewrite string_of_rune_text by blia. reflexivity.
    + destruct H as (x & e & ->). reflexivity.
  - destruct H as (x & e & ->). reflexivity.
Qed.

(** ** [utf8.DecodeRune] reads back the text of a code point *)

Lemma land_add_low a k x :
  0 <= k -> 0 <= x < 2 ^ k -> Z.land (a * 2 ^ k + x) (2 ^ k - 1) = x.
Proof.
  intros Hk Hx. rewrite land_low_bits by lia.
  rewrite Z.add_comm, Z.mod_add by lia. apply Z.mod_small. lia.
Qed.

Lemma first_ascii b : b < 0x80 -> utf8.first b = utf8.as_.
Proof. intros H. unfold utf8.first. destruct (b <? 128) eqn:E; [reflexivity | blia]. Qed.

Ltac pick_first :=
  unfold utf8.first;
  repeat match goal with
         | |- context [if ?c then _ else _] =>
             let E := fresh "E" in destruct c eqn:E; try blia
         end;
  try reflexivity.

Lemma first_s1 b : 0xC2 <= b <= 0xDF -> utf8.first b = utf8.s1.
Proof. intros H. pick_first. Qed.

Lemma first_s3_low b : 0xE1 <= b <= 0xEC -> utf8.first b = utf8.s3.
Proof. intros H. pick_first. Qed.

Lemma first_s3_high b : 0xEE <= b <= 0xEF -> utf8.first b = utf8.s3.
Proof. intros H. pick_first. Qed.

Lemma first_s6 b : 0xF1 <= b <= 0xF3 -> utf8.first b = utf8.s6.
Proof. intros H. pick_first. Qed.

(** The second byte is checked against the range the first byte selects. *)
Lemma in_range lo hi b : lo <= b <= hi -> ((b <? lo) || (hi <? b)) = false.
Proof.
  intros H. apply orb_false_iff. split; apply Z.ltb_ge; lia.
Qed.

Lemma len_ge_false s n k :
  k <= n -> (len s + n <? k) = false.
Proof. intros H. pose proof (len_nonneg s). apply Z.ltb_ge. lia. Qed.

Lemma DecodeRune_1 v s :
  0 <= v < 0x80 -> utf8.DecodeRune (v :: s) = (v, 1).
Proof.
  intros Hv. unfold utf8.DecodeRune. cbv zeta.
  rewrite len_cons, (len_ge_false s 1 1) by lia.
  change (at_ (v :: s) 0) with v. rewrite first_ascii by lia.
  change (utf8.as_ >=? utf8.as_) with true. cbv iota.
  change (Z.shiftr (int32 (Z.shiftl utf8.as_ 31)) 31) with 0.
  change (Z.lnot 0) with (-1). rewrite Z.land_m1_r.
  change (Z.land utf8.RuneError 0) with 0. now rewrite Z.lor_0_r.
Qed.

Lemma DecodeRune_2 q m s :
  2 <= q < 32 -> 0 <= m < 64 ->
  utf8.DecodeRune (0xC0 + q :: 0x80 + m :: s) = (q * 64 + m, 2).
Proof.
  intros Hq Hm. unfold utf8.DecodeRune. cbv zeta.
  rewrite !len_cons, <- Z.add_assoc, (len_ge_false s (1 + 1) 1) by lia.
  change (at_ (0xC0 + q :: 0x80 + m :: s) 0) with (0xC0 + q).
  change (at_ (0xC0 + q :: 0x80 + m :: s) 1) with (0x80 + m).
  rewrite first_s1 by lia.
  change (utf8.s1 >=? utf8.as_) with false. cbv iota.
  change (Z.land utf8.s1 7) with 2.
  rewrite (len_ge_false s (1 + 1) 2) by lia.
  change (utf8.acceptRanges (Z.shiftr utf8.s1 4))
    with {| utf8.lo := 0x80; utf8.hi := 0xBF |}.
  cbn [utf8.lo utf8.hi]. rewrite in_range by lia.
  change (2 <=? 2) with true. cbv iota.
  change utf8.mask2 with (2 ^ 5 - 1). change utf8.maskx with (2 ^ 6 - 1).
  change 0xC0 with (6 * 2 ^ 5). rewrite land_add_low by lia.
  change 0x80 with (2 * 2 ^ 6). rewrite land_add_low by lia.
  rewrite Z.shiftl_mul_pow2, lor_high_low by lia. reflexivity.
Qed.

Lemma DecodeRune_3 q m1 m0 s :
  0 <= q < 16 -> 0 <= m1 < 64 -> 0 <= m0 < 64 ->
  (q = 0 -> 32 <= m1) -> (q = 13 -> m1 < 32) ->
  utf8.DecodeRune (0xE0 + q :: 0x80 + m1 :: 0x80 + m0 :: s) =
  (q * 4096 + m1 * 64 + m0, 3).
Proof.
  intros Hq Hm1 Hm0 Hlow Hhigh.
  assert (Hfirst :
    (utf8.first (0xE0 + q) >=? utf8.as_) = false /\
    Z.land (utf8.first (0xE0 + q)) 7 = 3 /\
    ((0x80 + m1 <?
      utf8.lo (utf8.acceptRanges (Z.shiftr (utf8.first (0xE0 + q)) 4)))
     || (utf8.hi (utf8.acceptRanges (Z.shiftr (utf8.first (0xE0 + q)) 4))
         <? 0x80 + m1)) = false).
  { assert (Hcases : q = 0 \/ 1 <= q <= 12 \/ q = 13 \/ 14 <= q <= 15) by lia.
    destruct Hcases as [-> | [Hc | [-> | Hc]]].
    - change (utf8.first (224 + 0)) with utf8.s2.
      repeat split; try reflexivity.
      change (utf8.acceptRanges (Z.shiftr utf8.s2 4))
        with {| utf8.lo := 0xA0; utf8.hi := 0xBF |}.
      cbn [utf8.lo utf8.hi]. apply in_range. specialize (Hlow eq_refl). lia.
    - rewrite first_s3_low by lia. repeat split; try reflexivity.
      change (utf8.acceptRanges (Z.shiftr utf8.s3 4))
        with {| utf8.lo := 0x80; utf8.hi := 0xBF |}.
      cbn [utf8.lo utf8.hi]. apply in_range. lia.
    - change (utf8.first (224 + 13)) with utf8.s4.
      repeat split; try reflexivity.
      change (utf8.acceptRanges (Z.shiftr utf8.s4 4))
        with {| utf8.lo := 0x80; utf8.hi := 0x9F |}.
      cbn [utf8.lo utf8.hi]. apply in_range. specialize (Hhigh eq_refl). lia.
    - rewrite first_s3_high by lia. repeat split; try reflexivity.
      change (utf8.acceptRanges (Z.shiftr utf8.s3 4))
        with {| utf8.lo := 0x80; utf8.hi := 0xBF |}.
      cbn [utf8.lo utf8.hi]. apply in_range. lia. }
  destruct Hfirst as (Has & Hsz & Hacc).
  unfold utf8.DecodeRune. cbv zeta.
  rewrite !len_cons, <- !Z.add_assoc, (len_ge_false s (1 + (1 + 1)) 1) by lia.
  change (at_ (0xE0 + q :: 0x80 + m1 :: 0x80 + m0 :: s) 0) with (0xE0 + q).
  change (at_ (0xE0 + q :: 0x80 + m1 :: 0x80 + m0 :: s) 1) with (0x80 + m1).
  change (at_ (0xE0 + q :: 0x80 + m1 :: 0x80 + m0 :: s) 2) with (0x80 + m0).
  rewrite Has, Hsz, Hacc, (len_ge_false s (1 + (1 + 1)) 3) by lia.
  change (3 <=? 2) with false. change (3 <=? 3) with true. cbv iota.
  change utf8.locb with 0x80. change utf8.hicb with 0xBF.
  rewrite in_range by lia.
  change utf8.mask3 with (2 ^ 4 - 1). change utf8.maskx with (2 ^ 6 - 1).
  change 0xE0 with (14 * 2 ^ 4). rewrite land_add_low by lia.
  change 0x80 with (2 * 2 ^ 6). rewrite !land_add_low by lia.
  rewrite !Z.shiftl_mul_pow2 by lia.
  replace (m1 * 2 ^ 6) with (m1 * 64) by lia.
  rewrite (lor_high_low q (m1 * 64) 12) by lia.
  replace (q * 2 ^ 12 + m1 * 64) with ((q * 64 + m1) * 2 ^ 6) by lia.
  rewrite lor_high_low by lia. f_equal. lia.
Qed.

Lemma DecodeRune_4 q m2 m1 m0 s :
  0 <= q <= 4 -> 0 <= m2 < 64 -> 0 <= m1 < 64 -> 0 <= m0 < 64 ->
  (q = 0 -> 16 <= m2) -> (q = 4 -> m2 < 16) ->
  utf8.DecodeRune (0xF0 + q :: 0x80 + m2 :: 0x80 + m1 :: 0x80 + m0 :: s) =
  (q * 262144 + m2 * 4096 + m1 * 64 + m0, 4).
Proof.
  intros Hq Hm2 Hm1 Hm0 Hlow Hhigh.
  assert (Hfirst :
    (utf8.first (0xF0 + q) >=? utf8.as_) = false /\
    Z.land (utf8.first (0xF0 + q)) 7 = 4 /\
    ((0x80 + m2 <?
      utf8.lo (utf8.acceptRanges (Z.shiftr (utf8.first (0xF0 + q)) 4)))
     || (utf8.hi (utf8.acceptRanges (Z.shiftr (utf8.first (0xF0 + q)) 4))
         <? 0x80 + m2)) = false).
  { assert (Hcases : q = 0 \/ 1 <= q <= 3 \/ q = 4) by lia.
    destruct Hcases as [-> | [Hc | ->]].
    - change (utf8.first (240 + 0)) with utf8.s5.
      repeat split; try reflexivity.
      change (utf8.acceptRanges (Z.shiftr utf8.s5 4))
        with {| utf8.lo := 0x90; utf8.hi := 0xBF |}.
      cbn [utf8.lo utf8.hi]. apply in_range. specialize (Hlow eq_refl). lia.
    - rewrite first_s6 by lia. repeat split; try reflexivity.
      change (utf8.acceptRanges (Z.shiftr utf8.s6 4))
        with {| utf8.lo := 0x80; utf8.hi := 0xBF |}.
      cbn [utf8.lo utf8.hi]. apply in_range. lia.
    - change (utf8.first (240 + 4)) with utf8.s7.
      repeat split; try reflexivity.
      change (utf8.acceptRanges (Z.shiftr utf8.s7 4))
        with {| utf8.lo := 0x80; utf8.hi := 0x8F |}.
      cbn [utf8.lo utf8.hi]. apply in_range. specialize (Hhigh eq_refl). lia. }
  destruct Hfirst as (Has & Hsz & Hacc).
  unfold utf8.DecodeRune. cbv zeta.
  rewrite !len_cons, <- !Z.add_assoc,
    (len_ge_false s (1 + (1 + (1 + 1))) 1) by lia.
  change (at_ (0xF0 + q :: 0x80 + m2 :: 0x80 + m1 :: 0x80 + m0 :: s) 0)
    with (0xF0 + q).
  change (at_ (0xF0 + q :: 0x80 + m2 :: 0x80 + m1 :: 0x80 + m0 :: s) 1)
    with (0x80 + m2).
  change (at_ (0xF0 + q :: 0x80 + m2 :: 0x80 + m1 :: 0x80 + m0 :: s) 2)
    with (0x80 + m1).
  change (at_ (0xF0 + q :: 0x80 + m2 :: 0x80 + m1 :: 0x80 + m0 :: s) 3)
    with (0x80 + m0).
  rewrite Has, Hsz, Hacc, (len_ge_false s (1 + (1 + (1 + 1))) 4) by lia.
  change (4 <=? 2) with false. change (4 <=? 3) with false. cbv iota.
  change utf8.locb with 0x80. change utf8.hicb with 0xBF.
  rewrite !in_range by lia.
  change utf8.mask4 with (2 ^ 3 - 1). change utf8.maskx with (2 ^ 6 - 1).
  change 0xF0 with (30 * 2 ^ 3). rewrite land_add_low by lia.
  change 0x80 with (2 * 2 ^ 6). rewrite !land_add_low by lia.
  rewrite !Z.shiftl_mul_pow2 by lia.
  replace (m2 * 2 ^ 12) with (m2 * 4096) by lia.
  rewrite (lor_high_low q (m2 * 4096) 18) by lia.
  replace (q * 2 ^ 18 + m2 * 4096) with ((q * 64 + m2) * 2 ^ 12) by lia.
  replace (m1 * 2 ^ 6) with (m1 * 64) by lia.
  rewrite (lor_high_low (q * 64 + m2) (m1 * 64) 12) by lia.
  replace ((q * 64 + m2) * 2 ^ 12 + m1 * 64)
    with (((q * 64 + m2) * 64 + m1) * 2 ^ 6) by lia.
  rewrite lor_high_low by lia. f_equal. lia.
Qed.

(** Decoding the UTF-8 text of a code point that is no surrogate gives
    the code point back, and the width of its text, whatever follows. *)
Lemma DecodeRune_text v s :
  0 <= v <= 0x10FFFF -> Spec.is_surrogate v = false ->
  utf8.DecodeRune (Spec.code_point_text v ++ s) =
  (v, len (Spec.code_point_text v)).
Proof.
  intros Hv Hs. unfold Spec.is_surrogate in Hs. unfold Spec.code_point_text.
  assert (H64 : v = 64 * (v / 64) + v mod 64) by (apply Z.div_mod; lia).
  assert (Hm0 : 0 <= v mod 64 < 64) by (apply Z.mod_pos_bound; lia).
  destruct (v <? 128) eqn:E1.
  { cbn [app]. apply DecodeRune_1. blia. }
  destruct (v <? 2048) eqn:E2.
  { cbn [app]. rewrite DecodeRune_2 by blia. f_equal. blia. }
  set (a := v / 64) in *.
  assert (Ha : a = 64 * (a / 64) + a mod 64) by (apply Z.div_mod; lia).
  assert (Hm1 : 0 <= a mod 64 < 64) by (apply Z.mod_pos_bound; lia).
  assert (H4096 : v / 4096 = a / 64)
    by (subst a; rewrite Z.div_div by lia; reflexivity).
  destruct (v <? 65536) eqn:E3.
  { cbn [app]. rewrite H4096. prop_of_bool.
    assert (Hsur : v < 0xD800 \/ 0xDFFF < v)
      by (apply andb_false_iff in Hs; destruct Hs; blia).
    rewrite DecodeRune_3; try lia. f_equal. lia. }
  set (c := a / 64) in *.
  assert (Hc : c = 64 * (c / 64) + c mod 64) by (apply Z.div_mod; lia).
  assert (Hm2 : 0 <= c mod 64 < 64) by (apply Z.mod_pos_bound; lia).
  assert (H262144 : v / 262144 = c / 64).
  { subst c a. rewrite !Z.div_div by lia. reflexivity. }
  cbn [app]. rewrite H4096, H262144. prop_of_bool.
  rewrite DecodeRune_4; try lia. f_equal. lia.
Qed.

(** ** [bytes.TrimSpace] *)

Lemma asciiSpace_iff c : Bytes.asciiSpace c = true <-> Spec.ascii_space c.
Proof.
  unfold Bytes.asciiSpace, Spec.ascii_space.
  rewrite !orb_true_iff, !Z.eqb_eq. tauto.
Qed.

Lemma white_space_cases r :
  Spec.white_space r ->
  (r < 0x80 /\ Spec.ascii_space r) \/
  (0x80 <= r <= 0x10FFFF /\ Spec.is_surrogate r = false).
Proof.
  unfold Spec.white_space, Spec.ascii_space, Spec.is_surrogate.
  intros H.
  destruct (Z.lt_ge_cases r 0x80) as [Hlt | Hge]; [left; lia | right].
  split; [lia|]. apply andb_false_iff.
  destruct (Z.lt_ge_cases r 0xD800); [left; apply Z.leb_gt | right; apply Z.leb_gt];
    lia.
Qed.

Lemma IsSpace_white r : Spec.white_space r -> unicode.IsSpace r = true.
Proof.
  unfold Spec.white_space, unicode.IsSpace, uint32. intros H.
  assert (Hr : 0 <= r < 2 ^ 32) by lia. rewrite Z.mod_small by exact Hr.
  change unicode.MaxLatin1 with 255.
  destruct (r <=? 255) eqn:E.
  - assert (Hc : r = 9 \/ r = 10 \/ r = 11 \/ r = 12 \/ r = 13 \/ r = 32
                 \/ r = 0x85 \/ r = 0xA0) by blia.
    repeat (destruct Hc as [-> | Hc]; [reflexivity|]). subst r. reflexivity.
  - prop_of_bool.
    assert (Hc : r = 0x1680 \/ 0x2000 <= r <= 0x200A \/ 0x2028 <= r <= 0x2029
                 \/ r = 0x202F \/ r = 0x205F \/ r = 0x3000) by lia.
    rewrite !orb_true_iff, !andb_true_iff, !Z.eqb_eq, !Z.leb_le. tauto.
Qed.

(** The first byte of the text of a code point tells whether it is
    ASCII. *)
Lemma code_point_text_head v s :
  0x80 <= v <= 0x10FFFF ->
  exists b rest, Spec.code_point_text v ++ s = b :: rest /\ 0x80 <= b.
Proof.
  intros Hv. unfold Spec.code_point_text.
  destruct (v <? 128) eqn:E1; [blia|].
  assert (0 <= v / 64) by (apply Z.div_pos; lia).
  assert (0 <= v / 4096) by (apply Z.div_pos; lia).
  assert (0 <= v / 262144) by (apply Z.div_pos; lia).
  destruct (v <? 2048); [|destruct (v <? 65536)];
    cbn [app]; eexists _, _; (split; [reflexivity | lia]).
Qed.

Lemma code_point_text_len v : 0 < len (Spec.code_point_text v).
Proof.
  unfold Spec.code_point_text.
  destruct (v <? 128); [|destruct (v <? 2048); [|destruct (v <? 65536)]];
    reflexivity.
Qed.

Lemma at_from s i : 0 <= i -> at_ s i = at_ (from s i) 0.
Proof.
  intros Hi. unfold at_, from.
  destruct (i <? 0) eqn:E; [blia|]. change (0 <? 0) with false. cbv iota.
  change (Z.to_nat 0) with 0%nat.
  rewrite nth_skipn. f_equal. lia.
Qed.

Lemma from_app_len s t : from (s ++ t) (len s) = t.
Proof. apply from_len_app. Qed.

(** In text made of white space, the forward search for a rune that is
    no space finds none. *)
Lemma indexFunc_loop_blank fuel :
  forall s start,
    0 <= start -> Spec.blank (from s start) ->
    Bytes.indexFunc_loop fuel s unicode.IsSpace false start = -1.
Proof.
  induction fuel as [|fuel IH]; intros s start Hstart Hblank; [reflexivity|].
  cbn [Bytes.indexFunc_loop].
  destruct (start <? len s) eqn:Elt; [|reflexivity].
  rewrite at_from by lia.
  inversion Hblank as [Hnil | r s' Hw Hs' Heq].
  - exfalso. apply (f_equal len) in Hnil. rewrite len_from in Hnil by blia.
    change (len []) with 0 in Hnil. blia.
  - pose proof (IsSpace_white r Hw) as Hsp.
    assert (Hnext : forall w, w = len (Spec.code_point_text r) ->
                              from s (start + w) = s').
    { intros w ->. rewrite <- from_from, <- Heq, from_app_len;
        [reflexivity | lia | pose proof (code_point_text_len r); lia]. }
    destruct (white_space_cases r Hw) as [[Hlt Ha] | [Hge Hsur]].
    + assert (Ht : Spec.code_point_text r = [r]).
      { unfold Spec.code_point_text.
        destruct (r <? 128) eqn:E; [reflexivity | blia]. }
      rewrite Ht in *. cbn [app]. change (at_ (r :: s') 0) with r.
      change utf8.RuneSelf with 128.
      destruct (r >=? 128) eqn:E; [blia|].
      rewrite Hsp. cbn [Bool.eqb]. apply IH; [lia|].
      rewrite (Hnext 1 eq_refl). exact Hs'.
    + destruct (code_point_text_head r s' Hge) as (b & rest & Hb & Hb80).
      rewrite Hb. change (at_ (b :: rest) 0) with b.
      change utf8.RuneSelf with 128.
      destruct (b >=? 128) eqn:E; [|blia].
      rewrite <- Hb, DecodeRune_text by (assumption || lia).
      rewrite Hsp. cbn [Bool.eqb].
      pose proof (code_point_text_len r). apply IH; [lia|].
      rewrite (Hnext _ eq_refl). exact Hs'.
Qed.

Lemma TrimFunc_blank s :
  Spec.blank s -> Bytes.TrimFunc s unicode.IsSpace = [].
Proof.
  intros H. unfold Bytes.TrimFunc, Bytes.TrimLeftFunc, Bytes.indexFunc.
  rewrite indexFunc_loop_blank by (try lia; exact H). reflexivity.
Qed.

(** The forward ASCII scan of a blank text reaches its end or stops on
    a non-ASCII byte with blank text ahead. *)
Lemma scan_start_blank s :
  Spec.blank s ->
  forall start,
    Bytes.scan_start s start = Bytes.Stop (start + len s) \/
    exists k, 0 <= k /\ Bytes.scan_start s start = Bytes.NonASCII (start + k)
              /\ Spec.blank (from s k).
Proof.
  induction 1 as [|r s Hw Hs IH]; intros start.
  - left. cbn. f_equal. change (len []) with 0. lia.
  - destruct (white_space_cases r Hw) as [[Hlt Ha] | [Hge Hsur]].
    + assert (Ht : Spec.code_point_text r = [r]).
      { unfold Spec.code_point_text.
        destruct (r <? 128) eqn:E; [reflexivity | blia]. }
      rewrite Ht. cbn [app Bytes.scan_start]. change utf8.RuneSelf with 128.
      destruct (r >=? 128) eqn:E; [blia|].
      apply asciiSpace_iff in Ha. rewrite Ha. cbn [negb].
      destruct (IH (start + 1)) as [Hstop | (k & Hk & Hn & Hb)].
      * left. rewrite Hstop, len_cons. f_equal. lia.
      * right. exists (k + 1). repeat split; [lia | | ].
        -- rewrite Hn. f_equal. lia.
        -- unfold from in *. replace (Z.to_nat (k + 1)) with (S (Z.to_nat k))
             by lia. exact Hb.
    + right. exists 0. split; [lia|].
      destruct (code_point_text_head r s Hge) as (b & rest & Hb & Hb80).
      rewrite Hb at 1. cbn [Bytes.scan_start]. change utf8.RuneSelf with 128.
      destruct (b >=? 128) eqn:E; [|blia].
      split; [f_equal; lia|]. rewrite from_0. now constructor.
Qed.

(** A record made of white space only is trimmed to nothing. *)
Lemma TrimSpace_blank s : Spec.blank s -> Bytes.TrimSpace s = [].
Proof.
  intros H. unfold Bytes.TrimSpace.
  destruct (scan_start_blank s H 0) as [Hstop | (k & Hk & Hn & Hb)].
  - rewrite Hstop. rewrite Z.add_0_l.
    assert (from s (len s) = []) as ->.
    { unfold from, len. rewrite Nat2Z.id. apply skipn_all. }
    cbn [rev Bytes.scan_stop]. now rewrite Z.eqb_refl.
  - rewrite Hn, Z.add_0_l. apply TrimFunc_blank, Hb.
Qed.

Lemma blank_ascii s : Forall Spec.ascii_space s -> Spec.blank s.
Proof.
  induction 1 as [|c s Hc Hs IH]; [constructor|].
  assert (Hw : Spec.white_space c)
    by (unfold Spec.ascii_space, Spec.white_space in *; lia).
  assert (Ht : Spec.code_point_text c = [c]).
  { unfold Spec.code_point_text, Spec.ascii_space in *.
    destruct (c <? 128) eqn:E; [reflexivity | blia]. }
  change (c :: s) with ([c] ++ s). rewrite <- Ht. now constructor.
Qed.

(** ** White space seen from the right *)

Lemma blank_app a b : Spec.blank a -> Spec.blank b -> Spec.blank (a ++ b).
Proof.
  induction 1 as [|w a Hw Ha IH]; intros Hb; [exact Hb|].
  rewrite <- app_assoc. constructor; auto.
Qed.

Lemma blank_runes s :
  Spec.blank s ->
  exists ws, Forall Spec.white_space ws /\
             s = flat_map Spec.code_point_text ws.
Proof.
  induction 1 as [|w s Hw Hs (ws & Hws & ->)].
  - exists []. split; constructor.
  - exists (w :: ws). split; [now constructor | reflexivity].
Qed.

Lemma runes_blank ws :
  Forall Spec.white_space ws -> Spec.blank (flat_map Spec.code_point_text ws).
Proof. induction 1; cbn [flat_map]; now constructor. Qed.

(** Induction on blank text from its last character. *)
Lemma blank_snoc_ind (P : bytes -> Prop) :
  P [] ->
  (forall s w, Spec.blank s -> Spec.white_space w -> P s ->
               P (s ++ Spec.code_point_text w)) ->
  forall s, Spec.blank s -> P s.
Proof.
  intros Hnil Hsnoc s Hs.
  destruct (blank_runes s Hs) as (ws & Hws & ->). clear Hs.
  induction ws as [|w ws IH] using rev_ind; [exact Hnil|].
  apply Forall_app in Hws. destruct Hws as [Hws Hw].
  inversion Hw as [|? ? Hw' _]; subst.
  rewrite flat_map_app. cbn [flat_map]. rewrite app_nil_r.
  apply Hsnoc; [now apply runes_blank | exact Hw' | now apply IH].
Qed.

(** ** The bytes of a character *)

Lemma IsSpace_true r : unicode.IsSpace r = true -> Spec.white_space r.
Proof.
  unfold unicode.IsSpace, Spec.white_space.
  destruct (uint32 r <=? unicode.MaxLatin1);
    rewrite !orb_true_iff, ?andb_true_iff, !Z.eqb_eq, ?Z.leb_le; lia.
Qed.

Lemma IsSpace_mark c : Spec.mark c -> unicode.IsSpace c = false.
Proof.
  intros [_ Hc]. destruct (unicode.IsSpace c) eqn:E; [|reflexivity].
  exfalso. apply Hc, IsSpace_true, E.
Qed.

Lemma white_space_character w : Spec.white_space w -> Spec.character w.
Proof.
  intros Hw. unfold Spec.character.
  destruct (white_space_cases w Hw) as [[Hlt Ha] | [Hge Hsur]].
  - unfold Spec.ascii_space, Spec.is_surrogate in *. split; [lia|].
    apply andb_false_iff. left. apply Z.leb_gt. lia.
  - split; [lia | exact Hsur].
Qed.

Lemma code_point_text_ascii v : v < 0x80 -> Spec.code_point_text v = [v].
Proof.
  intros H. unfold Spec.code_point_text.
  destruct (v <? 128) eqn:E; [reflexivity | blia].
Qed.

(** Bit 6 and 7 of a byte tell a continuation byte from the others. *)
Lemma land_high a c m k :
  0 <= k -> 0 <= m < 2 ^ k ->
  Z.land (a * 2 ^ k + m) (c * 2 ^ k) = Z.land a c * 2 ^ k.
Proof.
  intros Hk Hm. rewrite <- lor_high_low by lia.
  apply Z.bits_inj'. intros n Hn.
  rewrite Z.land_spec, Z.lor_spec.
  destruct (Z.lt_ge_cases n k) as [Hlt | Hge].
  - rewrite !Z.mul_pow2_bits_low by lia. now rewrite andb_false_r.
  - rewrite !Z.mul_pow2_bits by lia.
    rewrite (testbit_small m k n) by lia.
    now rewrite orb_false_r, Z.land_spec.
Qed.

Lemma RuneStart_continuation m :
  0 <= m < 64 -> utf8.RuneStart (0x80 + m) = false.
Proof.
  intros Hm. unfold utf8.RuneStart.
  change 0x80 with (2 * 2 ^ 6) at 1. change 0xC0 with (3 * 2 ^ 6).
  rewrite land_high by lia. reflexivity.
Qed.

Lemma RuneStart_lead m :
  0 <= m < 64 -> utf8.RuneStart (0xC0 + m) = true.
Proof.
  intros Hm. unfold utf8.RuneStart.
  change 0xC0 with (3 * 2 ^ 6). rewrite land_high by lia. reflexivity.
Qed.

(** The text of a character above ASCII: a lead byte, then one to three
    continuation bytes. *)
Lemma code_point_text_shape v :
  0x80 <= v <= 0x10FFFF ->
  exists lead conts last,
    Spec.code_point_text v = lead :: conts ++ [last] /\
    utf8.RuneStart lead = true /\ 0x80 <= lead /\
    0x80 <= last /\ utf8.RuneStart last = false /\
    Forall (fun b => utf8.RuneStart b = false) conts /\
    (length conts <= 2)%nat.
Proof.
  intros Hv. unfold Spec.code_point_text.
  destruct (v <? 128) eqn:E1; [blia|].
  assert (Hm : forall x, 0 <= x mod 64 < 64)
    by (intros x; apply Z.mod_pos_bound; lia).
  assert (H64 : 0 <= v / 64) by (apply Z.div_pos; lia).
  assert (H4096 : 0 <= v / 4096) by (apply Z.div_pos; lia).
  assert (H262144 : 0 <= v / 262144) by (apply Z.div_pos; lia).
  destruct (v <? 2048) eqn:E2; [|destruct (v <? 65536) eqn:E3].
  - exists (0xC0 + v / 64), [], (0x80 + v mod 64).
    assert (v / 64 < 32) by (apply Z.div_lt_upper_bound; blia).
    pose proof (Hm v).
    split; [reflexivity|]. split; [apply RuneStart_lead; lia|].
    split; [lia|]. split; [lia|].
    split; [now apply RuneStart_continuation|].
    split; [constructor | cbn; lia].
  - exists (0xE0 + v / 4096), [0x80 + (v / 64) mod 64], (0x80 + v mod 64).
    assert (v / 4096 < 16) by (apply Z.div_lt_upper_bound; blia).
    pose proof (Hm v). pose proof (Hm (v / 64)).
    split; [reflexivity|].
    split; [replace (224 + v / 4096) with (0xC0 + (32 + v / 4096)) by lia;
            apply RuneStart_lead; lia|].
    split; [lia|]. split; [lia|].
    split; [now apply RuneStart_continuation|].
    split; [repeat constructor; now apply RuneStart_continuation | cbn; lia].
  - exists (0xF0 + v / 262144),
      [0x80 + (v / 4096) mod 64; 0x80 + (v / 64) mod 64], (0x80 + v mod 64).
    assert (v / 262144 < 8) by (apply Z.div_lt_upper_bound; blia).
    pose proof (Hm v). pose proof (Hm (v / 64)). pose proof (Hm (v / 4096)).
    split; [reflexivity|].
    split; [replace (240 + v / 262144) with (0xC0 + (48 + v / 262144)) by lia;
            apply RuneStart_lead; lia|].
    split; [lia|]. split; [lia|].
    split; [now apply RuneStart_continuation|].
    split; [repeat constructor; now apply RuneStart_continuation | cbn; lia].
Qed.

(** ** [utf8.DecodeLastRune] reads back the last character *)

Lemma slice_app_r x l : slice (x ++ l) (len x) (len x + len l) = l.
Proof.
  unfold slice. fold (from (x ++ l) (len x)). rewrite from_len_app.
  replace (len x + len l - len x) with (len l) by lia.
  unfold len. rewrite Nat2Z.id. apply firstn_all.
Qed.

(** The backwards scan stops on the lead byte of the last character. *)
Lemma scan_back_lead conts :
  Forall (fun b => utf8.RuneStart b = false) conts ->
  forall fuel x lead tail lim,
    utf8.RuneStart lead = true ->
    (length conts < fuel)%nat -> lim <= len x ->
    utf8.scan_back fuel (x ++ lead :: conts ++ tail) (len x + len conts) lim
    = len x.
Proof.
  induction conts as [|c cs IH] using rev_ind;
    intros Hall fuel x lead tail lim Hlead Hfuel Hlim.
  - destruct fuel as [|fuel]; [simpl in Hfuel; lia|].
    cbn [utf8.scan_back app]. change (len []) with 0. rewrite Z.add_0_r.
    destruct (len x >=? lim) eqn:E; [|blia].
    now rewrite at_len_app, Hlead.
  - apply Forall_app in Hall. destruct Hall as [Hcs Hc].
    inversion Hc as [|? ? Hc' _]; subst.
    destruct fuel as [|fuel]; [simpl in Hfuel; lia|].
    rewrite length_app in Hfuel. cbn [length] in Hfuel.
    cbn [utf8.scan_back]. rewrite len_app, len_cons. change (len []) with 0.
    pose proof (len_nonneg cs) as Hcs0. pose proof (len_nonneg x) as Hx0.
    destruct (len x + (len cs + (0 + 1)) >=? lim) eqn:E; [|blia].
    assert (Hp : x ++ lead :: (cs ++ [c]) ++ tail =
                 (x ++ lead :: cs) ++ c :: tail).
    { rewrite <- !app_assoc. cbn [app]. reflexivity. }
    assert (Hpos : len x + (len cs + (0 + 1)) = len (x ++ lead :: cs)).
    { rewrite len_app, len_cons. lia. }
    rewrite Hp at 1. rewrite Hpos, at_len_app, Hc'.
    replace (len (x ++ lead :: cs) - 1) with (len x + len cs)
      by (rewrite <- Hpos; lia).
    rewrite <- app_assoc. cbn [app].
    apply IH; auto. lia.
Qed.

Lemma DecodeLastRune_text x v :
  Spec.character v ->
  utf8.DecodeLastRune (x ++ Spec.code_point_text v) =
  (v, len (Spec.code_point_text v)).
Proof.
  intros [Hv Hsur]. pose proof (len_nonneg x) as Hx0.
  destruct (Z.lt_ge_cases v 0x80) as [Hlt | Hge].
  - rewrite code_point_text_ascii by lia.
    unfold utf8.DecodeLastRune. cbv zeta.
    rewrite len_app, len_cons. change (len []) with 0.
    destruct (len x + (0 + 1) =? 0) eqn:E0; [blia|].
    replace (len x + (0 + 1) - 1) with (len x) by lia.
    rewrite at_len_app. change utf8.RuneSelf with 128.
    destruct (v <? 128) eqn:E; [reflexivity | blia].
  - destruct (code_point_text_shape v ltac:(lia))
      as (lead & conts & last & Ht & Hlead & Hl80 & Hlast80 & Hlast & Hconts
          & Hn).
    pose proof (DecodeRune_text v [] Hv Hsur) as Hdec.
    rewrite app_nil_r in Hdec.
    remember (Spec.code_point_text v) as L eqn:HL.
    assert (Hlen : len L = len conts + 2).
    { rewrite Ht, len_cons, len_app, len_cons. change (len []) with 0. lia. }
    assert (Hend : len (x ++ L) = len x + len L) by apply len_app.
    pose proof (len_nonneg conts) as Hc0.
    assert (Hat : at_ (x ++ L) (len (x ++ L) - 1) = last).
    { replace (len (x ++ L) - 1) with (len (x ++ lead :: conts))
        by (rewrite Hend, len_app, len_cons; lia).
      rewrite Ht.
      replace (x ++ lead :: conts ++ [last])
        with ((x ++ lead :: conts) ++ [last])
        by (now rewrite <- app_assoc).
      apply at_len_app. }
    assert (Hscan : utf8.scan_back (Z.to_nat utf8.UTFMax) (x ++ L)
                      (len (x ++ L) - 1 - 1)
                      (Z.max (len (x ++ L) - utf8.UTFMax) 0) = len x).
    { replace (len (x ++ L) - 1 - 1) with (len x + len conts) by lia.
      rewrite Hend, Hlen, Ht. apply scan_back_lead; auto.
      - change (Z.to_nat utf8.UTFMax) with 4%nat. lia.
      - change utf8.UTFMax with 4. unfold len. lia. }
    assert (Hslice : slice (x ++ L) (len x) (len (x ++ L)) = L).
    { rewrite Hend. apply slice_app_r. }
    unfold utf8.DecodeLastRune. cbv zeta.
    rewrite Hat, Hscan.
    destruct (len (x ++ L) =? 0) eqn:E0; [blia|].
    change utf8.RuneSelf with 128.
    destruct (last <? 128) eqn:El; [blia|].
    destruct (len x <? 0) eqn:Ex; [blia|].
    rewrite Hslice, Hdec, Hend, Z.eqb_refl. reflexivity.
Qed.

(** ** One character forwards, one character backwards *)

Lemma from_nonempty s start :
  0 <= start -> from s start <> [] -> start < len s.
Proof.
  intros H0 Hne. destruct (Z.lt_ge_cases start (len s)) as [H | H]; [exact H|].
  exfalso. apply Hne. unfold from, len in *. apply skipn_all2. lia.
Qed.

Lemma code_point_text_nonempty v s : Spec.code_point_text v ++ s <> [].
Proof.
  pose proof (code_point_text_len v) as H. intros E.
  apply app_eq_nil in E. destruct E as [E _]. rewrite E in H.
  change (len []) with 0 in H. lia.
Qed.

(** What a round of [indexFunc] decodes at the start of a character. *)
Lemma index_step s start v tail :
  0 <= start -> from s start = Spec.code_point_text v ++ tail ->
  Spec.character v ->
  (start <? len s) = true /\
  (if at_ s start >=? utf8.RuneSelf then utf8.DecodeRune (from s start)
   else (at_ s start, 1)) = (v, len (Spec.code_point_text v)).
Proof.
  intros H0 Hfrom [Hv Hsur]. split.
  - apply Z.ltb_lt. apply from_nonempty; [exact H0|].
    rewrite Hfrom. apply code_point_text_nonempty.
  - rewrite at_from, Hfrom by lia. change utf8.RuneSelf with 128.
    destruct (Z.lt_ge_cases v 0x80) as [Hlt | Hge].
    + rewrite code_point_text_ascii by lia. cbn [app].
      change (at_ (v :: tail) 0) with v.
      destruct (v >=? 128) eqn:E; [blia | reflexivity].
    + destruct (code_point_text_head v tail ltac:(lia)) as (b & rest & Hb & Hb80).
      rewrite Hb at 1. change (at_ (b :: rest) 0) with b.
      destruct (b >=? 128) eqn:E; [|blia].
      now apply DecodeRune_text.
Qed.

Lemma len_slice_0 s i : 0 <= i <= len s -> len (slice s 0 i) = i.
Proof.
  intros H. unfold slice, len in *. rewrite Z.sub_0_r. cbn [Z.to_nat skipn].
  rewrite length_firstn. lia.
Qed.

Lemma at_slice_0 s i j : 0 <= j < i -> at_ (slice s 0 i) j = at_ s j.
Proof.
  intros H. unfold at_, slice. rewrite Z.sub_0_r. cbn [Z.to_nat skipn].
  destruct (j <? 0) eqn:E; [blia|]. rewrite nth_firstn.
  destruct (Nat.ltb_spec (Z.to_nat j) (Z.to_nat i)); [reflexivity | lia].
Qed.

Lemma slice_0_shorter s i a b :
  0 <= i <= len s -> slice s 0 i = a ++ b -> slice s 0 (i - len b) = a.
Proof.
  unfold slice, len. rewrite !Z.sub_0_r. cbn [Z.to_nat skipn]. intros Hi H.
  assert (Hlen : (length a + length b = Z.to_nat i)%nat).
  { apply (f_equal (@length _)) in H.
    rewrite length_firstn, length_app in H. lia. }
  replace (Z.to_nat (i - Z.of_nat (length b)))
    with (Nat.min (length a) (Z.to_nat i)) by lia.
  rewrite <- firstn_firstn, H, firstn_app, firstn_all, Nat.sub_diag.
  cbn [firstn]. apply app_nil_r.
Qed.

(** What a round of [lastIndexFunc] decodes at the end of a character. *)
Lemma last_step s i y v :
  0 <= i <= len s -> slice s 0 i = y ++ Spec.code_point_text v ->
  Spec.character v ->
  (0 <? i) = true /\
  (if at_ s (i - 1) >=? utf8.RuneSelf then utf8.DecodeLastRune (slice s 0 i)
   else (at_ s (i - 1), 1)) = (v, len (Spec.code_point_text v)).
Proof.
  intros Hi Hs Hc. pose proof Hc as [Hv Hsur].
  pose proof (code_point_text_len v) as Hpos.
  pose proof (len_nonneg y) as Hy0.
  assert (Hlen : i = len y + len (Spec.code_point_text v)).
  { rewrite <- (len_slice_0 s i Hi), Hs. apply len_app. }
  split; [apply Z.ltb_lt; lia|].
  rewrite <- (at_slice_0 s i (i - 1)) by lia. rewrite Hs.
  change utf8.RuneSelf with 128.
  destruct (Z.lt_ge_cases v 0x80) as [Hlt | Hge].
  - rewrite code_point_text_ascii in * by lia.
    replace (i - 1) with (len y)
      by (rewrite Hlen, len_cons; change (len []) with 0; lia).
    rewrite at_len_app.
    destruct (v >=? 128) eqn:E; [blia | reflexivity].
  - destruct (code_point_text_shape v ltac:(lia))
      as (lead & conts & last & Ht & _ & _ & Hlast80 & _).
    assert (Hat : at_ (y ++ Spec.code_point_text v) (i - 1) = last).
    { rewrite Ht.
      replace (y ++ lead :: conts ++ [last])
        with ((y ++ lead :: conts) ++ [last])
        by (now rewrite <- app_assoc).
      replace (i - 1) with (len (y ++ lead :: conts)); [apply at_len_app|].
      rewrite Hlen, Ht, len_app, !len_cons, len_app, len_cons.
      change (len []) with 0. lia. }
    rewrite Hat. destruct (last >=? 128) eqn:E; [|blia].
    now apply DecodeLastRune_text.
Qed.

(** ** The two searches of [TrimFunc] *)

(** The forward search steps over white space and stops on the first
    mark; the bound of the loop is not met. *)
Lemma indexFunc_loop_mark pre :
  Spec.blank pre ->
  forall fuel s start c rest,
    0 <= start ->
    from s start = pre ++ Spec.code_point_text c ++ rest ->
    Spec.mark c -> (length pre < fuel)%nat ->
    Bytes.indexFunc_loop fuel s unicode.IsSpace false start = start + len pre.
Proof.
  induction 1 as [|w pre Hw Hpre IH];
    intros fuel s start c rest H0 Hfrom Hmark Hfuel;
    (destruct fuel as [|fuel]; [simpl in Hfuel; lia|]);
    cbn [Bytes.indexFunc_loop].
  - cbn [app] in Hfrom. destruct Hmark as [Hc Hnw].
    destruct (index_step s start c rest H0 Hfrom Hc) as [-> ->].
    rewrite IsSpace_mark by (split; assumption). cbn [Bool.eqb].
    change (len []) with 0. lia.
  - rewrite <- app_assoc in Hfrom.
    destruct (index_step s start w _ H0 Hfrom (white_space_character w Hw))
      as [-> ->].
    rewrite IsSpace_white by assumption. cbn [Bool.eqb].
    pose proof (code_point_text_len w) as Hpos.
    rewrite (IH fuel s _ c rest); auto.
    + rewrite len_app. lia.
    + lia.
    + rewrite <- from_from, Hfrom, from_len_app by lia. reflexivity.
    + rewrite length_app in Hfuel.
      assert (0 < length (Spec.code_point_text w))%nat
        by (unfold len in Hpos; lia).
      lia.
Qed.

(** The backward search steps over white space and stops on the last
    mark, returning the index where its text begins. *)
Lemma lastIndexFunc_loop_mark post :
  Spec.blank post ->
  forall fuel s i y c,
    0 <= i <= len s ->
    slice s 0 i = y ++ Spec.code_point_text c ++ post ->
    Spec.mark c -> (length post < fuel)%nat ->
    Bytes.lastIndexFunc_loop fuel s unicode.IsSpace false i = len y.
Proof.
  intros Hpost. pattern post. revert post Hpost.
  apply blank_snoc_ind.
  - intros fuel s i y c Hi Hs Hmark Hfuel.
    destruct fuel as [|fuel]; [simpl in Hfuel; lia|].
    cbn [Bytes.lastIndexFunc_loop]. rewrite app_nil_r in Hs.
    destruct Hmark as [Hc Hnw].
    destruct (last_step s i y c Hi Hs Hc) as [-> ->].
    rewrite IsSpace_mark by (split; assumption). cbn [Bool.eqb].
    rewrite <- (len_slice_0 s i Hi), Hs, len_app. lia.
  - intros post w Hpost Hw IH fuel s i y c Hi Hs Hmark Hfuel.
    destruct fuel as [|fuel]; [simpl in Hfuel; lia|].
    cbn [Bytes.lastIndexFunc_loop].
    assert (Hs' : slice s 0 i =
                  (y ++ Spec.code_point_text c ++ post)
                  ++ Spec.code_point_text w)
      by (rewrite Hs, <- !app_assoc; reflexivity).
    destruct (last_step s i _ w Hi Hs' (white_space_character w Hw))
      as [-> ->].
    rewrite IsSpace_white by assumption. cbn [Bool.eqb].
    pose proof (code_point_text_len w) as Hpos.
    assert (Hi' : i = len (y ++ Spec.code_point_text c ++ post)
                      + len (Spec.code_point_text w)).
    { rewrite <- (len_slice_0 s i Hi), Hs'. apply len_app. }
    pose proof (len_nonneg (y ++ Spec.code_point_text c ++ post)).
    apply (IH fuel s _ y c); auto.
    + lia.
    + now apply slice_0_shorter.
    + rewrite length_app in Hfuel.
      assert (0 < length (Spec.code_point_text w))%nat
        by (unfold len in Hpos; lia).
      lia.
Qed.

Lemma slice_0_len s : slice s 0 (len s) = s.
Proof.
  unfold slice, len. rewrite Z.sub_0_r, Nat2Z.id. cbn [Z.to_nat skipn].
  apply firstn_all.
Qed.

Lemma TrimLeftFunc_mark pre c rest :
  Spec.blank pre -> Spec.mark c ->
  Bytes.TrimLeftFunc (pre ++ Spec.code_point_text c ++ rest) unicode.IsSpace
  = Spec.code_point_text c ++ rest.
Proof.
  intros Hpre Hc. unfold Bytes.TrimLeftFunc, Bytes.indexFunc.
  rewrite (indexFunc_loop_mark pre Hpre _ _ 0 c rest);
    try assumption; try lia; try reflexivity.
  - rewrite Z.add_0_l. pose proof (len_nonneg pre).
    destruct (len pre =? -1) eqn:E; [blia|]. apply from_len_app.
  - rewrite length_app. lia.
Qed.

Lemma TrimRightFunc_mark y c post :
  Spec.blank post -> Spec.mark c ->
  Bytes.TrimRightFunc (y ++ Spec.code_point_text c ++ post) unicode.IsSpace
  = y ++ Spec.code_point_text c.
Proof.
  intros Hpost Hc. unfold Bytes.TrimRightFunc, Bytes.lastIndexFunc.
  set (t := y ++ Spec.code_point_text c ++ post).
  pose proof (len_nonneg t) as Ht0. pose proof (len_nonneg y) as Hy0.
  rewrite (lastIndexFunc_loop_mark post Hpost _ t (len t) y c);
    try assumption; try lia.
  - destruct (0 <=? len y) eqn:E0; [|blia]. cbn [andb].
    assert (Hfrom : from t (len y) = Spec.code_point_text c ++ post)
      by apply from_len_app.
    destruct Hc as [Hc Hnw].
    destruct (index_step t (len y) c post Hy0 Hfrom Hc) as [_ Hstep].
    assert (Hcut : slice t 0 (len y + len (Spec.code_point_text c)) =
                   y ++ Spec.code_point_text c).
    { unfold t. rewrite app_assoc, <- len_app. apply slice_0_len_app. }
    destruct (at_ t (len y) >=? utf8.RuneSelf).
    + rewrite Hstep. exact Hcut.
    + injection Hstep as _ H1. rewrite H1. exact Hcut.
  - apply slice_0_len.
  - unfold t. rewrite !length_app. lia.
Qed.

(** [TrimFunc] with [unicode.IsSpace] takes the white space off both
    ends of text that begins and ends with a mark. *)
Lemma TrimFunc_edged pre core post :
  Spec.blank pre -> Spec.blank post -> Spec.edged core ->
  Bytes.TrimFunc (pre ++ core ++ post) unicode.IsSpace = core.
Proof.
  intros Hpre Hpost [(c1 & rest & Hc1 & Hfront) (c2 & y & Hc2 & Hback)].
  unfold Bytes.TrimFunc.
  rewrite Hfront at 1. rewrite <- app_assoc, TrimLeftFunc_mark by assumption.
  rewrite app_assoc, <- Hfront, Hback, <- app_assoc.
  now apply TrimRightFunc_mark.
Qed.

(** ** The ASCII scans of [TrimSpace] *)

Lemma mark_ascii c :
  Spec.mark c -> c < 0x80 ->
  (c >=? utf8.RuneSelf) = false /\ Bytes.asciiSpace c = false.
Proof.
  intros [_ Hnw] Hlt. split.
  - change utf8.RuneSelf with 128. rewrite Z.geb_leb. apply Z.leb_gt. lia.
  - destruct (Bytes.asciiSpace c) eqn:E; [|reflexivity].
    exfalso. apply Hnw. apply asciiSpace_iff in E.
    unfold Spec.ascii_space, Spec.white_space in *. lia.
Qed.

Lemma white_ascii w :
  Spec.white_space w -> w < 0x80 ->
  (w >=? utf8.RuneSelf) = false /\ Bytes.asciiSpace w = true.
Proof.
  intros Hw Hlt. split.
  - change utf8.RuneSelf with 128. rewrite Z.geb_leb. apply Z.leb_gt. lia.
  - apply asciiSpace_iff. unfold Spec.ascii_space, Spec.white_space in *. lia.
Qed.

(** The forward scan ends on an ASCII mark after all the white space,
    or on the first byte above ASCII with blank text up to the mark. *)
Lemma scan_start_edge pre :
  Spec.blank pre ->
  forall c tail start,
    Spec.mark c ->
    Bytes.scan_start (pre ++ Spec.code_point_text c ++ tail) start =
      Bytes.Stop (start + len pre) \/
    exists k pre2,
      0 <= k /\
      Bytes.scan_start (pre ++ Spec.code_point_text c ++ tail) start =
        Bytes.NonASCII (start + k) /\
      Spec.blank pre2 /\
      from (pre ++ Spec.code_point_text c ++ tail) k =
        pre2 ++ Spec.code_point_text c ++ tail.
Proof.
  induction 1 as [|w pre Hw Hpre IH]; intros c tail start Hc.
  - cbn [app]. destruct (Z.lt_ge_cases c 0x80) as [Hlt | Hge].
    + left. rewrite code_point_text_ascii by lia. cbn [app Bytes.scan_start].
      destruct (mark_ascii c Hc Hlt) as [-> ->]. cbn [negb].
      change (len []) with 0. f_equal. lia.
    + right. exists 0, []. split; [lia|].
      destruct Hc as [[Hv _] _].
      destruct (code_point_text_head c tail ltac:(lia))
        as (b & rest & Hb & Hb80).
      split; [|split; [constructor | reflexivity]].
      rewrite Hb. cbn [Bytes.scan_start]. change utf8.RuneSelf with 128.
      destruct (b >=? 128) eqn:E; [f_equal; lia | blia].
  - rewrite <- app_assoc.
    destruct (Z.lt_ge_cases w 0x80) as [Hlt | Hge].
    + rewrite code_point_text_ascii by lia. cbn [app Bytes.scan_start].
      destruct (white_ascii w Hw Hlt) as [-> ->]. cbn [negb].
      destruct (IH c tail (start + 1) Hc)
        as [Hstop | (k & pre2 & Hk & Hn & Hb & Hfrom)].
      * left. rewrite Hstop, len_cons. f_equal. lia.
      * right. exists (k + 1), pre2. split; [lia|].
        split; [rewrite Hn; f_equal; lia|]. split; [exact Hb|].
        unfold from in *.
        replace (Z.to_nat (k + 1)) with (S (Z.to_nat k)) by lia.
        exact Hfrom.
    + right. exists 0, (Spec.code_point_text w ++ pre).
      split; [lia|].
      destruct (white_space_character w Hw) as [Hv _].
      destruct (code_point_text_head w (pre ++ Spec.code_point_text c ++ tail)
                  ltac:(lia)) as (b & rest & Hb & Hb80).
      split; [|split; [now constructor | now rewrite from_0, <- app_assoc]].
      rewrite Hb. cbn [Bytes.scan_start]. change utf8.RuneSelf with 128.
      destruct (b >=? 128) eqn:E; [f_equal; lia | blia].
Qed.

(** The backward scan ends on an ASCII mark before all the white space,
    or on the last byte above ASCII with blank text back to the mark. *)
Lemma scan_stop_edge post :
  Spec.blank post ->
  forall y c stop,
    Spec.mark c ->
    Bytes.scan_stop (rev (y ++ Spec.code_point_text c ++ post)) stop =
      Bytes.Stop (stop - len post) \/
    exists post1 post2,
      post = post1 ++ post2 /\ Spec.blank post1 /\
      Bytes.scan_stop (rev (y ++ Spec.code_point_text c ++ post)) stop =
        Bytes.NonASCII (stop - len post2).
Proof.
  intros Hpost. pattern post. revert post Hpost. apply blank_snoc_ind.
  - intros y c stop Hc. rewrite app_nil_r, rev_app_distr.
    destruct (Z.lt_ge_cases c 0x80) as [Hlt | Hge].
    + left. rewrite code_point_text_ascii by lia. cbn [rev app Bytes.scan_stop].
      destruct (mark_ascii c Hc Hlt) as [-> ->]. cbn [negb].
      change (len []) with 0. f_equal. lia.
    + right. exists [], []. split; [reflexivity|]. split; [constructor|].
      destruct Hc as [[Hv _] _].
      destruct (code_point_text_shape c ltac:(lia))
        as (lead & conts & last & Ht & _ & _ & Hlast80 & _).
      rewrite Ht. change (lead :: conts ++ [last])
        with ((lead :: conts) ++ [last]).
      rewrite rev_app_distr. cbn [rev app Bytes.scan_stop].
      change utf8.RuneSelf with 128.
      destruct (last >=? 128) eqn:E; [|blia].
      change (len []) with 0. f_equal. lia.
  - intros post w Hpost Hw IH y c stop Hc.
    rewrite !app_assoc, rev_app_distr, <- !app_assoc.
    destruct (Z.lt_ge_cases w 0x80) as [Hlt | Hge].
    + rewrite code_point_text_ascii by lia. cbn [rev app Bytes.scan_stop].
      destruct (white_ascii w Hw Hlt) as [-> ->]. cbn [negb].
      destruct (IH y c (stop - 1) Hc)
        as [Hstop | (post1 & post2 & Hsplit & Hb & Hn)].
      * left. rewrite Hstop, len_app, len_cons. change (len []) with 0.
        f_equal. lia.
      * right. exists post1, (post2 ++ [w]).
        split; [rewrite Hsplit; now rewrite <- app_assoc|].
        split; [exact Hb|].
        rewrite Hn, len_app, len_cons. change (len []) with 0. f_equal. lia.
    + right. exists (post ++ Spec.code_point_text w), [].
      split; [now rewrite app_nil_r|].
      split; [apply blank_app; [exact Hpost|];
              rewrite <- (app_nil_r (Spec.code_point_text w));
              constructor; [exact Hw | constructor]|].
      destruct (white_space_character w Hw) as [Hv _].
      destruct (code_point_text_shape w ltac:(lia))
        as (lead & conts & last & Ht & _ & _ & Hlast80 & _).
      rewrite Ht. change (lead :: conts ++ [last])
        with ((lead :: conts) ++ [last]).
      rewrite rev_app_distr. cbn [rev app Bytes.scan_stop].
      change utf8.RuneSelf with 128.
      destruct (last >=? 128) eqn:E; [|blia].
      change (len []) with 0. f_equal. lia.
Qed.

(** [TrimSpace] takes the white space, ASCII or not, off both ends of
    text that begins with a mark and ends with a mark, and leaves that
    text as it is. *)
Theorem TrimSpace_edged pre core post :
  Spec.blank pre -> Spec.blank post -> Spec.edged core ->
  Bytes.TrimSpace (pre ++ core ++ post) = core.
Proof.
  intros Hpre Hpost Hedged.
  pose proof Hedged as [(c1 & rest & Hc1 & Hfront) (c2 & y & Hc2 & Hback)].
  unfold Bytes.TrimSpace.
  assert (Hs1 : pre ++ core ++ post =
                pre ++ Spec.code_point_text c1 ++ rest ++ post)
    by (rewrite Hfront, <- app_assoc; reflexivity).
  destruct (scan_start_edge pre Hpre c1 (rest ++ post) 0 Hc1)
    as [Hstop | (k & pre2 & Hk & Hn & Hb & Hfrom)].
  - rewrite Hs1, Hstop, <- Hs1, Z.add_0_l, from_len_app.
    assert (Hs2 : core ++ post = y ++ Spec.code_point_text c2 ++ post)
      by (rewrite Hback, <- app_assoc; reflexivity).
    assert (Hcore : 0 < len core).
    { rewrite Hfront, len_app. pose proof (code_point_text_len c1).
      pose proof (len_nonneg rest). lia. }
    assert (Hend : len (pre ++ core ++ post) = len pre + len core + len post)
      by (rewrite !len_app; lia).
    remember (len (pre ++ core ++ post)) as n eqn:En.
    assert (Hfirstn : forall t, firstn (length core) (core ++ t) = core).
    { intros t. rewrite firstn_app, firstn_all, Nat.sub_diag. cbn [firstn].
      apply app_nil_r. }
    destruct (scan_stop_edge post Hpost y c2 n Hc2)
      as [Hstop2 | (post1 & post2 & Hsplit & Hb1 & Hn2)].
    + rewrite Hs2 at 1. rewrite Hstop2.
      replace (n - len post) with (len pre + len core) by lia.
      destruct (len pre =? len pre + len core) eqn:E; [blia|].
      unfold slice. fold (from (pre ++ core ++ post) (len pre)).
      rewrite from_len_app.
      replace (len pre + len core - len pre) with (len core) by lia.
      unfold len. rewrite Nat2Z.id. apply Hfirstn.
    + rewrite Hs2 at 1. rewrite Hn2.
      assert (Hcut : slice (pre ++ core ++ post) (len pre) (n - len post2) =
                     core ++ post1).
      { unfold slice. fold (from (pre ++ core ++ post) (len pre)).
        rewrite from_len_app.
        assert (Hp : len post = len post1 + len post2)
          by (rewrite Hsplit; apply len_app).
        replace (n - len post2 - len pre) with (len (core ++ post1))
          by (rewrite len_app; lia).
        rewrite Hsplit, app_assoc. unfold len. rewrite Nat2Z.id.
        rewrite firstn_app, firstn_all, Nat.sub_diag. cbn [firstn].
        apply app_nil_r. }
      rewrite Hcut.
      apply (TrimFunc_edged [] core post1); [constructor | assumption..].
  - rewrite Hs1, Hn, Z.add_0_l, Hfrom.
    replace (pre2 ++ Spec.code_point_text c1 ++ rest ++ post)
      with (pre2 ++ core ++ post)
      by (rewrite Hfront at 1; now rewrite <- app_assoc).
    now apply TrimFunc_edged.
Qed.

(** ** The bounds of the two searches are never met *)

Lemma DecodeRune_width p :
  p <> [] -> 1 <= snd (utf8.DecodeRune p) <= 4.
Proof.
  intros Hp. unfold utf8.DecodeRune. cbv zeta.
  destruct (len p <? 1) eqn:E.
  { exfalso. apply Hp. apply len_zero. pose proof (len_nonneg p). blia. }
  repeat match goal with
         | |- context [if ?c then _ else _] => destruct c
         end; cbn [snd]; lia.
Qed.

Lemma scan_back_le fuel :
  forall p start lim, utf8.scan_back fuel p start lim <= start.
Proof.
  induction fuel as [|fuel IH]; intros p start lim; cbn [utf8.scan_back];
    [lia|].
  destruct (start >=? lim); [|lia].
  destruct (utf8.RuneStart (at_ p start)); [lia|].
  specialize (IH p (start - 1) lim). lia.
Qed.

Lemma DecodeLastRune_width p :
  p <> [] -> 1 <= snd (utf8.DecodeLastRune p).
Proof.
  intros Hp. unfold utf8.DecodeLastRune. cbv zeta.
  destruct (len p =? 0) eqn:E.
  { exfalso. apply Hp. apply len_zero. blia. }
  destruct (at_ p (len p - 1) <? utf8.RuneSelf); [cbn [snd]; lia|].
  set (st := utf8.scan_back _ _ _ _).
  pose proof (scan_back_le (Z.to_nat utf8.UTFMax) p (len p - 1 - 1)
                (Z.max (len p - utf8.UTFMax) 0)) as Hle.
  fold st in Hle.
  destruct (utf8.DecodeRune (slice p (if st <? 0 then 0 else st) (len p)))
    as [r size].
  destruct (negb ((if st <? 0 then 0 else st) + size =? len p)) eqn:En;
    cbn [snd]; [lia|].
  pose proof (len_nonneg p). prop_of_bool. destruct (st <? 0) eqn:Es; blia.
Qed.

(** [indexFunc] runs its loop with a bound of one round per byte and one
    more: a larger bound changes nothing. *)
Lemma indexFunc_loop_fuel s f truth fuel :
  forall fuel' start,
    0 <= start -> (Z.to_nat (len s - start) < fuel)%nat ->
    (fuel <= fuel')%nat ->
    Bytes.indexFunc_loop fuel s f truth start =
    Bytes.indexFunc_loop fuel' s f truth start.
Proof.
  induction fuel as [|fuel IH]; intros fuel' start H0 Hfuel Hle; [lia|].
  destruct fuel' as [|fuel']; [lia|]. cbn [Bytes.indexFunc_loop].
  destruct (start <? len s) eqn:E; [|reflexivity].
  assert (Hw : 1 <= snd (if at_ s start >=? utf8.RuneSelf
                         then utf8.DecodeRune (from s start)
                         else (at_ s start, 1))).
  { destruct (at_ s start >=? utf8.RuneSelf); [|cbn [snd]; lia].
    apply DecodeRune_width. intros Hnil.
    apply (f_equal len) in Hnil. rewrite len_from in Hnil by blia.
    change (len []) with 0 in Hnil. blia. }
  destruct (if at_ s start >=? utf8.RuneSelf
            then utf8.DecodeRune (from s start) else (at_ s start, 1))
    as [r wid].
  cbn [snd] in Hw. destruct (Bool.eqb (f r) truth); [reflexivity|].
  apply IH; blia.
Qed.

Lemma lastIndexFunc_loop_fuel s f truth fuel :
  forall fuel' i,
    i <= len s -> (Z.to_nat i < fuel)%nat -> (fuel <= fuel')%nat ->
    Bytes.lastIndexFunc_loop fuel s f truth i =
    Bytes.lastIndexFunc_loop fuel' s f truth i.
Proof.
  induction fuel as [|fuel IH]; intros fuel' i Hi Hfuel Hle; [lia|].
  destruct fuel' as [|fuel']; [lia|]. cbn [Bytes.lastIndexFunc_loop].
  destruct (0 <? i) eqn:E; [|reflexivity].
  assert (Hw : 1 <= snd (if at_ s (i - 1) >=? utf8.RuneSelf
                         then utf8.DecodeLastRune (slice s 0 i)
                         else (at_ s (i - 1), 1))).
  { destruct (at_ s (i - 1) >=? utf8.RuneSelf); [|cbn [snd]; lia].
    apply DecodeLastRune_width. intros Hnil.
    apply (f_equal len) in Hnil. rewrite len_slice_0 in Hnil by blia.
    change (len []) with 0 in Hnil. blia. }
  destruct (if at_ s (i - 1) >=? utf8.RuneSelf
            then utf8.DecodeLastRune (slice s 0 i) else (at_ s (i - 1), 1))
    as [r size].
  cbn [snd] in Hw. destruct (Bool.eqb (f r) truth); [reflexivity|].
  apply IH; blia.
Qed.

(** ** What a stream produces, record by record *)

Lemma drain_interior_prefix fl d rs1 :
  forall pend r rs2 f,
    Spec.drain fl d pend (rs1 ++ r :: rs2) f =
    (match pend with Some p => Spec.emit_interior fl d p | None => [] end)
    ++ flat_map (Spec.emit_interior fl d) rs1
    ++ Spec.drain fl d (Some r) rs2 f.
Proof.
  induction rs1 as [|r1 rs1 IH]; intros pend r rs2 f; cbn [app Spec.drain flat_map].
  - reflexivity.
  - rewrite IH. now rewrite <- !app_assoc.
Qed.

(** The last terminated record and the fragment are terminal content,
    every record before them is interior. *)
Lemma drain_last fl d rs p f :
  Spec.drain fl d None (rs ++ [p]) f =
  flat_map (Spec.emit_interior fl d) rs
  ++ Spec.emit_terminal fl d p ++ Spec.emit_terminal fl d f.
Proof. rewrite drain_interior_prefix. reflexivity. Qed.

Lemma drain_kept fl d rs :
  forall pend f,
    Spec.drain fl d pend rs f =
    flat_map (Spec.wrapped fl d) (Spec.kept fl pend rs f).
Proof.
  assert (Hi : forall r, Spec.emit_interior fl d r =
                         flat_map (Spec.wrapped fl d) (Spec.keep_interior fl r)).
  { intros r. unfold Spec.emit_interior, Spec.keep_interior.
    destruct ((len (Spec.processed fl r) =? 0) && skipEmpty fl);
      cbn [flat_map]; now rewrite ?app_nil_r. }
  assert (Ht : forall r, Spec.emit_terminal fl d r =
                         flat_map (Spec.wrapped fl d) (Spec.keep_terminal fl r)).
  { intros r. unfold Spec.emit_terminal, Spec.keep_terminal.
    destruct (len (Spec.processed fl r) =? 0);
      cbn [flat_map]; now rewrite ?app_nil_r. }
  induction rs as [|r rs IH]; intros pend f; cbn [Spec.drain Spec.kept];
    rewrite flat_map_app.
  - rewrite Ht. destruct pend; [rewrite Ht|]; reflexivity.
  - rewrite IH. destruct pend; [rewrite Hi|]; reflexivity.
Qed.

Lemma run_survivors fl d input :
  run fl d input =
  Some (flat_map (Spec.wrapped fl d) (Spec.survivors fl input)).
Proof.
  rewrite run_drain. unfold Spec.survivors.
  destruct (Spec.split_records (delimByte fl) input) as [rs f].
  now rewrite drain_kept.
Qed.

(** ** The loop does not depend on its bound *)

Lemma loop_more_fuel fl d fuel :
  forall st st' fuel',
    loop fl d fuel st = Some st' -> (fuel <= fuel')%nat ->
    loop fl d fuel' st = Some st'.
Proof.
  induction fuel as [|fuel IH]; intros st st' fuel' H Hle; [discriminate|].
  destruct fuel' as [|fuel']; [lia|]. cbn [loop] in *.
  destruct (iteration fl d st); [|exact H].
  apply IH; [exact H | lia].
Qed.

(** Whatever the bound, a loop that ends has written what [Spec.drain]
    tells of the unread input. *)
Lemma loop_written fl d fuel st st' :
  loop fl d fuel st = Some st' ->
  written (sink st') =
  written (sink st) ++
  (let '(rs, f) := Spec.split_records (delimByte fl) (unread st) in
   Spec.drain fl d (pending st) rs f).
Proof.
  intros H.
  pose proof (split_records_join (delimByte fl) (unread st)) as Hs.
  destruct (Spec.split_records (delimByte fl) (unread st)) as [rs f].
  destruct Hs as (Hj & Hrs & Hf & _).
  destruct (loop_drain fl d rs f st (S (length rs) + fuel) Hrs Hf Hj)
    as (st'' & Hl & Hw); [lia|].
  apply (loop_more_fuel _ _ _ _ _ (S (length rs) + fuel)) in H; [|lia].
  rewrite H in Hl. injection Hl as <-. exact Hw.
Qed.

(** ** The written form of a record *)

Lemma content_spec fl d p :
  if escapeDelim fl && negb (len d =? 0)
  then Spec.Escaped d p (Spec.content fl d p)
  else Spec.content fl d p = p.
Proof.
  unfold Spec.content.
  destruct (escapeDelim fl && negb (len d =? 0)) eqn:E; [|reflexivity].
  apply ReplaceAll_Escaped. intros ->.
  change (len [] =? 0) with true in E. rewrite andb_false_r in E. discriminate.
Qed.

(** C1: every record that is not dropped is written as the opening
    delimiter, its content, the closing delimiter and one line feed (byte
    10), in the newline and in the NUL separator mode alike, and nothing
    else is written.  The content is the record with every occurrence of
    the delimiter, left to right without overlap, preceded by a backslash
    when the escape flag is set and the delimiter is not empty; it is
    the record itself otherwise.  This holds of each call of
    [processLine] and of the whole output of a run. *)
Theorem C1_record_format (fl : Flags) (d : bytes) (k : Sink)
    (line input : bytes) :
  (exists c,
      written (processLine k line d (escapeDelim fl)) =
      written k ++ d ++ c ++ d ++ [10] /\
      if escapeDelim fl && negb (len d =? 0)
      then Spec.Escaped d line c else c = line)
  /\
  (exists contents,
      run fl d input =
      Some (flat_map (fun c => d ++ c ++ d ++ [10]) contents) /\
      Forall2 (fun p c => if escapeDelim fl && negb (len d =? 0)
                          then Spec.Escaped d p c else c = p)
              (Spec.survivors fl input) contents).
Proof.
  split.
  - exists (Spec.content fl d line). split.
    + apply written_processLine_wrapped.
    + apply content_spec.
  - exists (map (Spec.content fl d) (Spec.survivors fl input)). split.
    + rewrite run_survivors. f_equal.
      induction (Spec.survivors fl input) as [|p ps IH]; [reflexivity|].
      cbn [map flat_map]. now rewrite IH.
    + induction (Spec.survivors fl input) as [|p ps IH]; constructor.
      * apply content_spec.
      * exact IH.
Qed.

(** ** The end of the stream *)

Lemma records_join sep rs f :
  Forall (Spec.sep_free sep) rs -> Spec.sep_free sep f ->
  Spec.records sep (Spec.join sep rs f) =
  match f with [] => rs | _ => rs ++ [f] end.
Proof.
  intros Hrs Hf. unfold Spec.records.
  now rewrite split_records_unique by assumption.
Qed.

Lemma sep_free_nil sep : Spec.sep_free sep [].
Proof. intros []. Qed.

Lemma Forall_sep_free_app sep rs p :
  Forall (Spec.sep_free sep) rs -> Spec.sep_free sep p ->
  Forall (Spec.sep_free sep) (rs ++ [p]).
Proof. intros Hrs Hp. apply Forall_app. split; [exact Hrs | now constructor]. Qed.

Lemma emit_terminal_empty fl d r :
  len (Spec.processed fl r) = 0 -> Spec.emit_terminal fl d r = [].
Proof. unfold Spec.emit_terminal. now intros ->. Qed.

Lemma drain_without_fragment fl d rs :
  forall pend f,
    Spec.drain fl d pend rs f =
    Spec.drain fl d pend rs [] ++ Spec.emit_terminal fl d f.
Proof.
  induction rs as [|r rs IH]; intros pend f; cbn [Spec.drain].
  - now rewrite emit_terminal_nil, app_nil_r.
  - now rewrite IH, app_assoc.
Qed.

(** C2: the last record of a stream is dropped when it is empty after
    the optional trimming, whatever the flags.  When the stream ends with
    a separator the last record is the one before it, and the output is
    that of the records before it alone; when the stream ends without a
    separator the last record is the trailing fragment, and the output is
    that of the stream without it.  A stream made of one separator byte
    and the empty stream produce no output. *)
Theorem C2_empty_last_record_dropped (fl : Flags) (d : bytes)
    (rs : list bytes) (l : bytes) :
  Forall (Spec.sep_free (delimByte fl)) rs ->
  Spec.sep_free (delimByte fl) l ->
  len (Spec.processed fl l) = 0 ->
  (Spec.records (delimByte fl) (Spec.join (delimByte fl) (rs ++ [l]) []) =
     rs ++ [l] /\
   run fl d (Spec.join (delimByte fl) (rs ++ [l]) []) =
     Some (flat_map (Spec.emit_interior fl d) rs)) /\
  ((l <> [] ->
    Spec.records (delimByte fl) (Spec.join (delimByte fl) rs l) = rs ++ [l]) /\
   run fl d (Spec.join (delimByte fl) rs l) =
     run fl d (Spec.join (delimByte fl) rs [])) /\
  run fl d [delimByte fl] = Some [] /\
  run fl d [] = Some [].
Proof.
  intros Hrs Hl Hempty.
  pose proof (sep_free_nil (delimByte fl)) as Hnil.
  pose proof (Forall_sep_free_app _ _ _ Hrs Hl) as Hrsl.
  split; [split | split; [split | split]].
  - now rewrite records_join.
  - rewrite run_join, drain_last by assumption.
    now rewrite emit_terminal_empty, emit_terminal_nil, !app_nil_r.
  - intros Hne. rewrite records_join by assumption.
    destruct l; [congruence | reflexivity].
  - rewrite !run_join by assumption. f_equal.
    rewrite drain_without_fragment, emit_terminal_empty by assumption.
    apply app_nil_r.
  - change [delimByte fl] with (Spec.join (delimByte fl) [[]] []).
    rewrite run_join; [|repeat constructor; exact Hnil | exact Hnil].
    cbn [Spec.drain]. now rewrite emit_terminal_nil.
  - change [] with (Spec.join (delimByte fl) [] []).
    rewrite run_join; [|constructor | exact Hnil].
    cbn [Spec.drain]. now rewrite emit_terminal_nil.
Qed.

Lemma C2_witness :
  (Forall (Spec.sep_free (delimByte defaultFlags)) [B "hello"] /\
   Spec.sep_free (delimByte defaultFlags) [] /\
   len (Spec.processed defaultFlags []) = 0) /\
  run defaultFlags [34] (B "hello" ++ [10; 10]) =
  Some ([34] ++ B "hello" ++ [34; 10]).
Proof.
  assert (H1 : Forall (Spec.sep_free (delimByte defaultFlags)) [B "hello"]).
  { repeat constructor. vm_compute. intuition discriminate. }
  assert (H2 : Spec.sep_free (delimByte defaultFlags) []).
  { intros []. }
  assert (H3 : len (Spec.processed defaultFlags []) = 0).
  { reflexivity. }
  split; [auto|].
  destruct (C2_empty_last_record_dropped defaultFlags [34] [B "hello"] []
              H1 H2 H3) as [[_ H] _].
  exact H.
Defined.

Lemma emit_terminal_skipEmpty fl d b r :
  Spec.emit_terminal (with_skipEmpty b fl) d r = Spec.emit_terminal fl d r.
Proof. reflexivity. Qed.

Lemma emit_terminal_nonempty fl d r :
  len (Spec.processed fl r) <> 0 ->
  Spec.emit_terminal fl d r = Spec.wrapped fl d (Spec.processed fl r).
Proof.
  unfold Spec.emit_terminal. intros H.
  destruct (len (Spec.processed fl r) =? 0) eqn:E; [blia | reflexivity].
Qed.

(** C6, as stated, fails when [-s] is set: the input made of one space
    is not empty and has no trailing separator, yet nothing is written,
    because its only fragment is empty after the trimming. *)
Lemma C6_counterexample :
  ~ (forall fl d input,
        input <> [] ->
        last input (delimByte fl) <> delimByte fl ->
        run fl d input <> Some []).
Proof.
  intros H.
  apply (H {| delimiterArg := [34]; stripWS := true; skipEmpty := false;
              escapeDelim := false; nullTerminated := false |}
           [34] [32]).
  - discriminate.
  - discriminate.
  - reflexivity.
Qed.

(** C6, amended: the round of the loop that meets the end of the stream puts
    the record still held back and then the fragment read last, which has
    no separator after it, under the same rule: each is trimmed when [-s]
    is set, dropped when empty and written otherwise, the held-back
    record first.  The rule does not look at [-e].  For a whole stream
    this gives: the records before the held-back one are interior, and a
    stream that ends without a separator and whose fragment is not empty
    after the optional trimming ends its output with that fragment
    wrapped; without [-s] this is so of every stream that does not end
    with a separator. *)
Theorem C6_end_of_stream (fl : Flags) (d : bytes) (st : State)
    (rs : list bytes) (p f : bytes) :
  Forall (Spec.sep_free (delimByte fl)) rs ->
  Spec.sep_free (delimByte fl) p ->
  Spec.sep_free (delimByte fl) f ->
  unread st = f ->
  (exists st',
      iteration fl d st = Break st' /\
      written (sink st') =
        written (sink st) ++
        (match pending st with
         | Some q => Spec.emit_terminal fl d q | None => [] end)
        ++ Spec.emit_terminal fl d f) /\
  (forall b q,
      Spec.emit_terminal (with_skipEmpty b fl) d q =
      if len (Spec.processed fl q) =? 0 then []
      else Spec.wrapped fl d (Spec.processed fl q)) /\
  run fl d (Spec.join (delimByte fl) (rs ++ [p]) f) =
    Some (flat_map (Spec.emit_interior fl d) rs
          ++ Spec.emit_terminal fl d p ++ Spec.emit_terminal fl d f) /\
  run fl d f = Some (Spec.emit_terminal fl d f) /\
  (len (Spec.processed fl f) <> 0 ->
   exists out,
     run fl d (Spec.join (delimByte fl) rs f) =
     Some (out ++ Spec.wrapped fl d (Spec.processed fl f))) /\
  (stripWS fl = false -> f <> [] ->
   exists out,
     run fl d (Spec.join (delimByte fl) rs f) =
     Some (out ++ Spec.wrapped fl d f)).
Proof.
  intros Hrs Hp Hf Hu.
  pose proof (Forall_sep_free_app _ _ _ Hrs Hp) as Hrsp.
  assert (Hlast : forall g, len (Spec.processed fl g) <> 0 ->
                            Spec.sep_free (delimByte fl) g ->
            exists out,
              run fl d (Spec.join (delimByte fl) rs g) =
              Some (out ++ Spec.wrapped fl d (Spec.processed fl g))).
  { intros g Hg Hfree. rewrite run_join by assumption.
    rewrite drain_without_fragment, emit_terminal_nonempty by assumption.
    eexists. reflexivity. }
  split; [|split; [|split; [|split; [|split]]]].
  - apply iteration_eof; assumption.
  - intros b q. reflexivity.
  - rewrite run_join, drain_last by assumption. reflexivity.
  - change f with (Spec.join (delimByte fl) [] f) at 1.
    rewrite run_join; [reflexivity | constructor | assumption].
  - intros Hne. apply Hlast; assumption.
  - intros Hs Hne.
    assert (Hpf : Spec.processed fl f = f)
      by (unfold Spec.processed; now rewrite Hs).
    destruct (Hlast f) as [out Hout]; [|assumption|].
    + rewrite Hpf. destruct f as [|x f']; [congruence|].
      rewrite len_cons. pose proof (len_nonneg f'). lia.
    + exists out. rewrite Hout, Hpf. reflexivity.
Qed.

Lemma C6_witness :
  run defaultFlags [34] (B "hello") = Some ([34] ++ B "hello" ++ [34; 10]) /\
  run defaultFlags [34] (B "a" ++ [10] ++ B "b" ++ [10] ++ B "c") =
  Some ([34] ++ B "a" ++ [34; 10] ++ [34] ++ B "b" ++ [34; 10]
        ++ [34] ++ B "c" ++ [34; 10]).
Proof.
  assert (H1 : Forall (Spec.sep_free (delimByte defaultFlags)) [B "a"]).
  { repeat constructor. vm_compute. intuition discriminate. }
  assert (H2 : Spec.sep_free (delimByte defaultFlags) (B "b")).
  { vm_compute. intuition discriminate. }
  assert (H3 : Spec.sep_free (delimByte defaultFlags) (B "c")).
  { vm_compute. intuition discriminate. }
  assert (H4 : Spec.sep_free (delimByte defaultFlags) (B "hello")).
  { vm_compute. intuition discriminate. }
  split.
  - destruct (C6_end_of_stream defaultFlags [34] (initial (B "hello"))
                [B "a"] (B "b") (B "hello") H1 H2 H4 eq_refl)
      as (_ & _ & _ & H & _).
    exact H.
  - destruct (C6_end_of_stream defaultFlags [34] (initial (B "c"))
                [B "a"] (B "b") (B "c") H1 H2 H3 eq_refl)
      as (_ & _ & H & _).
    exact H.
Defined.

(** ** The lookahead buffer *)

Lemma removelast_snoc {A} (l : list A) x : removelast (l ++ [x]) = l.
Proof. apply removelast_last. Qed.

Lemma last_snoc {A} (l : list A) x d : last (l ++ [x]) d = x.
Proof. apply last_last. Qed.





(** ** Determinism *)

(** C10: the output of a run is a function of the input bytes and the
    flags alone.  [main] ends on every input; any two executions of
    [main] on the same flags and input end alike, whatever bound each was
    given; and two executions of the loop that start with the same unread
    input, the same record held back and the same bytes written have
    written the same bytes when they end, whatever the reusable output
    buffer held at the start and whatever bounds they were given. *)
Theorem C10_deterministic (fl : Flags) (input : bytes) :
  (exists e, main fl input = Some e) /\
  (forall fuel1 fuel2 e1 e2,
      main_fuel fuel1 fl input = Some e1 ->
      main_fuel fuel2 fl input = Some e2 -> e1 = e2) /\
  (forall d st1 st2 fuel1 fuel2 st1' st2',
      unread st1 = unread st2 ->
      pending st1 = pending st2 ->
      written (sink st1) = written (sink st2) ->
      loop fl d fuel1 st1 = Some st1' ->
      loop fl d fuel2 st2 = Some st2' ->
      written (sink st1') = written (sink st2')).
Proof.
  split; [|split].
  - rewrite main_run.
    destruct (parseDelimiter (delimiterArg fl)) as [d [e|]];
      [eexists; reflexivity|].
    rewrite run_drain. eexists. reflexivity.
  - intros fuel1 fuel2 e1 e2. unfold main_fuel.
    destruct (parseDelimiter (delimiterArg fl)) as [d [e|]]; [congruence|].
    destruct (loop fl d fuel1 (initial input)) as [s1|] eqn:E1; [|discriminate].
    destruct (loop fl d fuel2 (initial input)) as [s2|] eqn:E2; [|discriminate].
    intros [= <-] [= <-]. f_equal.
    rewrite (loop_written _ _ _ _ _ E1), (loop_written _ _ _ _ _ E2).
    reflexivity.
  - intros d st1 st2 fuel1 fuel2 st1' st2' Hu Hp Hw H1 H2.
    rewrite (loop_written _ _ _ _ _ H1), (loop_written _ _ _ _ _ H2).
    now rewrite Hu, Hp, Hw.
Qed.

Lemma C10_witness :
  exists e,
    main defaultFlags (B "a" ++ [10]) = Some e /\
    main_fuel 7 defaultFlags (B "a" ++ [10]) = Some e.
Proof.
  destruct (C10_deterministic defaultFlags (B "a" ++ [10]))
    as ([e He] & H & _).
  exists e. split; [exact He|].
  assert (E7 : main_fuel 7 defaultFlags (B "a" ++ [10]) =
               Some (ExitOK ([34] ++ B "a" ++ [34; 10]))) by reflexivity.
  rewrite E7. f_equal.
  exact (H 7%nat (S (length (B "a" ++ [10]))) _ e E7 He).
Defined.

(** ** Interior records *)

Lemma match_snoc {A B} (l : list A) (x : A) (a b : B) :
  match l ++ [x] with [] => a | _ :: _ => b end = b.
Proof. destruct l; reflexivity. Qed.

(** The run agrees with the drop policy of the specification, every
    record but the last being interior, unless the stream ends without a
    separator, skip-empty is off and the record before the trailing
    fragment is empty after the optional trimming. *)
Lemma run_by_policy fl d rs f :
  Forall (Spec.sep_free (delimByte fl)) rs ->
  Spec.sep_free (delimByte fl) f ->
  f = [] \/ rs = [] \/ len (Spec.processed fl (last rs [])) <> 0
  \/ skipEmpty fl = true ->
  run fl d (Spec.join (delimByte fl) rs f) =
  Some (Spec.output_by_policy fl d (delimByte fl)
          (Spec.join (delimByte fl) rs f)).
Proof.
  intros Hrs Hf Hcase. rewrite run_join by assumption. f_equal.
  unfold Spec.output_by_policy. rewrite records_join by assumption.
  destruct rs as [|r0 rs0] using rev_ind.
  - cbn [Spec.drain]. destruct f; [now rewrite emit_terminal_nil | reflexivity].
  - clear IHrs0. rewrite drain_last.
    destruct f as [|x f'].
    + rewrite emit_terminal_nil, app_nil_r, removelast_snoc, last_snoc.
      now rewrite match_snoc.
    + rewrite removelast_snoc, last_snoc, flat_map_app. cbn [flat_map].
      rewrite app_nil_r, <- app_assoc.
      assert (Hsame : Spec.emit_terminal fl d r0 = Spec.emit_interior fl d r0).
      { unfold Spec.emit_terminal, Spec.emit_interior.
        rewrite last_snoc in Hcase.
        destruct Hcase as [Hc | [Hc | [Hc | Hc]]].
        - discriminate.
        - apply app_eq_nil in Hc. destruct Hc; discriminate.
        - destruct (len (Spec.processed fl r0) =? 0) eqn:E; [blia | reflexivity].
        - rewrite Hc, andb_true_r. reflexivity. }
      rewrite Hsame. now rewrite match_snoc.
Qed.

(** In the remaining case the run and the policy part: the record before
    the trailing fragment is written by the policy and not by the run. *)
Lemma run_off_policy fl d rs p f :
  Forall (Spec.sep_free (delimByte fl)) rs ->
  Spec.sep_free (delimByte fl) p ->
  Spec.sep_free (delimByte fl) f ->
  f <> [] -> len (Spec.processed fl p) = 0 -> skipEmpty fl = false ->
  run fl d (Spec.join (delimByte fl) (rs ++ [p]) f) =
    Some (flat_map (Spec.emit_interior fl d) rs ++ Spec.emit_terminal fl d f)
  /\
  Spec.output_by_policy fl d (delimByte fl)
      (Spec.join (delimByte fl) (rs ++ [p]) f) =
    flat_map (Spec.emit_interior fl d) rs
    ++ (d ++ d ++ [10]) ++ Spec.emit_terminal fl d f.
Proof.
  intros Hrs Hp Hf Hne Hempty Hskip.
  pose proof (Forall_sep_free_app _ _ _ Hrs Hp) as Hrsp.
  split.
  - rewrite run_join, drain_last by assumption.
    now rewrite (emit_terminal_empty fl d p Hempty).
  - unfold Spec.output_by_policy. rewrite records_join by assumption.
    destruct f as [|x f']; [congruence|].
    rewrite removelast_snoc, last_snoc, match_snoc, flat_map_app.
    cbn [flat_map]. rewrite app_nil_r, <- app_assoc. do 2 f_equal.
    unfold Spec.emit_interior. rewrite Hempty, Hskip. cbn [Z.eqb andb].
    apply len_zero in Hempty. rewrite Hempty.
    unfold Spec.wrapped, Spec.content.
    destruct (escapeDelim fl && negb (len d =? 0)) eqn:E; [|reflexivity].
    assert (Hd : d <> []).
    { intros ->. change (len [] =? 0) with true in E.
      rewrite andb_false_r in E. discriminate. }
    pose proof (ReplaceAll_Escaped d Hd []) as Hesc.
    inversion Hesc as [s Hno Hs | q s t Hmin Hesc' Heq]; [reflexivity|].
    exfalso. apply app_eq_nil in Heq. destruct Heq as [_ Heq].
    apply app_eq_nil in Heq. destruct Heq as [Heq _]. contradiction.
Qed.

(** C3, on the input ["hello\n\nworld"] with the default flags: the
    stream has the three records ["hello"], [""] and ["world"], the empty
    one is interior and skip-empty is off, so the drop policy keeps it as
    an empty wrapped pair; the program writes the first and the last
    record only.  The round that meets the end of the stream treats the
    record held back as the last line although a fragment follows it. *)
Theorem C3_interior_empty_before_fragment :
  Spec.records 10 (B "hello" ++ [10; 10] ++ B "world") =
    [B "hello"; []; B "world"] /\
  Spec.output_by_policy defaultFlags [34] 10
      (B "hello" ++ [10; 10] ++ B "world") =
    [34] ++ B "hello" ++ [34; 10] ++ [34; 34; 10]
    ++ [34] ++ B "world" ++ [34; 10] /\
  main defaultFlags (B "hello" ++ [10; 10] ++ B "world") =
    Some (ExitOK ([34] ++ B "hello" ++ [34; 10]
                  ++ [34] ++ B "world" ++ [34; 10])).
Proof. repeat split; vm_compute; reflexivity. Qed.

(** ** The resolver's errors *)

(** C4, as stated, fails: the remainder ["80000000"] is made of
    hexadecimal digits only and denotes 2147483648, a value above
    0x10FFFF, yet the resolver answers with the syntax error, because the
    value does not fit the 32 bits it parses into. *)
Lemma C4_counterexample :
  ~ (forall s v,
        Spec.base16_value s = Some v ->
        v < 0 \/ 0x10FFFF < v ->
        Spec.DelimiterOutOfRange (parseDelimiter (B "0x" ++ s))).
Proof.
  intros H.
  destruct (H (B "80000000") 2147483648 eq_refl (or_intror eq_refl))
    as [arg Harg].
  vm_compute in Harg. discriminate.
Qed.

(** C4, amended: on a token [0x]+[s] the resolver answers with
    [InvalidDelimiterSyntax] when [s] is no base-16 integer (an optional
    sign, then one or more hexadecimal digits) or denotes a value outside
    the signed 32-bit range; with [DelimiterOutOfRange] when [s] denotes
    a value that fits in 32 bits and lies outside [0, 0x10FFFF]; and
    without error otherwise.  The resolver has no other error: a token it
    rejects begins with [0x] and is rejected with one of the two. *)
Theorem C4_resolver_errors (arg s : bytes) (e : DelimiterError) :
  (match Spec.base16_value s with
   | None => Spec.InvalidDelimiterSyntax (parseDelimiter (B "0x" ++ s))
   | Some v =>
       if Spec.fits_int32 v then
         if (v <? 0) || (0x10FFFF <? v)
         then Spec.DelimiterOutOfRange (parseDelimiter (B "0x" ++ s))
         else snd (parseDelimiter (B "0x" ++ s)) = None
       else Spec.InvalidDelimiterSyntax (parseDelimiter (B "0x" ++ s))
   end) /\
  (snd (parseDelimiter arg) = Some e ->
   (exists rest, arg = B "0x" ++ rest) /\
   (Spec.InvalidDelimiterSyntax (parseDelimiter arg) \/
    Spec.DelimiterOutOfRange (parseDelimiter arg))).
Proof.
  split.
  - rewrite parseDelimiter_hex.
    destruct (Spec.base16_value s) as [v|].
    + destruct (Spec.fits_int32 v).
      * destruct ((v <? 0) || (0x10FFFF <? v)); [|reflexivity].
        eexists. reflexivity.
      * eexists _, _. reflexivity.
    + eexists _, _. reflexivity.
  - intros He.
    destruct (Strings.HasPrefix arg (B "0x")) eqn:Ep.
    + destruct (HasPrefix_true _ _ Ep) as [rest ->].
      split; [eexists; reflexivity|].
      rewrite parseDelimiter_prefixed in *.
      destruct (strconv.ParseInt rest 16 32) as [value [ne|]].
      * left. eexists _, _. reflexivity.
      * destruct ((value <? 0) || (0x10FFFF <? value)); [|discriminate].
        right. eexists. reflexivity.
    + rewrite parseDelimiter_literal in He by assumption. discriminate.
Qed.

Lemma C4_witness :
  snd (parseDelimiter (B "0xGG")) =
    Some (InvalidHexValue (B "0xGG") (strconv.syntaxError "ParseInt" (B "GG")))
  /\ Spec.InvalidDelimiterSyntax (parseDelimiter (B "0xGG"))
  /\ Spec.DelimiterOutOfRange (parseDelimiter (B "0x110000"))
  /\ Spec.InvalidDelimiterSyntax (parseDelimiter (B "0x80000000")).
Proof.
  split; [reflexivity|]. split; [|split].
  - destruct (C4_resolver_errors (B "0xGG") (B "GG")
                (InvalidHexValue (B "0xGG")
                   (strconv.syntaxError "ParseInt" (B "GG"))))
      as [_ H].
    destruct (H eq_refl) as [_ [Hs | [a Ha]]]; [exact Hs|].
    vm_compute in Ha. discriminate.
  - exact (proj1 (C4_resolver_errors [] (B "110000")
                    (OutOfUnicodeRange []))).
  - exact (proj1 (C4_resolver_errors [] (B "80000000")
                    (OutOfUnicodeRange []))).
Defined.

(** ** The resolved code point *)

(** C5, as stated, fails on the surrogates: ["D800"] denotes 0xD800,
    which lies in [0, 0x10FFFF], but the text the resolver returns
    decodes to U+FFFD, not to 0xD800. *)
Lemma C5_counterexample :
  ~ (forall s v,
        Spec.base16_value s = Some v ->
        0 <= v <= 0x10FFFF ->
        exists t,
          parseDelimiter (B "0x" ++ s) = (t, None) /\
          fst (utf8.DecodeRune t) = v).
Proof.
  intros H.
  destruct (H (B "D800") 0xD800 eq_refl) as (t & Ht & Hv); [lia|].
  vm_compute in Ht. injection Ht as <-.
  vm_compute in Hv. discriminate.
Qed.

(** C5, amended: when the remainder [s] of a token [0x]+[s] denotes a
    value [v] in [0, 0x10FFFF] that is no surrogate (not in
    [0xD800, 0xDFFF]), the resolver succeeds and returns the UTF-8 text
    of the code point [v], which decodes to [v] alone; when [v] is a
    surrogate it succeeds and returns the text of U+FFFD. *)
Theorem C5_resolved_code_point (s : bytes) (v : Z) :
  Spec.base16_value s = Some v ->
  0 <= v <= 0x10FFFF ->
  (Spec.is_surrogate v = false ->
   parseDelimiter (B "0x" ++ s) = (Spec.code_point_text v, None) /\
   utf8.DecodeRune (Spec.code_point_text v) =
     (v, len (Spec.code_point_text v))) /\
  (Spec.is_surrogate v = true ->
   parseDelimiter (B "0x" ++ s) = (Spec.code_point_text 0xFFFD, None)).
Proof.
  intros Hs Hv.
  assert (Hfit : Spec.fits_int32 v = true).
  { unfold Spec.fits_int32. apply andb_true_iff.
    split; [apply Z.leb_le | apply Z.ltb_lt]; lia. }
  assert (Hin : (v <? 0) || (0x10FFFF <? v) = false).
  { apply orb_false_iff. split; apply Z.ltb_ge; lia. }
  pose proof (parseDelimiter_hex s) as H. rewrite Hs, Hfit, Hin in H.
  split; intros Hsur; rewrite Hsur in H.
  - split; [exact H|].
    rewrite <- (app_nil_r (Spec.code_point_text v)) at 1.
    now apply DecodeRune_text.
  - exact H.
Qed.

Lemma C5_witness :
  parseDelimiter (B "0x22") = ([34], None) /\
  parseDelimiter (B "0x27") = ([39], None) /\
  parseDelimiter (B "0xD800") = ([0xEF; 0xBF; 0xBD], None).
Proof.
  split; [|split].
  - exact (proj1 (proj1 (C5_resolved_code_point (B "22") 0x22 eq_refl
                           ltac:(lia)) eq_refl)).
  - exact (proj1 (proj1 (C5_resolved_code_point (B "27") 0x27 eq_refl
                           ltac:(lia)) eq_refl)).
  - exact (proj2 (C5_resolved_code_point (B "D800") 0xD800 eq_refl
                    ltac:(lia)) eq_refl).
Defined.

(** ** Literal tokens *)

(** C7: a token that does not begin with [0x] is returned as it is,
    without error; so are the empty token and the token ["[]"]. *)
Theorem C7_literal_token (arg : bytes) :
  (forall rest, arg <> B "0x" ++ rest) ->
  parseDelimiter arg = (arg, None).
Proof.
  intros H. apply parseDelimiter_literal.
  destruct (Strings.HasPrefix arg (B "0x")) eqn:E; [|reflexivity].
  destruct (HasPrefix_true _ _ E) as [rest Hrest].
  exfalso. exact (H rest Hrest).
Qed.

Lemma C7_witness :
  parseDelimiter [] = ([], None) /\
  parseDelimiter (B "[]") = (B "[]", None).
Proof.
  split.
  - apply (C7_literal_token []). intros rest. discriminate.
  - apply (C7_literal_token (B "[]")). intros rest. discriminate.
Defined.

(** ** Trimming and emptiness *)

Lemma content_nil fl d : Spec.content fl d [] = [].
Proof.
  pose proof (content_spec fl d []) as H.
  destruct (escapeDelim fl && negb (len d =? 0)) eqn:E; [|exact H].
  inversion H as [s Hno Hs | p s t Hmin Hesc Heq]; [reflexivity|].
  exfalso. apply app_eq_nil in Heq. destruct Heq as [_ Heq].
  apply app_eq_nil in Heq. destruct Heq as [-> _].
  change (len [] =? 0) with true in E. rewrite andb_false_r in E.
  discriminate.
Qed.

Lemma wrapped_nil fl d : Spec.wrapped fl d [] = d ++ d ++ [10].
Proof. unfold Spec.wrapped. now rewrite content_nil. Qed.

Lemma emit_interior_empty fl d r :
  len (Spec.processed fl r) = 0 ->
  Spec.emit_interior fl d r = if skipEmpty fl then [] else d ++ d ++ [10].
Proof.
  intros H. unfold Spec.emit_interior. rewrite H.
  apply len_zero in H. rewrite H. cbn [Z.eqb andb].
  destruct (skipEmpty fl); [reflexivity | apply wrapped_nil].
Qed.

Lemma emit_interior_nonempty fl d r :
  len (Spec.processed fl r) <> 0 ->
  Spec.emit_interior fl d r = Spec.wrapped fl d (Spec.processed fl r).
Proof.
  intros H. unfold Spec.emit_interior.
  destruct (len (Spec.processed fl r) =? 0) eqn:E; [blia | reflexivity].
Qed.

(** A record with two records or more after it is interior: the output
    is that of the records before it, its own, and that of the rest of
    the stream. *)
Lemma run_interior_record fl d rs r p rs2 f :
  Forall (Spec.sep_free (delimByte fl)) (rs ++ r :: p :: rs2) ->
  Spec.sep_free (delimByte fl) f ->
  run fl d (Spec.join (delimByte fl) (rs ++ r :: p :: rs2) f) =
  option_map
    (fun out => flat_map (Spec.emit_interior fl d) rs
                ++ Spec.emit_interior fl d r ++ out)
    (run fl d (Spec.join (delimByte fl) (p :: rs2) f)).
Proof.
  intros Hall Hf.
  assert (Htail : Forall (Spec.sep_free (delimByte fl)) (p :: rs2)).
  { apply Forall_app in Hall. destruct Hall as [_ Hall].
    now inversion Hall. }
  rewrite !run_join by assumption. cbn [option_map]. f_equal.
  rewrite drain_interior_prefix. reflexivity.
Qed.

(** C8: a record is trimmed before it is classified, at each of the
    three places where the loop classifies one.  A record [r] that is
    followed by another terminated record contributes its interior
    emission to the output; the last terminated record contributes its
    terminal emission, whether the stream ends there or goes on with an
    unterminated fragment; and the fragment, also when it is the whole
    stream, contributes its terminal emission.  For every record [x] the
    two emissions are computed from [TrimSpace x] with [-s] and from [x]
    without: the record is dropped or not by the length of that, and that
    is what is written between the delimiters.  So with [-s] a record
    made of white space only is empty: it is dropped at the end of the
    stream, and as an interior record it is dropped under [-e] and
    written as an empty wrapped pair otherwise; a record with white space
    around text that begins and ends with a character other than white
    space is written as that text.  Without [-s] nothing is trimmed: the
    record is empty only when it has no byte, and a record that is not
    empty, white space or not, is written as it is. *)
Theorem C8_strip_before_classification (fl : Flags) (d : bytes)
    (rs rs2 : list bytes) (r p f : bytes) :
  Forall (Spec.sep_free (delimByte fl)) (rs ++ r :: p :: rs2) ->
  Spec.sep_free (delimByte fl) f ->
  run fl d (Spec.join (delimByte fl) (rs ++ r :: p :: rs2) f) =
    option_map
      (fun out => flat_map (Spec.emit_interior fl d) rs
                  ++ Spec.emit_interior fl d r ++ out)
      (run fl d (Spec.join (delimByte fl) (p :: rs2) f)) /\
  run fl d (Spec.join (delimByte fl) (rs ++ [r]) []) =
    Some (flat_map (Spec.emit_interior fl d) rs
          ++ Spec.emit_terminal fl d r) /\
  (stripWS fl = true ->
   Spec.processed fl r = Bytes.TrimSpace r /\
   (Spec.blank r ->
    Spec.emit_terminal fl d r = [] /\
    Spec.emit_interior fl d r =
      if skipEmpty fl then [] else d ++ d ++ [10]) /\
   (forall pre core post,
       Spec.blank pre -> Spec.blank post -> Spec.edged core ->
       r = pre ++ core ++ post ->
       Spec.processed fl r = core /\
       Spec.emit_terminal fl d r = Spec.wrapped fl d core /\
       Spec.emit_interior fl d r = Spec.wrapped fl d core)) /\
  (stripWS fl = false ->
   Spec.processed fl r = r /\
   (r = [] ->
    Spec.emit_terminal fl d r = [] /\
    Spec.emit_interior fl d r =
      if skipEmpty fl then [] else d ++ d ++ [10]) /\
   (r <> [] ->
    Spec.emit_terminal fl d r = Spec.wrapped fl d r /\
    Spec.emit_interior fl d r = Spec.wrapped fl d r)) /\
  (* the last terminated record and the fragment after it, the fragment
     that is the whole stream *)
  (forall (ts : list bytes) (l t : bytes),
      Forall (Spec.sep_free (delimByte fl)) ts ->
      Spec.sep_free (delimByte fl) l -> Spec.sep_free (delimByte fl) t ->
      run fl d (Spec.join (delimByte fl) (ts ++ [l]) t) =
        Some (flat_map (Spec.emit_interior fl d) ts
              ++ Spec.emit_terminal fl d l ++ Spec.emit_terminal fl d t) /\
      run fl d t = Some (Spec.emit_terminal fl d t)) /\
  (* every record: the emissions, told from the trimmed bytes *)
  (forall x : bytes,
      Spec.emit_terminal fl d x =
        (if len (if stripWS fl then Bytes.TrimSpace x else x) =? 0 then []
         else d ++ Spec.content fl d
                     (if stripWS fl then Bytes.TrimSpace x else x)
                ++ d ++ [10]) /\
      Spec.emit_interior fl d x =
        (if (len (if stripWS fl then Bytes.TrimSpace x else x) =? 0)
            && skipEmpty fl then []
         else d ++ Spec.content fl d
                     (if stripWS fl then Bytes.TrimSpace x else x)
                ++ d ++ [10])) /\
  (* every record, with [-s] and without *)
  (forall x : bytes,
      (stripWS fl = true ->
       (Spec.blank x ->
        Spec.emit_terminal fl d x = [] /\
        Spec.emit_interior fl d x =
          if skipEmpty fl then [] else d ++ d ++ [10]) /\
       (forall pre core post,
           Spec.blank pre -> Spec.blank post -> Spec.edged core ->
           x = pre ++ core ++ post ->
           Spec.emit_terminal fl d x = Spec.wrapped fl d core /\
           Spec.emit_interior fl d x = Spec.wrapped fl d core)) /\
      (stripWS fl = false ->
       (x = [] ->
        Spec.emit_terminal fl d x = [] /\
        Spec.emit_interior fl d x =
          if skipEmpty fl then [] else d ++ d ++ [10]) /\
       (x <> [] ->
        Spec.emit_terminal fl d x = Spec.wrapped fl d x /\
        Spec.emit_interior fl d x = Spec.wrapped fl d x))).
Proof.
  intros Hall Hf.
  assert (Hrs : Forall (Spec.sep_free (delimByte fl)) rs)
    by (apply Forall_app in Hall; tauto).
  assert (Hr : Spec.sep_free (delimByte fl) r).
  { apply Forall_app in Hall. destruct Hall as [_ Hall]. now inversion Hall. }
  assert (Hon : forall x, stripWS fl = true ->
            (Spec.blank x ->
             Spec.emit_terminal fl d x = [] /\
             Spec.emit_interior fl d x =
               if skipEmpty fl then [] else d ++ d ++ [10]) /\
            (forall pre core post,
                Spec.blank pre -> Spec.blank post -> Spec.edged core ->
                x = pre ++ core ++ post ->
                Spec.processed fl x = core /\
                Spec.emit_terminal fl d x = Spec.wrapped fl d core /\
                Spec.emit_interior fl d x = Spec.wrapped fl d core)).
  { intros x Hs.
    assert (Hp : forall y, Spec.processed fl y = Bytes.TrimSpace y)
      by (intros y; unfold Spec.processed; now rewrite Hs).
    split.
    + intros Hb.
      assert (H0 : len (Spec.processed fl x) = 0)
        by (rewrite Hp, TrimSpace_blank by assumption; reflexivity).
      split; [now apply emit_terminal_empty | now apply emit_interior_empty].
    + intros pre core post H1 H2 Hcore ->.
      assert (Hc : Spec.processed fl (pre ++ core ++ post) = core)
        by (rewrite Hp; now apply TrimSpace_edged).
      assert (Hne : len (Spec.processed fl (pre ++ core ++ post)) <> 0).
      { rewrite Hc. destruct Hcore as [(c & rest & _ & ->) _].
        rewrite len_app. pose proof (code_point_text_len c).
        pose proof (len_nonneg rest). lia. }
      rewrite emit_terminal_nonempty, emit_interior_nonempty by assumption.
      now rewrite Hc. }
  assert (Hoff : forall x, stripWS fl = false ->
            Spec.processed fl x = x /\
            (x = [] ->
             Spec.emit_terminal fl d x = [] /\
             Spec.emit_interior fl d x =
               if skipEmpty fl then [] else d ++ d ++ [10]) /\
            (x <> [] ->
             Spec.emit_terminal fl d x = Spec.wrapped fl d x /\
             Spec.emit_interior fl d x = Spec.wrapped fl d x)).
  { intros x Hs.
    assert (Hp : forall y, Spec.processed fl y = y)
      by (intros y; unfold Spec.processed; now rewrite Hs).
    split; [apply Hp | split].
    + intros ->.
      assert (H0 : len (Spec.processed fl []) = 0) by now rewrite Hp.
      split; [now apply emit_terminal_empty | now apply emit_interior_empty].
    + intros Hne.
      assert (H0 : len (Spec.processed fl x) <> 0).
      { rewrite Hp. destruct x as [|c x']; [congruence|].
        rewrite len_cons. pose proof (len_nonneg x'). lia. }
      rewrite emit_terminal_nonempty, emit_interior_nonempty by assumption.
      now rewrite Hp. }
  split; [|split; [|split; [|split; [|split; [|split]]]]].
  - now apply run_interior_record.
  - rewrite run_join, drain_last;
      [| now apply Forall_sep_free_app | apply sep_free_nil].
    now rewrite emit_terminal_nil, app_nil_r.
  - intros Hs. split; [unfold Spec.processed; now rewrite Hs|].
    exact (Hon r Hs).
  - exact (Hoff r).
  - intros ts l t Hts Hl Ht. split.
    + rewrite run_join, drain_last by (auto using Forall_sep_free_app).
      reflexivity.
    + change t with (Spec.join (delimByte fl) [] t) at 1.
      now rewrite run_join by auto.
  - intros x. split; reflexivity.
  - intros x. split.
    + intros Hs. destruct (Hon x Hs) as [Hb He]. split; [exact Hb|].
      intros pre core post H1 H2 H3 H4.
      destruct (He pre core post H1 H2 H3 H4) as (_ & Ht & Hi). now split.
    + intros Hs. destruct (Hoff x Hs) as (_ & H0 & H1). now split.
Qed.

Lemma C8_witness :
  run (with_skipEmpty true
         {| delimiterArg := [34]; stripWS := true; skipEmpty := false;
            escapeDelim := false; nullTerminated := false |})
      [34] (B "a" ++ [10] ++ B "  " ++ [10] ++ B "b" ++ [10]) =
  Some ([34] ++ B "a" ++ [34; 10] ++ [34] ++ B "b" ++ [34; 10]) /\
  run {| delimiterArg := [34]; stripWS := true; skipEmpty := false;
         escapeDelim := false; nullTerminated := false |}
      [34] (B "a" ++ [10] ++ B "  b  ") =
  Some ([34] ++ B "a" ++ [34; 10] ++ [34] ++ B "b" ++ [34; 10]).
Proof.
  set (fl0 := {| delimiterArg := [34]; stripWS := true; skipEmpty := false;
                 escapeDelim := false; nullTerminated := false |}).
  set (fl := with_skipEmpty true fl0).
  assert (H1 : Forall (Spec.sep_free (delimByte fl))
                 ([B "a"] ++ B "  " :: B "b" :: []))
    by (cbn [app]; repeat constructor; vm_compute; intuition discriminate).
  assert (H2 : Spec.sep_free (delimByte fl) []) by (intros []).
  assert (Hb : Spec.blank (B "  ")).
  { apply blank_ascii. change (B "  ") with [32; 32].
    repeat constructor; unfold Spec.ascii_space; lia. }
  split.
  - destruct (C8_strip_before_classification fl [34] [B "a"] [] (B "  ")
                (B "b") [] H1 H2) as (H & _ & Hstrip & _).
    destruct (Hstrip eq_refl) as (_ & Hblank & _).
    change (B "a" ++ [10] ++ B "  " ++ [10] ++ B "b" ++ [10])
      with (Spec.join (delimByte fl) ([B "a"] ++ B "  " :: B "b" :: []) []).
    rewrite H. rewrite (proj2 (Hblank Hb)). reflexivity.
  - destruct (C8_strip_before_classification fl0 [34] [B "a"] [] (B "  ")
                (B "b") [] H1 H2) as (_ & _ & _ & _ & Hlast & _ & Hevery).
    assert (Ha : Spec.sep_free (delimByte fl0) (B "a"))
      by (vm_compute; intuition discriminate).
    assert (Ht : Spec.sep_free (delimByte fl0) (B "  b  "))
      by (vm_compute; intuition discriminate).
    destruct (Hlast [] (B "a") (B "  b  ") (Forall_nil _) Ha Ht) as [H _].
    change (B "a" ++ [10] ++ B "  b  ")
      with (Spec.join (delimByte fl0) ([] ++ [B "a"]) (B "  b  ")).
    rewrite H.
    destruct (Hevery (B "  b  ")) as [Hs _].
    destruct (Hs eq_refl) as [_ He].
    assert (Hedge : Spec.edged (B "b")).
    { assert (Hm : Spec.mark 98).
      { split; [split; [lia | reflexivity]|].
        unfold Spec.white_space. lia. }
      split; [exists 98, [] | exists 98, []]; split; auto. }
    rewrite (proj1 (He (B "  ") (B "b") (B "  ") Hb Hb Hedge eq_refl)).
    reflexivity.
Defined.

(** ** Trimming, by example *)

Example trim_ascii :
  Bytes.TrimSpace ([9; 32] ++ B "a b" ++ [32; 13]) = B "a b".
Proof. reflexivity. Qed.

Example trim_unicode :
  Bytes.TrimSpace ([0xE3; 0x80; 0x80] ++ B "a b" ++ [0xC2; 0xA0]) = B "a b" /\
  Bytes.TrimSpace ([32; 0xC3; 0xA9; 32]) = [0xC3; 0xA9] /\
  Bytes.TrimSpace ([0xE2; 0x80; 0x83; 0xE2; 0x82; 0xAC; 0xE2; 0x80; 0xA8]) =
    [0xE2; 0x82; 0xAC].
Proof. repeat split; reflexivity. Qed.

(** Bytes that are no UTF-8 text are no white space. *)
Example trim_invalid :
  Bytes.TrimSpace [32; 0xC2] = [0xC2] /\
  Bytes.TrimSpace [0xA0; 65; 0xA0] = [0xA0; 65; 0xA0].
Proof. split; reflexivity. Qed.

(** ** The examples of the specification *)

Example resolve_examples :
  parseDelimiter (B "0x22") = ([34], None) /\
  parseDelimiter (B "0x27") = ([39], None) /\
  Spec.InvalidDelimiterSyntax (parseDelimiter (B "0xGG")) /\
  Spec.DelimiterOutOfRange (parseDelimiter (B "0x110000")) /\
  parseDelimiter (B "test") = (B "test", None).
Proof.
  repeat split; try reflexivity.
  - eexists _, _. reflexivity.
  - eexists. reflexivity.
Qed.

Example run_two_lines :
  main defaultFlags (B "hello" ++ [10] ++ B "world" ++ [10]) =
  Some (ExitOK ([34] ++ B "hello" ++ [34; 10] ++ [34] ++ B "world" ++ [34; 10])).
Proof. reflexivity. Qed.

Example run_skip_empty :
  main (with_skipEmpty true defaultFlags)
       (B "hello" ++ [10; 10] ++ B "world" ++ [10; 10]) =
  Some (ExitOK ([34] ++ B "hello" ++ [34; 10] ++ [34] ++ B "world" ++ [34; 10])).
Proof. reflexivity. Qed.

Example run_interior_empty_kept :
  main defaultFlags (B "hello" ++ [10; 10] ++ B "world" ++ [10]) =
  Some (ExitOK ([34] ++ B "hello" ++ [34; 10] ++ [34; 34; 10]
                ++ [34] ++ B "world" ++ [34; 10])).
Proof. reflexivity. Qed.

Example run_no_trailing_separator :
  main defaultFlags (B "hello") = Some (ExitOK ([34] ++ B "hello" ++ [34; 10])).
Proof. reflexivity. Qed.

Example run_single_separator : main defaultFlags [10] = Some (ExitOK []).
Proof. reflexivity. Qed.

Example run_escape :
  main {| delimiterArg := [34]; stripWS := false; skipEmpty := false;
          escapeDelim := true; nullTerminated := false |}
       (B "She said " ++ [34] ++ B "hello" ++ [34; 10]) =
  Some (ExitOK ([34] ++ B "She said " ++ [92; 34] ++ B "hello" ++ [92; 34; 34; 10])).
Proof. reflexivity. Qed.

Example run_null_terminated :
  main {| delimiterArg := B "|"; stripWS := false; skipEmpty := false;
          escapeDelim := false; nullTerminated := true |}
       (B "one" ++ [0] ++ B "two" ++ [0] ++ B "three" ++ [0]) =
  Some (ExitOK (B "|one|" ++ [10] ++ B "|two|" ++ [10] ++ B "|three|" ++ [10])).
Proof. reflexivity. Qed.

Example run_strip_blank_only :
  main {| delimiterArg := [34]; stripWS := true; skipEmpty := false;
          escapeDelim := false; nullTerminated := false |}
       (B "   " ++ [10]) =
  Some (ExitOK []).
Proof. reflexivity. Qed.

(* ================================================================= *)
(** * Further properties of the program *)

(** ** The delimiter resolver, on hexadecimal tokens *)

Lemma code_point_text_len_bound v :
  1 <= len (Spec.code_point_text v) <= 4.
Proof.
  unfold Spec.code_point_text.
  destruct (v <? 128), (v <? 2048), (v <? 65536); cbn; lia.
Qed.

(** A hexadecimal token that resolves gives the text of a character. *)
Lemma parseDelimiter_hex_character arg d :
  Strings.HasPrefix arg (B "0x") = true ->
  parseDelimiter arg = (d, None) ->
  exists c, Spec.character c /\ d = Spec.code_point_text c.
Proof.
  intros Hp H. apply HasPrefix_true in Hp. destruct Hp as [s ->].
  rewrite parseDelimiter_hex in H.
  destruct (Spec.base16_value s) as [v|]; [|discriminate].
  destruct (Spec.fits_int32 v); [|discriminate].
  destruct ((v <? 0) || (1114111 <? v)) eqn:Er; [discriminate|].
  injection H as <-.
  destruct (Spec.is_surrogate v) eqn:Es.
  - exists 0xFFFD. split; [|reflexivity]. split; [lia | reflexivity].
  - exists v. split; [|reflexivity]. split; [blia | exact Es].
Qed.



(** X2. The resolved delimiter is empty only for the empty token: no
    hexadecimal token and no other literal gives the empty delimiter,
    the one for which [processLine] does not escape. *)
Theorem empty_delimiter_only_from_empty_token arg d :
  parseDelimiter arg = (d, None) -> (d = [] <-> arg = []).
Proof.
  intros H. split.
  - intros ->. destruct (Strings.HasPrefix arg (B "0x")) eqn:Hp.
    + destruct (parseDelimiter_hex_character arg [] Hp H) as (c & _ & Hc).
      pose proof (code_point_text_len_bound c) as Hl.
      rewrite <- Hc in Hl. cbn in Hl. lia.
    + rewrite parseDelimiter_literal in H by exact Hp. congruence.
  - intros ->. cbn in H. congruence.
Qed.

Lemma empty_delimiter_only_from_empty_token_witness :
  ([] : bytes) = [] <-> ([] : bytes) = [].
Proof.
  apply (empty_delimiter_only_from_empty_token [] []). reflexivity.
Defined.

(** The error of [strconv.ParseInt] names [ParseInt] and the text it
    was given, also when the failure was met in [ParseUint]. *)
Lemma ParseInt_error_names s base bitSize x e :
  strconv.ParseInt s base bitSize = (x, Some e) ->
  strconv.Func e = "ParseInt"%string /\ strconv.Num e = s.
Proof.
  unfold strconv.ParseInt.
  destruct (len s =? 0); [intros H; injection H as _ <-; split; reflexivity|].
  set (sg := if at_ s 0 =? 43 then (false, from s 1)
             else if at_ s 0 =? 45 then (true, from s 1) else (false, s)).
  destruct sg as [neg s'].
  destruct (strconv.ParseUint s' base bitSize) as [un err].
  cbv zeta.
  assert (Hc : forall y e',
             (if negb neg && (un >=? uint64 (Z.shiftl 1 (bitSize - 1)))
              then (int64 (uint64 (Z.shiftl 1 (bitSize - 1)) - 1),
                    Some (strconv.rangeError "ParseInt" s))
              else if neg && (uint64 (Z.shiftl 1 (bitSize - 1)) <? un)
              then (- int64 (uint64 (Z.shiftl 1 (bitSize - 1))),
                    Some (strconv.rangeError "ParseInt" s))
              else ((if neg then int64 (- int64 un) else int64 un), None))
             = (y, Some e') ->
             strconv.Func e' = "ParseInt"%string /\ strconv.Num e' = s).
  { intros y e'.
    destruct (negb neg && (un >=? uint64 (Z.shiftl 1 (bitSize - 1))));
      [intros H; injection H as _ <-; split; reflexivity|].
    destruct (neg && (uint64 (Z.shiftl 1 (bitSize - 1)) <? un));
      [intros H; injection H as _ <-; split; reflexivity|].
    discriminate. }
  destruct err as [e0|]; [|apply Hc].
  destruct (strconv.Err e0); [|apply Hc].
  intros H; injection H as _ <-; split; reflexivity.
Qed.

(** X3. When the resolver fails, the token has the prefix [0x], the
    string returned is empty, and the error is one of two: out of the
    Unicode range, naming the whole token, or an invalid value, naming
    the whole token and wrapping the [ParseInt] error on the text after
    the prefix. *)
Theorem delimiter_error_shape arg d e :
  parseDelimiter arg = (d, Some e) ->
  d = [] /\ Strings.HasPrefix arg (B "0x") = true /\
  (e = OutOfUnicodeRange arg \/
   exists cause,
     e = InvalidHexValue arg cause /\
     strconv.Func cause = "ParseInt"%string /\
     strconv.Num cause = from arg 2).
Proof.
  unfold parseDelimiter.
  destruct (Strings.HasPrefix arg (B "0x")); [|discriminate].
  destruct (strconv.ParseInt (from arg 2) 16 32) as [value [cause|]] eqn:Ep.
  - intros H. injection H as <- <-. repeat split. right.
    exists cause. split; [reflexivity|].
    exact (ParseInt_error_names _ _ _ _ _ Ep).
  - destruct ((value <? 0) || (1114111 <? value)); [|discriminate].
    intros H. injection H as <- <-. repeat split. now left.
Qed.

Lemma delimiter_error_shape_witness :
  ([] : bytes) = [] /\ Strings.HasPrefix (B "0xZZ") (B "0x") = true /\
  (InvalidHexValue (B "0xZZ") (strconv.syntaxError "ParseInt" (B "ZZ")) =
     OutOfUnicodeRange (B "0xZZ") \/
   exists cause,
     InvalidHexValue (B "0xZZ") (strconv.syntaxError "ParseInt" (B "ZZ")) =
       InvalidHexValue (B "0xZZ") cause /\
     strconv.Func cause = "ParseInt"%string /\
     strconv.Num cause = from (B "0xZZ") 2).
Proof.
  apply (delimiter_error_shape (B "0xZZ")). reflexivity.
Defined.

(** *** Letter case *)

Lemma hex_digit_lower c :
  Spec.hex_digit (Text.ascii_lower c) = Spec.hex_digit c.
Proof.
  unfold Text.ascii_lower, Spec.hex_digit.
  destruct ((65 <=? c) && (c <=? 90)) eqn:E; [|reflexivity].
  prop_of_bool.
  repeat match goal with
         | |- context [?a <=? ?b] => destruct (a <=? b) eqn:?
         end;
    cbn [andb]; try reflexivity; try (f_equal; lia); exfalso; blia.
Qed.

Lemma digits_value_lower cs :
  forall acc, Spec.digits_value (map Text.ascii_lower cs) acc =
              Spec.digits_value cs acc.
Proof.
  induction cs as [|c cs IH]; intros acc; cbn [map Spec.digits_value];
    [reflexivity|].
  rewrite hex_digit_lower. destruct (Spec.hex_digit c); [apply IH|reflexivity].
Qed.

Lemma unsigned_value_lower cs :
  Spec.unsigned_value (map Text.ascii_lower cs) = Spec.unsigned_value cs.
Proof.
  destruct cs as [|c cs]; [reflexivity|].
  unfold Spec.unsigned_value. rewrite digits_value_lower. reflexivity.
Qed.

Lemma base16_value_lower s :
  Spec.base16_value (map Text.ascii_lower s) = Spec.base16_value s.
Proof.
  destruct s as [|c cs]; [reflexivity|].
  cbn [map Spec.base16_value].
  assert (Hsign : forall k, (k = 43 \/ k = 45) ->
                            (Text.ascii_lower c =? k) = (c =? k)).
  { intros k Hk. unfold Text.ascii_lower.
    destruct ((65 <=? c) && (c <=? 90)) eqn:E; [|reflexivity].
    prop_of_bool.
    assert ((c + 32 =? k) = false) as -> by (apply Z.eqb_neq; lia).
    symmetry. apply Z.eqb_neq. lia. }
  rewrite (Hsign 43), (Hsign 45) by lia.
  rewrite unsigned_value_lower.
  change (Text.ascii_lower c :: map Text.ascii_lower cs)
    with (map Text.ascii_lower (c :: cs)).
  rewrite unsigned_value_lower. reflexivity.
Qed.

(** X4. The hexadecimal digits of a token are read without regard to
    letter case: a token and its lower-case form resolve to the same
    delimiter, or both fail.  (The prefix itself must be the lower-case
    [0x].) *)
Theorem hex_digits_any_case s :
  fst (parseDelimiter (B "0x" ++ map Text.ascii_lower s)) =
  fst (parseDelimiter (B "0x" ++ s)) /\
  (snd (parseDelimiter (B "0x" ++ map Text.ascii_lower s)) = None <->
   snd (parseDelimiter (B "0x" ++ s)) = None).
Proof.
  rewrite !parseDelimiter_hex, base16_value_lower.
  destruct (Spec.base16_value s) as [v|].
  - destruct (Spec.fits_int32 v).
    + destruct ((v <? 0) || (1114111 <? v)); cbn [fst snd].
      * split; [reflexivity|]. split; discriminate.
      * split; [reflexivity|]. split; reflexivity.
    + cbn [fst snd]. split; [reflexivity|]. split; discriminate.
  - cbn [fst snd]. split; [reflexivity|]. split; discriminate.
Qed.



(** ** Writing a record: escaping *)

Lemma occurs_at_here d p s : Spec.occurs_at d (p ++ d ++ s) (length p).
Proof.
  unfold Spec.occurs_at.
  rewrite skipn_app, skipn_all, Nat.sub_diag. simpl.
  rewrite firstn_app, firstn_all, Nat.sub_diag. simpl. apply app_nil_r.
Qed.

Lemma occurs_at_byte c b l k :
  Spec.occurs_at [c] (b :: l) k ->
  (k = 0%nat /\ b = c) \/ exists k', k = S k' /\ Spec.occurs_at [c] l k'.
Proof.
  destruct k as [|k']; intros H.
  - left. split; [reflexivity|]. unfold Spec.occurs_at in H. simpl in H.
    congruence.
  - right. exists k'. split; [reflexivity | exact H].
Qed.

Lemma Escaped_byte_cons c b l t :
  b <> c -> Spec.Escaped [c] l t -> Spec.Escaped [c] (b :: l) (b :: t).
Proof.
  intros Hb H. inversion H as [s Hno | p s t0 Hmin Hesc]; subst.
  - apply Spec.Escaped_rest. intros k Hk.
    apply occurs_at_byte in Hk. destruct Hk as [[_ Hk] | (k' & _ & Hk)].
    + congruence.
    + exact (Hno k' Hk).
  - apply (Spec.Escaped_next [c] (b :: p) s t0); [|exact Hesc].
    intros k Hk Hocc. cbn [app] in Hocc.
    apply occurs_at_byte in Hocc. destruct Hocc as [[_ Ho] | (k' & -> & Ho)].
    + congruence.
    + apply (Hmin k'); [simpl in Hk; lia | exact Ho].
Qed.

Lemma Escaped_escape_byte c line :
  Spec.Escaped [c] line (Text.escape_byte c line).
Proof.
  induction line as [|b l IH].
  - apply Spec.Escaped_rest. intros k Hk. unfold Spec.occurs_at in Hk.
    rewrite skipn_nil in Hk. discriminate.
  - unfold Text.escape_byte. cbn [flat_map].
    fold (Text.escape_byte c l).
    destruct (b =? c) eqn:E.
    + apply Z.eqb_eq in E. subst b.
      exact (Spec.Escaped_next [c] [] l _ (fun k Hk => ltac:(simpl in Hk; lia))
               IH).
    + apply Z.eqb_neq in E. now apply Escaped_byte_cons.
Qed.

(** X6. With a one-byte delimiter and escaping on, the content written
    is the record with a backslash put before each byte equal to the
    delimiter and every other byte, a backslash included, left as it
    is. *)
Theorem escape_one_byte_delimiter k line c :
  written (processLine k line [c] true) =
  written k ++ Text.frame [c] (Text.escape_byte c line).
Proof.
  rewrite written_processLine.
  change (true && (0 <? len [c])) with true. cbv iota.
  unfold Text.frame. do 2 f_equal.
  assert (Hd : [c] <> []) by discriminate.
  f_equal.
  exact (Escaped_functional [c] line _ (ReplaceAll_Escaped [c] Hd line)
           _ (Escaped_escape_byte c line)).
Qed.

(** *** Records without the delimiter *)

Lemma ReplaceAll_absent line d :
  d <> [] -> Strings.Index line d = -1 ->
  Strings.ReplaceAll line d (backslash ++ d) = line.
Proof.
  intros Hd Hi. unfold Strings.ReplaceAll, Strings.Replace.
  destruct (bytes_eqb d (backslash ++ d) || (-1 =? 0)); [reflexivity|].
  unfold Strings.Count. rewrite (delimiter_len_eqb d Hd).
  cbn [Strings.Count_loop]. rewrite Hi. reflexivity.
Qed.

(** X7. Escaping changes nothing for a record in which the delimiter
    does not occur, and nothing at all when the delimiter is empty: the
    call with the escape flag leaves the writer and the buffer as the
    call without it does. *)
Theorem escape_without_occurrence k line d :
  len d = 0 \/ Strings.Index line d = -1 ->
  processLine k line d true = processLine k line d false.
Proof.
  intros H. unfold processLine. cbn [andb].
  destruct (0 <? len d) eqn:E; [|reflexivity].
  destruct H as [H | H]; [blia|].
  rewrite ReplaceAll_absent; [reflexivity | | exact H].
  intros ->. discriminate.
Qed.

Lemma escape_without_occurrence_witness :
  processLine {| written := []; outputBuf := [] |} (B "plain text") [34] true =
  processLine {| written := []; outputBuf := [] |} (B "plain text") [34] false.
Proof.
  apply escape_without_occurrence. right. reflexivity.
Defined.

(** *** The length of what is written *)

Lemma Count_loop_Escaped d s t :
  d <> [] -> Spec.Escaped d s t ->
  forall fuel, (length s < fuel)%nat ->
               len t = len s + Strings.Count_loop fuel s d 0.
Proof.
  intros Hd. induction 1 as [s Hno | p s t Hmin Hesc IH]; intros fuel Hfuel.
  - destruct fuel as [|fuel]; [lia|]. cbn [Strings.Count_loop].
    destruct (Index_spec d s) as [[Hi _] | (_ & Hocc & _)].
    + rewrite Hi. cbn. lia.
    + exfalso. exact (Hno _ Hocc).
  - destruct fuel as [|fuel]; [lia|]. cbn [Strings.Count_loop].
    pose proof (delimiter_len_pos d Hd) as Hdl.
    destruct (Index_spec d (p ++ d ++ s)) as [[_ Hno] | (Hi & Hocc & Hfirst)].
    { exfalso. exact (Hno _ (occurs_at_here d p s)). }
    assert (Hix : Strings.Index (p ++ d ++ s) d = len p).
    { unfold len.
      destruct (Nat.lt_trichotomy (Z.to_nat (Strings.Index (p ++ d ++ s) d))
                                  (length p)) as [Hlt | [Heq | Hgt]].
      - exfalso. exact (Hmin _ Hlt Hocc).
      - lia.
      - exfalso. exact (Hfirst _ Hgt (occurs_at_here d p s)). }
    rewrite Hix.
    destruct (len p =? -1) eqn:E; [pose proof (len_nonneg p); blia|].
    assert (from (p ++ d ++ s) (len p + len d) = s) as ->.
    { rewrite app_assoc, <- len_app. apply from_len_app. }
    rewrite Count_loop_acc.
    assert (Hs : (length s < fuel)%nat)
      by (rewrite !length_app in Hfuel; unfold len in Hdl; lia).
    specialize (IH fuel Hs).
    rewrite !len_app, len_cons, !len_app. lia.
Qed.

(** X8. The call of [processLine] adds to the output twice the length
    of the delimiter, the length of the record and one for the newline;
    with escaping, one more for every occurrence of the delimiter that
    [strings.Count] counts in the record. *)
Theorem processLine_length k line d e :
  len (written (processLine k line d e)) =
  len (written k) + 2 * len d + len line + 1 +
  (if e && (0 <? len d) then Strings.Count line d else 0).
Proof.
  rewrite written_processLine, !len_app.
  change (len [10]) with 1.
  destruct (e && (0 <? len d)) eqn:E; [|lia].
  prop_of_bool.
  assert (Hd : d <> []) by (intros ->; cbn in *; lia).
  pose proof (Count_loop_Escaped d line _ Hd (ReplaceAll_Escaped d Hd line)
                (S (length line)) (Nat.lt_succ_diag_r _)) as Hc.
  unfold Strings.Count. rewrite (delimiter_len_eqb d Hd). lia.
Qed.
(** *** Escaping loses nothing *)

Lemma escape_byte_cons c b l :
  Text.escape_byte c (b :: l) =
  (if b =? c then [92; c] else [b]) ++ Text.escape_byte c l.
Proof. reflexivity. Qed.

(** An escaped text does not begin with the delimiter byte, unless the
    delimiter is the backslash. *)
Lemma escape_byte_head c l t :
  c <> 92 -> Text.escape_byte c l <> c :: t.
Proof.
  intros Hc. destruct l as [|b l]; [discriminate|].
  rewrite escape_byte_cons. destruct (b =? c) eqn:E; cbn [app].
  - intros H. injection H as H _. congruence.
  - intros H. injection H as H _. apply Z.eqb_neq in E. congruence.
Qed.

Lemma escape_byte_injective c l1 :
  forall l2, Text.escape_byte c l1 = Text.escape_byte c l2 -> l1 = l2.
Proof.
  induction l1 as [|b1 l1 IH]; intros [|b2 l2] H.
  - reflexivity.
  - rewrite escape_byte_cons in H. destruct (b2 =? c); discriminate.
  - rewrite escape_byte_cons in H. destruct (b1 =? c); discriminate.
  - rewrite !escape_byte_cons in H.
    destruct (b1 =? c) eqn:E1, (b2 =? c) eqn:E2; cbn [app] in H.
    + apply Z.eqb_eq in E1, E2. subst b1 b2.
      injection H as H. now rewrite (IH l2 H).
    + injection H as Hb H. exfalso. apply Z.eqb_neq in E2.
      assert (Hc : c <> 92) by congruence.
      exact (escape_byte_head c l2 _ Hc (eq_sym H)).
    + injection H as Hb H. exfalso. apply Z.eqb_neq in E1.
      assert (Hc : c <> 92) by congruence.
      exact (escape_byte_head c l1 _ Hc H).
    + injection H as Hb H. subst b2. now rewrite (IH l2 H).
Qed.

(** X9. With a one-byte delimiter, escaping loses no information: two
    calls of [processLine] that add the same bytes to the output were
    given the same record. *)
Theorem escaped_record_is_determined k c l1 l2 :
  written (processLine k l1 [c] true) = written (processLine k l2 [c] true) ->
  l1 = l2.
Proof.
  rewrite !written_processLine.
  change (true && (0 <? len [c])) with true. cbv iota.
  intros H. apply app_inv_head in H. cbn [app] in H. injection H as H.
  apply app_inv_tail in H.
  assert (Hd : [c] <> []) by discriminate.
  apply (escape_byte_injective c).
  rewrite <- (Escaped_functional [c] l1 _ (ReplaceAll_Escaped [c] Hd l1)
                _ (Escaped_escape_byte c l1)).
  rewrite <- (Escaped_functional [c] l2 _ (ReplaceAll_Escaped [c] Hd l2)
                _ (Escaped_escape_byte c l2)).
  exact H.
Qed.

Lemma escaped_record_is_determined_witness : B "a" ++ [34] = B "a" ++ [34].
Proof.
  apply (escaped_record_is_determined {| written := []; outputBuf := [] |} 34).
  reflexivity.
Defined.

(** ** The loop under [-e] *)

Lemma emit_interior_skip fl d r :
  skipEmpty fl = true ->
  Spec.emit_interior fl d r = Spec.emit_terminal fl d r.
Proof.
  intros H. unfold Spec.emit_interior, Spec.emit_terminal.
  now rewrite H, andb_true_r.
Qed.

Lemma drain_skip fl d rs :
  skipEmpty fl = true ->
  forall pend f,
    Spec.drain fl d pend rs f =
    (match pend with Some p => Spec.emit_terminal fl d p | None => [] end)
    ++ flat_map (Spec.emit_terminal fl d) rs ++ Spec.emit_terminal fl d f.
Proof.
  intros H. induction rs as [|r rs IH]; intros pend f;
    cbn [Spec.drain flat_map].
  - reflexivity.
  - rewrite IH. destruct pend as [p|];
      [rewrite (emit_interior_skip fl d p H)|]; now rewrite <- ?app_assoc.
Qed.

Lemma flat_map_records fl d rs f :
  flat_map (Spec.emit_terminal fl d) (match f with [] => rs | _ => rs ++ [f] end)
  = flat_map (Spec.emit_terminal fl d) rs ++ Spec.emit_terminal fl d f.
Proof.
  destruct f as [|x f].
  - now rewrite emit_terminal_nil, app_nil_r.
  - rewrite flat_map_app. cbn [flat_map]. now rewrite app_nil_r.
Qed.

(** With [-e], what a stream gives is told record by record. *)
Lemma run_skip fl d rs f :
  skipEmpty fl = true ->
  Forall (Spec.sep_free (delimByte fl)) rs ->
  Spec.sep_free (delimByte fl) f ->
  run fl d (Spec.join (delimByte fl) rs f) =
  Some (flat_map (Spec.emit_terminal fl d) rs ++ Spec.emit_terminal fl d f).
Proof.
  intros H Hrs Hf. rewrite run_join by assumption.
  now rewrite drain_skip by assumption.
Qed.

(** X10. With [-e] the position of a record does not matter: the output
    is, for the records of the stream in order (the part after the last
    separator included), the wrapped record when it is not empty after
    the optional trimming, and nothing otherwise. *)
Theorem skip_empty_is_record_wise fl d input :
  skipEmpty fl = true ->
  run fl d input =
  Some (flat_map (fun r => if len (strip fl r) =? 0 then []
                           else Spec.wrapped fl d (strip fl r))
                 (Spec.records (delimByte fl) input)).
Proof.
  intros H.
  pose proof (split_records_join (delimByte fl) input) as Hs.
  unfold Spec.records.
  destruct (Spec.split_records (delimByte fl) input) as [rs f] eqn:E.
  destruct Hs as (Hj & Hrs & Hf & _).
  rewrite Hj at 1. rewrite run_skip by assumption.
  now rewrite <- flat_map_records.
Qed.

Lemma skip_empty_is_record_wise_witness :
  run (with_skipEmpty true defaultFlags) [34]
      (B "hello" ++ [10; 10] ++ B "world" ++ [10; 10]) =
  Some ([34] ++ B "hello" ++ [34; 10] ++ [34] ++ B "world" ++ [34; 10]).
Proof.
  rewrite (skip_empty_is_record_wise (with_skipEmpty true defaultFlags));
    reflexivity.
Defined.

Lemma join_app sep rs1 f1 rs2 f2 :
  Spec.join sep rs1 f1 ++ sep :: Spec.join sep rs2 f2 =
  Spec.join sep (rs1 ++ f1 :: rs2) f2.
Proof.
  unfold Spec.join. rewrite flat_map_app. cbn [flat_map].
  rewrite <- !app_assoc. reflexivity.
Qed.

(** X11. With [-e] the program distributes over concatenation at a
    separator: the output for [a], a separator, [b] is the output for
    [a] followed by the output for [b]. *)
Theorem skip_empty_concatenation fl d a b :
  skipEmpty fl = true ->
  exists oa ob,
    run fl d a = Some oa /\ run fl d b = Some ob /\
    run fl d (a ++ delimByte fl :: b) = Some (oa ++ ob).
Proof.
  intros H.
  pose proof (split_records_join (delimByte fl) a) as Ha.
  pose proof (split_records_join (delimByte fl) b) as Hb.
  destruct (Spec.split_records (delimByte fl) a) as [ra fa].
  destruct (Spec.split_records (delimByte fl) b) as [rb fb].
  destruct Ha as (Hja & Hra & Hfa & _). destruct Hb as (Hjb & Hrb & Hfb & _).
  do 2 eexists. rewrite Hja, Hjb, join_app.
  rewrite !run_skip; auto.
  - repeat split. rewrite flat_map_app. cbn [flat_map].
    now rewrite <- !app_assoc.
  - apply Forall_app. split; [exact Hra | now constructor].
Qed.

Lemma skip_empty_concatenation_witness :
  exists oa ob,
    run (with_skipEmpty true defaultFlags) [34] (B "a") = Some oa /\
    run (with_skipEmpty true defaultFlags) [34] (B "b" ++ [10]) = Some ob /\
    run (with_skipEmpty true defaultFlags) [34] (B "a" ++ 10 :: B "b" ++ [10])
    = Some (oa ++ ob).
Proof.
  apply (skip_empty_concatenation (with_skipEmpty true defaultFlags)).
  reflexivity.
Defined.

(** *** What [-e] takes away *)

Lemma keep_terminal_skipEmpty fl b r :
  Spec.keep_terminal (with_skipEmpty b fl) r = Spec.keep_terminal fl r.
Proof. reflexivity. Qed.

Lemma keep_terminal_nonempty fl r :
  filter Text.nonempty (Spec.keep_terminal fl r) = Spec.keep_terminal fl r.
Proof.
  unfold Spec.keep_terminal.
  destruct (len (Spec.processed fl r) =? 0) eqn:E; [reflexivity|].
  cbn [filter]. unfold Text.nonempty.
  pose proof (len_nonneg (Spec.processed fl r)).
  destruct (0 <? len (Spec.processed fl r)) eqn:E2; [reflexivity | blia].
Qed.

Lemma keep_interior_filter fl r :
  Spec.keep_interior (with_skipEmpty true fl) r =
  filter Text.nonempty (Spec.keep_interior fl r).
Proof.
  unfold Spec.keep_interior.
  change (Spec.processed (with_skipEmpty true fl) r)
    with (Spec.processed fl r).
  change (skipEmpty (with_skipEmpty true fl)) with true.
  rewrite andb_true_r.
  pose proof (len_nonneg (Spec.processed fl r)).
  destruct (len (Spec.processed fl r) =? 0) eqn:E.
  - rewrite andb_true_l. destruct (skipEmpty fl); [reflexivity|].
    cbn [filter]. unfold Text.nonempty.
    destruct (0 <? len (Spec.processed fl r)) eqn:E2; [blia | reflexivity].
  - rewrite andb_false_l. cbn [filter]. unfold Text.nonempty.
    destruct (0 <? len (Spec.processed fl r)) eqn:E2; [reflexivity | blia].
Qed.

Lemma kept_filter fl rs :
  forall pend f,
    Spec.kept (with_skipEmpty true fl) pend rs f =
    filter Text.nonempty (Spec.kept fl pend rs f).
Proof.
  induction rs as [|r rs IH]; intros pend f; cbn [Spec.kept];
    rewrite filter_app.
  - rewrite !keep_terminal_skipEmpty, keep_terminal_nonempty.
    destruct pend as [p|]; [|reflexivity].
    now rewrite keep_terminal_skipEmpty, keep_terminal_nonempty.
  - rewrite IH. destruct pend as [p|]; [|reflexivity].
    now rewrite keep_interior_filter.
Qed.

(** X12. The flag [-e] takes the empty records out of the output and
    does nothing else: if without it the records written are [ps], in
    this order, then with it the records written are those of [ps] that
    are not empty, in the same order and wrapped in the same way. *)
Theorem skip_empty_only_filters fl d input :
  run fl d input =
    Some (flat_map (Spec.wrapped fl d) (Spec.survivors fl input)) /\
  run (with_skipEmpty true fl) d input =
    Some (flat_map (Spec.wrapped fl d)
            (filter Text.nonempty (Spec.survivors fl input))).
Proof.
  split; [apply run_survivors|].
  rewrite run_survivors. unfold Spec.survivors.
  change (delimByte (with_skipEmpty true fl)) with (delimByte fl).
  destruct (Spec.split_records (delimByte fl) input) as [rs f].
  now rewrite kept_filter.
Qed.

(** ** A separator at the end of the stream *)

Lemma emit_same_cases fl d p :
  len (strip fl p) <> 0 \/ skipEmpty fl = true ->
  Spec.emit_terminal fl d p = Spec.emit_interior fl d p.
Proof.
  unfold Spec.emit_terminal, Spec.emit_interior, strip.
  fold (Spec.processed fl p). intros [H | H].
  - destruct (len (Spec.processed fl p) =? 0) eqn:E; [blia | reflexivity].
  - now rewrite H, andb_true_r.
Qed.

(** X13. One more separator at the end of the stream changes nothing,
    whether or not the stream ended with one, unless [-e] is off and
    the last record that is followed by a separator is empty after the
    optional trimming. *)
Theorem final_separator_optional fl d rs f :
  Forall (Spec.sep_free (delimByte fl)) rs ->
  Spec.sep_free (delimByte fl) f ->
  rs = [] \/ len (strip fl (last rs [])) <> 0 \/ skipEmpty fl = true ->
  run fl d (Spec.join (delimByte fl) rs f ++ [delimByte fl]) =
  run fl d (Spec.join (delimByte fl) rs f).
Proof.
  intros Hrs Hf Hc.
  assert (Hj : Spec.join (delimByte fl) rs f ++ [delimByte fl] =
               Spec.join (delimByte fl) (rs ++ [f]) []).
  { unfold Spec.join. rewrite flat_map_app. cbn [flat_map].
    now rewrite <- !app_assoc, !app_nil_r. }
  rewrite Hj, !run_join; auto using Forall_sep_free_app, sep_free_nil.
  f_equal. rewrite drain_last, emit_terminal_nil, app_nil_r.
  destruct rs as [|r0 rs0] using rev_ind; [reflexivity|].
  clear IHrs0. rewrite drain_last, flat_map_app. cbn [flat_map].
  rewrite app_nil_r, <- app_assoc. do 2 f_equal.
  symmetry. apply emit_same_cases.
  rewrite last_snoc in Hc. destruct Hc as [Hc | [Hc | Hc]]; auto.
  apply app_eq_nil in Hc. destruct Hc; discriminate.
Qed.

Lemma final_separator_optional_witness :
  run defaultFlags [34] (B "hello" ++ [10] ++ B "world" ++ [10]) =
  run defaultFlags [34] (B "hello" ++ [10] ++ B "world").
Proof.
  apply (final_separator_optional defaultFlags [34] [B "hello"] (B "world")).
  - repeat constructor. vm_compute. intuition discriminate.
  - vm_compute. intuition discriminate.
  - right. left. vm_compute. discriminate.
Defined.

(** ** Trimming takes bytes off the ends only *)

Lemma part_of_refl s : Text.part_of s s.
Proof. exists [], []. now rewrite app_nil_r. Qed.

Lemma part_of_nil s : Text.part_of [] s.
Proof. exists [], s. reflexivity. Qed.

Lemma part_of_trans a b c :
  Text.part_of a b -> Text.part_of b c -> Text.part_of a c.
Proof.
  intros (x & y & ->) (x' & y' & ->).
  exists (x' ++ x), (y ++ y'). now rewrite <- !app_assoc.
Qed.

Lemma part_of_from s i : Text.part_of (from s i) s.
Proof.
  exists (firstn (Z.to_nat i) s), []. unfold from.
  now rewrite app_nil_r, firstn_skipn.
Qed.

Lemma part_of_slice s lo hi : Text.part_of (slice s lo hi) s.
Proof.
  exists (firstn (Z.to_nat lo) s),
         (skipn (Z.to_nat (hi - lo)) (skipn (Z.to_nat lo) s)).
  unfold slice. now rewrite !firstn_skipn.
Qed.

Lemma part_of_In t s b : Text.part_of t s -> In b t -> In b s.
Proof.
  intros (x & y & ->) H. apply in_or_app. right. apply in_or_app. now left.
Qed.

Lemma part_of_len t s : Text.part_of t s -> len t <= len s.
Proof.
  intros (x & y & ->). rewrite !len_app.
  pose proof (len_nonneg x). pose proof (len_nonneg y). lia.
Qed.

Lemma TrimFunc_part s f : Text.part_of (Bytes.TrimFunc s f) s.
Proof.
  unfold Bytes.TrimFunc.
  apply (part_of_trans _ (Bytes.TrimLeftFunc s f)).
  - unfold Bytes.TrimRightFunc. apply part_of_slice.
  - unfold Bytes.TrimLeftFunc.
    destruct (Bytes.indexFunc s f false =? -1);
      [apply part_of_nil | apply part_of_from].
Qed.

Lemma TrimSpace_part s : Text.part_of (Bytes.TrimSpace s) s.
Proof.
  unfold Bytes.TrimSpace.
  destruct (Bytes.scan_start s 0) as [start | start].
  - destruct (Bytes.scan_stop (rev (from s start)) (len s)) as [stop | stop].
    + destruct (start =? stop); [apply part_of_nil | apply part_of_slice].
    + eapply part_of_trans; [apply TrimFunc_part | apply part_of_slice].
  - eapply part_of_trans; [apply TrimFunc_part | apply part_of_from].
Qed.

Lemma strip_part fl line : Text.part_of (strip fl line) line.
Proof.
  unfold strip. destruct (stripWS fl);
    [apply TrimSpace_part | apply part_of_refl].
Qed.

(** X14. Whatever the bytes of a record, valid UTF-8 or not, what the
    optional trimming leaves is a contiguous part of the record: bytes
    are taken off the two ends only, none is changed, added or moved. *)
Theorem strip_keeps_a_part fl line :
  Text.part_of (strip fl line) line /\ len (strip fl line) <= len line.
Proof.
  split; [apply strip_part | apply part_of_len, strip_part].
Qed.

(** ** Where the bytes of the output come from *)

Lemma Escaped_In d s t b :
  Spec.Escaped d s t -> In b t -> In b s \/ b = 92 \/ In b d.
Proof.
  induction 1 as [s Hno | p s t Hmin Hesc IH]; intros H; [now left|].
  apply in_app_or in H. destruct H as [H | H].
  - left. apply in_or_app. now left.
  - destruct H as [H | H]; [right; left; congruence|].
    apply in_app_or in H. destruct H as [H | H]; [now right; right|].
    destruct (IH H) as [H' | H']; [|now right].
    left. apply in_or_app. right. apply in_or_app. now right.
Qed.

Lemma content_In fl d p b :
  In b (Spec.content fl d p) ->
  In b p \/ In b d \/ (escapeDelim fl = true /\ b = 92).
Proof.
  pose proof (content_spec fl d p) as H.
  destruct (escapeDelim fl && negb (len d =? 0)) eqn:E.
  - intros Hb. apply andb_true_iff in E. destruct E as [E _].
    destruct (Escaped_In _ _ _ _ H Hb) as [H1 | [H1 | H1]]; auto.
  - rewrite H. now left.
Qed.

Lemma kept_origin fl rs :
  forall pend f p,
    In p (Spec.kept fl pend rs f) ->
    exists r, (pend = Some r \/ In r rs \/ r = f) /\ p = Spec.processed fl r.
Proof.
  assert (Ht : forall r p, In p (Spec.keep_terminal fl r) ->
                           p = Spec.processed fl r).
  { intros r p. unfold Spec.keep_terminal.
    destruct (len (Spec.processed fl r) =? 0); [intros []|].
    intros [H | []]. now symmetry. }
  assert (Hi : forall r p, In p (Spec.keep_interior fl r) ->
                           p = Spec.processed fl r).
  { intros r p. unfold Spec.keep_interior.
    destruct ((len (Spec.processed fl r) =? 0) && skipEmpty fl); [intros []|].
    intros [H | []]. now symmetry. }
  induction rs as [|r rs IH]; intros pend f p H; cbn [Spec.kept] in H;
    apply in_app_or in H; destruct H as [H | H].
  - destruct pend as [q|]; [|destruct H]. exists q. split; [now left|].
    now apply Ht.
  - exists f. split; [now right; right | now apply Ht].
  - destruct pend as [q|]; [|destruct H]. exists q. split; [now left|].
    now apply Hi.
  - destruct (IH _ _ _ H) as (r' & [Hr | [Hr | Hr]] & Hp).
    + injection Hr as <-. exists r. split; [right; left; now left | exact Hp].
    + exists r'. split; [right; left; now right | exact Hp].
    + exists r'. split; [now right; right | exact Hp].
Qed.

Lemma join_In sep rs f r b :
  In r rs \/ r = f -> In b r -> In b (Spec.join sep rs f).
Proof.
  intros Hr Hb. unfold Spec.join. apply in_or_app.
  destruct Hr as [Hr | ->]; [left | now right].
  apply in_flat_map. exists r. split; [exact Hr|].
  apply in_or_app. now left.
Qed.

(** The records written are trimmed records of the stream. *)
Lemma survivors_origin fl input p :
  In p (Spec.survivors fl input) ->
  exists r, Spec.sep_free (delimByte fl) r /\
            (forall b, In b r -> In b input) /\
            p = Spec.processed fl r.
Proof.
  unfold Spec.survivors.
  pose proof (split_records_join (delimByte fl) input) as Hs.
  destruct (Spec.split_records (delimByte fl) input) as [rs f].
  destruct Hs as (Hj & Hrs & Hf & _). intros H.
  destruct (kept_origin _ _ _ _ _ H) as (r & [Hr | Hr] & Hp);
    [discriminate|].
  exists r. repeat split; [| |exact Hp].
  - destruct Hr as [Hr | ->]; [|exact Hf].
    rewrite Forall_forall in Hrs. now apply Hrs.
  - intros b Hb. rewrite Hj. now apply (join_In _ _ _ r).
Qed.

Lemma processed_In fl r b : In b (Spec.processed fl r) -> In b r.
Proof.
  apply part_of_In. exact (strip_part fl r).
Qed.

(** X15. Every byte of the output is a byte of the input, a byte of the
    delimiter, the newline that ends a line of output or, only when
    escaping is on, a backslash: nothing else is ever written. *)
Theorem output_bytes_origin fl d input out b :
  run fl d input = Some out -> In b out ->
  In b input \/ In b d \/ b = 10 \/ (escapeDelim fl = true /\ b = 92).
Proof.
  rewrite run_survivors. intros H Hb. injection H as <-.
  apply in_flat_map in Hb. destruct Hb as (p & Hp & Hb).
  destruct (survivors_origin _ _ _ Hp) as (r & _ & Hin & ->).
  unfold Spec.wrapped in Hb.
  apply in_app_or in Hb. destruct Hb as [Hb | Hb]; [now right; left|].
  apply in_app_or in Hb. destruct Hb as [Hb | Hb].
  - destruct (content_In _ _ _ _ Hb) as [H | [H | H]]; auto.
    left. apply Hin. now apply (processed_In fl).
  - apply in_app_or in Hb. destruct Hb as [Hb | Hb]; [now right; left|].
    destruct Hb as [Hb | []]. right; right; left. now symmetry.
Qed.

Lemma output_bytes_origin_witness :
  In 34 (B "a" ++ [10]) \/ In 34 [34] \/ 34 = 10 \/
  (escapeDelim defaultFlags = true /\ 34 = 92).
Proof.
  apply (output_bytes_origin defaultFlags [34] (B "a" ++ [10])
           ([34] ++ B "a" ++ [34; 10]) 34).
  - reflexivity.
  - now left.
Defined.

(** ** The lines of the output *)

Lemma content_sep_free fl d r :
  nullTerminated fl = false -> ~ In 10 d ->
  Spec.sep_free (delimByte fl) r ->
  Spec.sep_free 10 (d ++ Spec.content fl d (Spec.processed fl r) ++ d).
Proof.
  intros Hn Hd Hr. unfold delimByte in Hr. rewrite Hn in Hr.
  intros H. apply in_app_or in H. destruct H as [H | H]; [contradiction|].
  apply in_app_or in H. destruct H as [H | H]; [|contradiction].
  destruct (content_In _ _ _ _ H) as [H' | [H' | [_ H']]];
    [|contradiction|discriminate].
  apply Hr. now apply (processed_In fl).
Qed.

Lemma flat_map_wrapped_join fl d ps :
  flat_map (Spec.wrapped fl d) ps =
  Spec.join 10 (map (fun p => d ++ Spec.content fl d p ++ d) ps) [].
Proof.
  unfold Spec.join. rewrite app_nil_r.
  induction ps as [|p ps IH]; [reflexivity|].
  cbn [flat_map map]. rewrite IH. unfold Spec.wrapped.
  now rewrite <- !app_assoc.
Qed.

Lemma survivors_lines_free fl d input :
  nullTerminated fl = false -> ~ In 10 d ->
  Forall (Spec.sep_free 10)
         (map (fun p => d ++ Spec.content fl d p ++ d)
              (Spec.survivors fl input)).
Proof.
  intros Hn Hd. apply Forall_forall. intros l Hl.
  apply in_map_iff in Hl. destruct Hl as (p & <- & Hp).
  destruct (survivors_origin _ _ _ Hp) as (r & Hr & _ & ->).
  now apply content_sep_free.
Qed.

(** X16. When records are lines and the delimiter holds no newline,
    the output has exactly one line for each record written: cut at its
    newlines, the output gives the wrapped records, in order, each
    followed by a newline and nothing after the last. *)
Theorem one_line_per_record fl d input :
  nullTerminated fl = false -> ~ In 10 d ->
  exists out,
    run fl d input = Some out /\
    Spec.split_records 10 out =
      (map (fun p => d ++ Spec.content fl d p ++ d) (Spec.survivors fl input),
       []).
Proof.
  intros Hn Hd. eexists. split; [apply run_survivors|].
  rewrite flat_map_wrapped_join.
  apply split_records_unique; [now apply survivors_lines_free|].
  apply sep_free_nil.
Qed.

Lemma one_line_per_record_witness :
  exists out,
    run defaultFlags [34] (B "a" ++ [10; 10] ++ B "b" ++ [10]) = Some out /\
    Spec.split_records 10 out = ([[34; 97; 34]; [34; 34]; [34; 98; 34]], []).
Proof.
  apply (one_line_per_record defaultFlags [34]).
  - reflexivity.
  - vm_compute. intuition discriminate.
Defined.

(** ** The program run on its own output *)

Lemma drain_all_kept fl d rs :
  Forall (fun r => len (Spec.processed fl r) <> 0) rs ->
  forall pend,
    match pend with
    | Some p => len (Spec.processed fl p) <> 0 | None => True end ->
    Spec.drain fl d pend rs [] =
    (match pend with
     | Some p => Spec.wrapped fl d (Spec.processed fl p) | None => [] end)
    ++ flat_map (fun r => Spec.wrapped fl d (Spec.processed fl r)) rs.
Proof.
  induction 1 as [|r rs Hr Hrs IH]; intros pend Hp; cbn [Spec.drain flat_map].
  - rewrite emit_terminal_nil. destruct pend as [p|]; [|reflexivity].
    now rewrite emit_terminal_nonempty.
  - rewrite (IH (Some r) Hr). destruct pend as [p|]; [|reflexivity].
    now rewrite emit_interior_nonempty.
Qed.

(** X17. Wrapping is not undone by wrapping again: with trimming and
    escaping off, records as lines and a non-empty delimiter without a
    newline, the program run on its own output wraps every line of it
    once more, whatever [-e] is; no record is dropped or unwrapped. *)
Theorem rerun_wraps_twice fl d input out :
  stripWS fl = false -> escapeDelim fl = false ->
  nullTerminated fl = false -> d <> [] -> ~ In 10 d ->
  run fl d input = Some out ->
  run fl d out =
  Some (flat_map (fun p => Text.frame d (d ++ p ++ d))
                 (Spec.survivors fl input)).
Proof.
  intros Hs He Hn Hd H10 Hrun.
  rewrite run_survivors in Hrun. injection Hrun as <-.
  assert (Hc : forall p, Spec.content fl d p = p).
  { intros p. unfold Spec.content. now rewrite He. }
  assert (Hp : forall r, Spec.processed fl r = r).
  { intros r. unfold Spec.processed. now rewrite Hs. }
  rewrite flat_map_wrapped_join.
  assert (Hsep : delimByte fl = 10) by (unfold delimByte; now rewrite Hn).
  rewrite <- Hsep at 1.
  rewrite run_join;
    [|rewrite Hsep; now apply survivors_lines_free|apply sep_free_nil].
  f_equal. rewrite drain_all_kept; [|apply Forall_forall|exact I].
  - cbn [app]. rewrite flat_map_concat_map, map_map, <- flat_map_concat_map.
    apply flat_map_ext. intros p. rewrite Hp, Hc.
    unfold Spec.wrapped, Text.frame. now rewrite Hc.
  - intros l Hl. apply in_map_iff in Hl. destruct Hl as (p & <- & _).
    rewrite Hp, !len_app. pose proof (delimiter_len_pos d Hd).
    pose proof (len_nonneg (Spec.content fl d p)). lia.
Qed.

Lemma rerun_wraps_twice_witness :
  run defaultFlags [34] ([34] ++ B "a" ++ [34; 10]) =
  Some ([34; 34] ++ B "a" ++ [34; 34; 10]).
Proof.
  apply (rerun_wraps_twice defaultFlags [34] (B "a" ++ [10]));
    try reflexivity; try discriminate.
  vm_compute. intuition discriminate.
Defined.
(** ** The two separator modes *)

Lemma drain_nullTerminated fl d b rs :
  forall pend f,
    Spec.drain (with_nullTerminated b fl) d pend rs f =
    Spec.drain fl d pend rs f.
Proof.
  induction rs as [|r rs IH]; intros pend f; cbn [Spec.drain].
  - reflexivity.
  - now rewrite IH.
Qed.

(** X18. The flag [-0] changes how the input is cut into records and
    nothing else: records that hold neither a NUL nor a newline give,
    when separated by NUL bytes and read with [-0], the output they
    give when separated by newlines and read without it. *)
Theorem separator_mode_only_cuts fl d rs f :
  Forall (fun r => ~ In 0 r /\ ~ In 10 r) (f :: rs) ->
  run (with_nullTerminated true fl) d (Spec.join 0 rs f) =
  run (with_nullTerminated false fl) d (Spec.join 10 rs f).
Proof.
  intros H. inversion H as [|? ? [Hf0 Hf10] Hrs]; subst.
  change 0 with (delimByte (with_nullTerminated true fl)) at 1.
  change 10 with (delimByte (with_nullTerminated false fl)) at 1.
  rewrite !run_join.
  - now rewrite !drain_nullTerminated.
  - eapply Forall_impl; [|exact Hrs]. now intros r [_ Hr].
  - exact Hf10.
  - eapply Forall_impl; [|exact Hrs]. now intros r [Hr _].
  - exact Hf0.
Qed.

Lemma separator_mode_only_cuts_witness :
  run (with_nullTerminated true defaultFlags) [34]
      (B "one" ++ [0] ++ B "two" ++ [0]) =
  run (with_nullTerminated false defaultFlags) [34]
      (B "one" ++ [10] ++ B "two" ++ [10]).
Proof.
  apply (separator_mode_only_cuts defaultFlags [34] [B "one"; B "two"] []).
  repeat constructor; vm_compute; intuition discriminate.
Defined.

(** ** Trimming valid UTF-8, character by character *)

Lemma drop_white_split cs :
  exists ws,
    cs = ws ++ Text.drop_white cs /\ Forall Text.is_space ws /\
    (Text.drop_white cs = [] \/
     exists m rest, Text.drop_white cs = m :: rest /\
                    unicode.IsSpace m = false).
Proof.
  induction cs as [|c cs IH]; cbn [Text.drop_white].
  - exists []. repeat split; auto.
  - destruct (unicode.IsSpace c) eqn:E.
    + destruct IH as (ws & Hcs & Hws & Hd).
      exists (c :: ws). repeat split; auto.
      cbn [app]. now rewrite <- Hcs.
    + exists []. repeat split; auto. right. now exists c, cs.
Qed.

(** The trimmed characters sit between two runs of white space and, if
    there are any, begin and end with a character that is not white
    space. *)
Lemma trim_white_split cs :
  exists ws1 ws2,
    cs = ws1 ++ Text.trim_white cs ++ ws2 /\
    Forall Text.is_space ws1 /\ Forall Text.is_space ws2 /\
    (Text.trim_white cs = [] \/
     exists m x y m',
       Text.trim_white cs = m :: x /\ Text.trim_white cs = y ++ [m'] /\
       unicode.IsSpace m = false /\ unicode.IsSpace m' = false).
Proof.
  unfold Text.trim_white.
  destruct (drop_white_split cs) as (ws1 & Hcs & Hws1 & Hd1).
  destruct (drop_white_split (rev (Text.drop_white cs)))
    as (ws2 & Hr & Hws2 & Hd2).
  set (cs1 := Text.drop_white cs) in *.
  set (q := Text.drop_white (rev cs1)) in *.
  assert (Hcs1 : cs1 = rev q ++ rev ws2).
  { rewrite <- rev_app_distr, <- Hr. now rewrite rev_involutive. }
  exists ws1, (rev ws2). repeat split.
  - rewrite Hcs at 1. now rewrite Hcs1.
  - exact Hws1.
  - now apply Forall_rev.
  - destruct Hd2 as [Hq | (m' & rest' & Hq & Hm')]; [left; now rewrite Hq|].
    right. rewrite Hq in *. cbn [rev] in *.
    destruct Hd1 as [Hn | (m & rest & Hc1 & Hm)].
    { rewrite Hn in Hcs1. symmetry in Hcs1.
      apply app_eq_nil in Hcs1. destruct Hcs1 as [Hcs1 _].
      apply app_eq_nil in Hcs1. destruct Hcs1; discriminate. }
    destruct (rev rest' ++ [m']) as [|m0 x] eqn:Ex.
    { apply app_eq_nil in Ex. destruct Ex; discriminate. }
    rewrite Hc1 in Hcs1. cbn [app] in Hcs1. injection Hcs1 as -> _.
    exists m0, x, (rev rest'), m'. repeat split; auto.
Qed.

Lemma utf8_text_app a b :
  Text.utf8_text (a ++ b) = Text.utf8_text a ++ Text.utf8_text b.
Proof. apply flat_map_app. Qed.

Lemma utf8_text_blank ws :
  Forall Text.is_space ws -> Spec.blank (Text.utf8_text ws).
Proof.
  intros H. apply runes_blank.
  eapply Forall_impl; [|exact H]. intros c Hc. now apply IsSpace_true.
Qed.

Lemma not_space_mark c :
  Spec.character c -> unicode.IsSpace c = false -> Spec.mark c.
Proof.
  intros Hc Hs. split; [exact Hc|]. intros Hw.
  apply IsSpace_white in Hw. congruence.
Qed.

(** [bytes.TrimSpace] on valid UTF-8. *)
Lemma TrimSpace_utf8_text cs :
  Forall Spec.character cs ->
  Bytes.TrimSpace (Text.utf8_text cs) = Text.utf8_text (Text.trim_white cs).
Proof.
  intros Hch.
  destruct (trim_white_split cs) as (ws1 & ws2 & Hcs & H1 & H2 & Hcore).
  rewrite Hcs at 1. rewrite !utf8_text_app.
  destruct Hcore as [Hn | (m & x & y & m' & Hmx & Hym & Hm & Hm')].
  - rewrite Hn. cbn [Text.utf8_text flat_map app].
    apply TrimSpace_blank. apply blank_app; now apply utf8_text_blank.
  - apply TrimSpace_edged; try now apply utf8_text_blank.
    assert (Hin : forall c, In c (Text.trim_white cs) -> Spec.character c).
    { intros c Hc. rewrite Forall_forall in Hch. apply Hch.
      rewrite Hcs. apply in_or_app. right. apply in_or_app. now left. }
    split.
    + exists m, (Text.utf8_text x). split; [|now rewrite Hmx].
      apply not_space_mark; [|exact Hm]. apply Hin. rewrite Hmx. now left.
    + exists m', (Text.utf8_text y). split.
      * apply not_space_mark; [|exact Hm']. apply Hin. rewrite Hym.
        apply in_or_app. right. now left.
      * rewrite Hym, utf8_text_app. cbn [Text.utf8_text flat_map].
        now rewrite app_nil_r.
Qed.

(** X19. With [-s], on a record that is valid UTF-8, the trimming
    takes off exactly the white-space characters (in the sense of
    [unicode.IsSpace], the multi-byte ones included) before the first
    and after the last character that is not white space, and keeps
    every character between the two. *)
Theorem strip_utf8_record fl cs :
  stripWS fl = true -> Forall Spec.character cs ->
  strip fl (Text.utf8_text cs) = Text.utf8_text (Text.trim_white cs).
Proof.
  intros Hs Hch. unfold strip. rewrite Hs. now apply TrimSpace_utf8_text.
Qed.

Lemma character_dec_true c :
  (0 <=? c) && (c <=? 0x10FFFF) && negb (Spec.is_surrogate c) = true ->
  Spec.character c.
Proof.
  intros H. apply andb_true_iff in H. destruct H as [H Hs].
  apply negb_true_iff in Hs. split; [blia | exact Hs].
Qed.

Lemma strip_utf8_record_witness :
  strip (with_stripWS true defaultFlags)
        (Text.utf8_text [0x3000; 9; 0xE9; 32; 0x20AC; 0xA0; 13]) =
  Text.utf8_text [0xE9; 32; 0x20AC].
Proof.
  apply (strip_utf8_record (with_stripWS true defaultFlags)
           [0x3000; 9; 0xE9; 32; 0x20AC; 0xA0; 13]).
  - reflexivity.
  - repeat constructor; apply character_dec_true; reflexivity.
Defined.

(** *** Trimming twice *)

Lemma drop_white_head m x :
  unicode.IsSpace m = false -> Text.drop_white (m :: x) = m :: x.
Proof. intros H. cbn [Text.drop_white]. now rewrite H. Qed.

Lemma trim_white_idempotent cs :
  Text.trim_white (Text.trim_white cs) = Text.trim_white cs.
Proof.
  destruct (trim_white_split cs) as (_ & _ & _ & _ & _ & Hcore).
  destruct Hcore as [Hn | (m & x & y & m' & Hmx & Hym & Hm & Hm')].
  - now rewrite Hn.
  - unfold Text.trim_white at 1. rewrite Hmx at 1.
    rewrite drop_white_head by exact Hm. rewrite <- Hmx, Hym.
    rewrite rev_app_distr. cbn [rev app].
    rewrite drop_white_head by exact Hm'.
    change (m' :: rev y) with (rev [m'] ++ rev y).
    now rewrite <- rev_app_distr, rev_involutive.
Qed.

Lemma trim_white_characters cs :
  Forall Spec.character cs -> Forall Spec.character (Text.trim_white cs).
Proof.
  intros H. destruct (trim_white_split cs) as (ws1 & ws2 & Hcs & _).
  rewrite Hcs in H. apply Forall_app in H. destruct H as [_ H].
  apply Forall_app in H. now destruct H.
Qed.

(** X20. On valid UTF-8 the trimming of [-s] is idempotent: a record
    that has been trimmed is left as it is when trimmed again. *)
Theorem strip_twice fl cs :
  Forall Spec.character cs ->
  strip fl (strip fl (Text.utf8_text cs)) = strip fl (Text.utf8_text cs).
Proof.
  intros Hch. unfold strip. destruct (stripWS fl); [|reflexivity].
  rewrite !TrimSpace_utf8_text, trim_white_idempotent;
    auto using trim_white_characters.
Qed.

Lemma strip_twice_witness :
  strip (with_stripWS true defaultFlags)
        (strip (with_stripWS true defaultFlags)
               (Text.utf8_text [32; 0x41; 0x2003; 0x42; 9])) =
  strip (with_stripWS true defaultFlags)
        (Text.utf8_text [32; 0x41; 0x2003; 0x42; 9]).
Proof.
  apply strip_twice.
  repeat constructor; apply character_dec_true; reflexivity.
Defined.

(** *** Lines that end in a carriage return *)

Lemma drop_white_snoc cs w :
  unicode.IsSpace w = true ->
  Text.drop_white (cs ++ [w]) =
  match Text.drop_white cs with [] => [] | l => l ++ [w] end.
Proof.
  intros Hw. induction cs as [|c cs IH]; cbn [app Text.drop_white].
  - now rewrite Hw.
  - destruct (unicode.IsSpace c); [exact IH | reflexivity].
Qed.

Lemma trim_white_snoc cs w :
  unicode.IsSpace w = true ->
  Text.trim_white (cs ++ [w]) = Text.trim_white cs.
Proof.
  intros Hw. unfold Text.trim_white. rewrite drop_white_snoc by exact Hw.
  destruct (Text.drop_white cs) as [|c l]; [reflexivity|].
  rewrite rev_app_distr. cbn [rev app Text.drop_white]. now rewrite Hw.
Qed.

(** X21. With [-s], a record that is valid UTF-8 followed by a carriage
    return, as the lines of a file with CR LF line ends are, is trimmed
    to what the record without the carriage return is trimmed to;
    without [-s] the carriage return stays in the record. *)
Theorem strip_carriage_return fl cs :
  Forall Spec.character cs ->
  strip fl (Text.utf8_text cs ++ [13]) =
  if stripWS fl then strip fl (Text.utf8_text cs)
  else Text.utf8_text cs ++ [13].
Proof.
  intros Hch. unfold strip. destruct (stripWS fl); [|reflexivity].
  change [13] with (Text.utf8_text [13]). rewrite <- utf8_text_app.
  assert (H13 : Forall Spec.character (cs ++ [13])).
  { apply Forall_app. split; [exact Hch|].
    constructor; [|constructor]. apply character_dec_true. reflexivity. }
  rewrite (TrimSpace_utf8_text _ H13), (TrimSpace_utf8_text _ Hch).
  now rewrite trim_white_snoc.
Qed.

Lemma strip_carriage_return_witness :
  strip (with_stripWS true defaultFlags) (Text.utf8_text [0x68; 0x69] ++ [13])
  = strip (with_stripWS true defaultFlags) (Text.utf8_text [0x68; 0x69]).
Proof.
  apply (strip_carriage_return (with_stripWS true defaultFlags) [0x68; 0x69]).
  repeat constructor; apply character_dec_true; reflexivity.
Defined.

(** ** The command line *)

(** Case analysis on the tests of [parseOne], in the goal. *)
Ltac parseOne_cases :=
  repeat match goal with
  | |- context [flag.index_equals ?a ?b] =>
      destruct (flag.index_equals a b); cbv beta iota
  | |- context [match flag.formal ?n with _ => _ end] =>
      destruct (flag.formal n) as [[?|?]|]
  | |- context [match flag.ParseBool ?v with _ => _ end] =>
      destruct (flag.ParseBool v)
  | |- context [if ?c then _ else _] => destruct c
  end.

(** A flag that is seen takes one or two arguments off. *)
Lemma parseOne_Seen_length args o args' o' :
  flag.parseOne args o = flag.Seen args' o' ->
  (length args' < length args)%nat.
Proof.
  destruct args as [|s t]; [discriminate|].
  unfold flag.parseOne. parseOne_cases; try discriminate;
    try (intros H; injection H as <- _; simpl; lia).
  all: destruct t as [|v t']; [discriminate|].
  all: intros H; injection H as <- _; simpl; lia.
Qed.

(** What follows the arguments of a flag does not matter to it. *)
Lemma parseOne_Seen_app s t o t' o' more :
  flag.parseOne (s :: t) o = flag.Seen t' o' ->
  flag.parseOne (s :: t ++ more) o = flag.Seen (t' ++ more) o'.
Proof.
  unfold flag.parseOne. parseOne_cases; try discriminate;
    try (intros H; injection H as <- <-; reflexivity).
  all: destruct t as [|v t'']; [discriminate|].
  all: intros H; injection H as <- <-; reflexivity.
Qed.

Lemma parseOne_NotSeen_nil s t o more :
  flag.parseOne (s :: t) o = flag.NotSeen [] ->
  flag.parseOne (s :: t ++ more) o = flag.NotSeen more.
Proof.
  unfold flag.parseOne. parseOne_cases; try discriminate;
    try (intros H; injection H as ->; reflexivity).
  all: destruct t; discriminate.
Qed.

Lemma Parse_loop_total fuel :
  forall args o, (length args < fuel)%nat ->
                 exists p, flag.Parse_loop fuel args o = Some p.
Proof.
  induction fuel as [|fuel IH]; intros args o Hf; [lia|].
  cbn [flag.Parse_loop].
  destruct (flag.parseOne args o) as [args' o' | args' | e] eqn:E;
    [|eauto|eauto].
  apply parseOne_Seen_length in E. apply IH. lia.
Qed.

Lemma Parse_loop_more_fuel fuel :
  forall args o p fuel',
    flag.Parse_loop fuel args o = Some p -> (fuel <= fuel')%nat ->
    flag.Parse_loop fuel' args o = Some p.
Proof.
  induction fuel as [|fuel IH]; intros args o p fuel' H Hle; [discriminate|].
  destruct fuel' as [|fuel']; [lia|]. cbn [flag.Parse_loop] in *.
  destruct (flag.parseOne args o); auto. apply IH; [exact H | lia].
Qed.

Lemma Parse_loop_exit fuel :
  forall args o code e,
    flag.Parse_loop fuel args o = Some (flag.ParseExit code e) ->
    code = 0 \/ code = 2.
Proof.
  induction fuel as [|fuel IH]; intros args o code e H; [discriminate|].
  cbn [flag.Parse_loop] in H.
  destruct (flag.parseOne args o) as [args' o' | args' | e'];
    [eauto | discriminate |].
  injection H as <- _. destruct e'; auto.
Qed.

(** An argument that is no flag: shorter than two bytes, or not
    beginning with a dash. *)
Lemma parseOne_non_flag file rest o :
  (len file <? 2) || negb (at_ file 0 =? 0x2D) = true ->
  flag.parseOne (file :: rest) o = flag.NotSeen (file :: rest).
Proof. intros H. unfold flag.parseOne. now rewrite H. Qed.

(** Parsing stops before the first argument that is no flag. *)
Lemma Parse_loop_app fuel :
  forall opts o0 o file rest fuel',
    flag.Parse_loop fuel opts o0 = Some (flag.ParseOK o []) ->
    (len file <? 2) || negb (at_ file 0 =? 0x2D) = true ->
    (fuel <= fuel')%nat ->
    flag.Parse_loop fuel' (opts ++ file :: rest) o0 =
    Some (flag.ParseOK o (file :: rest)).
Proof.
  induction fuel as [|fuel IH]; intros opts o0 o file rest fuel' H Hn Hle;
    [discriminate|].
  destruct fuel' as [|fuel']; [lia|]. cbn [flag.Parse_loop] in *.
  destruct (flag.parseOne opts o0) as [args' o' | args' | e] eqn:E;
    [| |discriminate].
  - destruct opts as [|s t]; [discriminate|].
    cbn [app]. rewrite (parseOne_Seen_app _ _ _ _ _ _ E).
    apply IH; [exact H | exact Hn | lia].
  - injection H as -> ->.
    destruct opts as [|s t].
    + cbn [app]. now rewrite parseOne_non_flag.
    + cbn [app]. now rewrite (parseOne_NotSeen_nil _ _ _ _ E).
Qed.

Lemma Parse_app opts o file rest :
  flag.Parse opts = Some (flag.ParseOK o []) ->
  (len file <? 2) || negb (at_ file 0 =? 0x2D) = true ->
  flag.Parse (opts ++ file :: rest) = Some (flag.ParseOK o (file :: rest)).
Proof.
  unfold flag.Parse. intros H Hn.
  apply (Parse_loop_app _ _ _ _ _ _ _ H Hn).
  rewrite length_app. simpl. lia.
Qed.

(** X22. Flags are read up to the first argument that is no flag, the
    file name: whatever follows the file name, options included, is
    left as further arguments, and the run ends with the message that
    exactly one file name is required and status 1, before anything is
    opened or written. *)
Theorem arguments_after_filename_rejected opts file rest o w :
  flag.Parse opts = Some (flag.ParseOK o []) ->
  (len file <? 2) || negb (at_ file 0 =? 0x2D) = true ->
  rest <> [] ->
  showVersion o = false ->
  snd (parseDelimiter (delimiterArg (flags o))) = None ->
  Cli.main (opts ++ file :: rest) w =
  Some (Cli.fail 1 Cli.FilenameRequired w).
Proof.
  intros Hp Hn Hr Hv Hd. unfold Cli.main.
  rewrite (Parse_app _ _ _ _ Hp Hn). unfold Cli.mainParsed. rewrite Hv.
  destruct (parseDelimiter (delimiterArg (flags o))) as [d [e|]];
    [discriminate|].
  destruct rest as [|x rest']; [congruence | reflexivity].
Qed.

Lemma arguments_after_filename_rejected_witness :
  Cli.main ([B "-d"; B "|"] ++ B "input.txt" :: [B "-o"; B "output.txt"])
           {| Cli.inputIsTerminal := false; Cli.stdin := Cli.empty;
              Cli.files := [(1, {| Cli.data := B "hello";
                                   Cli.ending := Cli.EOF |})];
              Cli.resolve := fun _ => 1;
              Cli.creatable := fun _ => true; Cli.outputRoom := None |} =
  Some {| Cli.exitCode := 1; Cli.stdout := [];
          Cli.stderr := Some Cli.FilenameRequired;
          Cli.filesAfter := [(1, {| Cli.data := B "hello";
                                    Cli.ending := Cli.EOF |})] |}.
Proof.
  apply (arguments_after_filename_rejected
           [B "-d"; B "|"] (B "input.txt") [B "-o"; B "output.txt"]
           (with_flags (with_delimiterArg (B "|")) defaultOptions));
    try reflexivity.
  discriminate.
Defined.

(** ** The buffered writer *)

Lemma fits_down cap m n :
  Cli.fits cap n = true -> m <= n -> Cli.fits cap m = true.
Proof. destruct cap as [K|]; cbn; [|auto]. intros H Hle. blia. Qed.

Lemma wr_Write_fits cap dv p :
  bufio.room dv = option_map (fun K => K - len (bufio.taken dv)) cap ->
  Cli.fits cap (len (bufio.taken dv ++ p)) = true ->
  bufio.wr_Write dv p =
  ({| bufio.taken := bufio.taken dv ++ p;
      bufio.room :=
        option_map (fun K => K - len (bufio.taken dv ++ p)) cap |},
   len p, false).
Proof.
  intros Hr Hf. unfold bufio.wr_Write. rewrite Hr.
  destruct cap as [K|]; cbn [option_map Cli.fits] in *; [|reflexivity].
  rewrite len_app in *.
  destruct (len p <=? K - len (bufio.taken dv)) eqn:E; [|exfalso; blia].
  replace (K - len (bufio.taken dv) - len p)
    with (K - (len (bufio.taken dv) + len p)) by lia.
  reflexivity.
Qed.

Lemma Flush_holds cap W b :
  Cli.holds cap W b -> Cli.fits cap (len W) = true ->
  exists b', bufio.Flush b = (b', false) /\ Cli.holds cap W b' /\
             bufio.buf b' = [].
Proof.
  intros (He & Hw & Hr) Hf. unfold bufio.Flush. rewrite He.
  destruct (len (bufio.buf b) =? 0) eqn:E.
  - exists b. repeat split; auto. apply len_zero. blia.
  - rewrite (wr_Write_fits cap) by (auto; now rewrite Hw).
    rewrite Z.ltb_irrefl. cbn [andb].
    eexists. split; [reflexivity|]. repeat split; cbn.
    now rewrite app_nil_r.
Qed.

Lemma slice_from p n : slice p 0 n ++ from p n = p.
Proof. unfold slice, from. rewrite Z.sub_0_r. cbn [Z.to_nat skipn]. apply firstn_skipn. Qed.

Lemma len_slice_le p n : len (slice p 0 n) <= len p.
Proof.
  unfold slice, len. rewrite Z.sub_0_r. cbn [Z.to_nat skipn].
  rewrite length_firstn. lia.
Qed.

Lemma Write_loop_holds cap fuel :
  forall b p W,
    Cli.holds cap W b -> Cli.fits cap (len (W ++ p)) = true ->
    exists W',
      Cli.holds cap W' (fst (bufio.Write_loop fuel b p)) /\
      W' ++ snd (bufio.Write_loop fuel b p) = W ++ p.
Proof.
  induction fuel as [|fuel IH]; intros b p W Hb Hf; cbn [bufio.Write_loop].
  - exists W. now split.
  - destruct ((bufio.Available b <? len p) && negb (bufio.err b));
      [|exists W; now split].
    destruct Hb as (He & Hw & Hr).
    destruct (bufio.Buffered b =? 0) eqn:E0.
    + assert (Hbuf : bufio.buf b = [])
        by (apply len_zero; unfold bufio.Buffered in E0; blia).
      rewrite Hbuf, app_nil_r in Hw.
      rewrite (wr_Write_fits cap) by (auto; now rewrite Hw).
      destruct (IH {| bufio.wr :=
                        {| bufio.taken := bufio.taken (bufio.wr b) ++ p;
                           bufio.room :=
                             option_map
                               (fun K => K - len (bufio.taken (bufio.wr b)
                                                  ++ p)) cap |};
                      bufio.buf := bufio.buf b; bufio.err := false |}
                   (from p (len p)) (W ++ p)) as (W' & H1 & H2).
      * repeat split; cbn. now rewrite Hbuf, app_nil_r, Hw.
      * assert (from p (len p) = []) as ->
          by (unfold from, len; rewrite Nat2Z.id; apply skipn_all).
        now rewrite app_nil_r.
      * exists W'. split; [exact H1|]. rewrite H2.
        assert (from p (len p) = []) as ->
          by (unfold from, len; rewrite Nat2Z.id; apply skipn_all).
        now rewrite app_nil_r.
    + set (n := Z.min (bufio.Available b) (len p)).
      set (b1 := {| bufio.wr := bufio.wr b;
                    bufio.buf := bufio.buf b ++ slice p 0 n;
                    bufio.err := bufio.err b |}).
      assert (Hb1 : Cli.holds cap (W ++ slice p 0 n) b1).
      { repeat split; cbn; auto. now rewrite app_assoc, Hw. }
      assert (Hf1 : Cli.fits cap (len (W ++ slice p 0 n)) = true).
      { apply (fits_down _ _ _ Hf). rewrite !len_app.
        pose proof (len_slice_le p n). lia. }
      destruct (Flush_holds _ _ _ Hb1 Hf1) as (b2 & HF & Hb2 & _).
      rewrite HF. cbn [fst].
      destruct (IH b2 (from p n) (W ++ slice p 0 n) Hb2) as (W' & H1 & H2).
      * now rewrite <- app_assoc, slice_from.
      * exists W'. split; [exact H1|].
        now rewrite H2, <- app_assoc, slice_from.
Qed.

(** A write that the device has room for is taken, in the device or in
    the buffer, and returns no error. *)
Lemma Write_holds cap W b p :
  Cli.holds cap W b -> Cli.fits cap (len (W ++ p)) = true ->
  exists b', bufio.Write b p = (b', false) /\ Cli.holds cap (W ++ p) b'.
Proof.
  intros Hb Hf. unfold bufio.Write.
  destruct (Write_loop_holds cap 3 b p W Hb Hf) as (W' & (He & Hw & Hr) & H2).
  destruct (bufio.Write_loop 3 b p) as [b' p']. cbn [fst snd] in *.
  rewrite He. eexists. split; [reflexivity|]. repeat split; cbn; auto.
  now rewrite app_assoc, Hw.
Qed.

(** A write that fits in the buffer stays there. *)
Lemma Write_buffered b p :
  bufio.err b = false ->
  len (bufio.buf b) + len p <= bufio.defaultBufSize ->
  bufio.Write b p =
  ({| bufio.wr := bufio.wr b; bufio.buf := bufio.buf b ++ p;
      bufio.err := false |}, false).
Proof.
  intros He Hl. unfold bufio.Write. cbn [bufio.Write_loop].
  unfold bufio.Available.
  destruct (bufio.defaultBufSize - len (bufio.buf b) <? len p) eqn:E; [blia|].
  cbn [andb]. now rewrite He.
Qed.

(** ** The loop with its failures, when none is met *)

Section NoFailure.

Variable fl : Flags.
Variable d : bytes.

(** What the writer keeps true of the bytes handed to it so far, as
    long as their number stays within [Q]. *)
Variable Inv : bytes -> bufio.Writer -> Prop.
Variable Q : Z -> Prop.

Hypothesis Q_down : forall m n, Q n -> m <= n -> Q m.
Hypothesis Write_Inv :
  forall W p b,
    Inv W b -> Q (len (W ++ p)) ->
    exists b', bufio.Write b p = (b', false) /\ Inv (W ++ p) b'.

Lemma written_grows k line e : len (written k) <= len (written (processLine k line d e)).
Proof.
  rewrite written_processLine, len_app.
  pose proof (len_nonneg
    (d ++ (if e && (0 <? len d) then Strings.ReplaceAll line d (92 :: d)
           else line) ++ d ++ [10])).
  lia.
Qed.

Lemma guarded_write (c : bool) k b line :
  Inv (written k) b ->
  Q (len (written (if c then processLine k line d (escapeDelim fl) else k))) ->
  exists b',
    (if c then Cli.processLine fl d k b line else (k, b, false)) =
    ((if c then processLine k line d (escapeDelim fl) else k), b', false) /\
    Inv (written (if c then processLine k line d (escapeDelim fl) else k)) b'.
Proof.
  intros Hi Hq. destruct c; [|now exists b].
  unfold Cli.processLine.
  destruct (Write_Inv (written k)
              (outputBuf (processLine k line d (escapeDelim fl))) b Hi Hq)
    as (b' & -> & Hi').
  exists b'. now split.
Qed.

(** A round of the loop with its failures is the round of [iteration]
    when the reads end with [io.EOF] and the writes are within [Q]. *)
Lemma iteration_no_failure st b :
  Inv (written (sink st)) b ->
  match iteration fl d st with
  | Continue st' =>
      Q (len (written (sink st'))) ->
      exists b', Cli.iteration fl d Cli.EOF st b = Cli.Next st' b' /\
                 Inv (written (sink st')) b'
  | Break st' =>
      Q (len (written (sink st'))) ->
      exists b', Cli.iteration fl d Cli.EOF st b = Cli.Finished st' b' /\
                 Inv (written (sink st')) b'
  end.
Proof.
  intros Hi. unfold iteration, Cli.iteration.
  destruct (ReadBytes (unread st) (delimByte fl)) as [[line eof] rest].
  rewrite andb_false_r.
  set (cut := if (0 <? len line) && (at_ line (len line - 1) =? delimByte fl)
              then slice line 0 (len line - 1) else line).
  destruct eof.
  - cbn [sink]. intros Hq.
    set (c1 := 0 <? len (strip fl (bufferedLine st))) in *.
    set (c2 := 0 <? len (strip fl cut)) in *.
    destruct (hasBufferedLine st) eqn:Eh.
    + set (k1 := if c1 then processLine (sink st) (strip fl (bufferedLine st))
                                d (escapeDelim fl) else sink st) in *.
      assert (Hq1 : Q (len (written k1))).
      { apply (Q_down _ _ Hq).
        destruct (0 <? len cut); [|lia].
        destruct c2; [apply written_grows | lia]. }
      destruct (guarded_write c1 (sink st) b (strip fl (bufferedLine st))
                  Hi Hq1) as (b1 & -> & Hi1).
      fold k1 in Hi1 |- *.
      destruct (0 <? len cut).
      * destruct (guarded_write c2 k1 b1 (strip fl cut) Hi1 Hq)
          as (b2 & -> & Hi2).
        exists b2. now split.
      * exists b1. now split.
    + destruct (0 <? len cut).
      * destruct (guarded_write c2 (sink st) b (strip fl cut) Hi Hq)
          as (b2 & -> & Hi2).
        exists b2. now split.
      * exists b. now split.
  - cbn [sink]. intros Hq.
    destruct (hasBufferedLine st).
    + destruct (guarded_write
                  ((0 <? len (strip fl (bufferedLine st)))
                   || negb (skipEmpty fl))
                  (sink st) b (strip fl (bufferedLine st)) Hi Hq)
        as (b1 & -> & Hi1).
      exists b1. now split.
    + exists b. now split.
Qed.

Lemma loop_no_failure fuel :
  forall st st' b,
    loop fl d fuel st = Some st' ->
    Inv (written (sink st)) b -> Q (len (written (sink st'))) ->
    exists b', Cli.loop fl d Cli.EOF fuel st b = Some (Cli.Finished st' b') /\
               Inv (written (sink st')) b'.
Proof.
  induction fuel as [|fuel IH]; intros st st' b Hl Hi Hq; [discriminate|].
  cbn [loop Cli.loop] in *.
  pose proof (iteration_no_failure st b Hi) as Hit.
  destruct (iteration fl d st) as [st1 | st1].
  - assert (Hq1 : Q (len (written (sink st1)))).
    { apply (Q_down _ _ Hq). rewrite (loop_written _ _ _ _ _ Hl), len_app.
      match goal with |- _ <= _ + len ?x => pose proof (len_nonneg x) end.
      lia. }
    destruct (Hit Hq1) as (b1 & -> & Hi1).
    exact (IH st1 st' b1 Hl Hi1 Hq).
  - injection Hl as <-. destruct (Hit Hq) as (b1 & -> & Hi1).
    exists b1. now split.
Qed.

End NoFailure.
(** ** Files *)

Lemma lookup_store_same fs id s : Cli.lookup (Cli.store fs id s) id = Some s.
Proof. unfold Cli.store. cbn [Cli.lookup]. now rewrite Z.eqb_refl. Qed.

Lemma lookup_store_other fs i s id :
  i <> id -> Cli.lookup (Cli.store fs i s) id = Cli.lookup fs id.
Proof.
  intros Hn. unfold Cli.store. cbn [Cli.lookup].
  apply Z.eqb_neq in Hn. rewrite Hn.
  induction fs as [|[m x] fs IH]; [reflexivity|].
  cbn [filter Cli.lookup fst].
  destruct (m =? i) eqn:E; cbn [negb].
  - apply Z.eqb_eq in E. subst m. now rewrite Hn.
  - cbn [Cli.lookup]. now rewrite IH.
Qed.

Lemma store_store fs id a b :
  Cli.store (Cli.store fs id a) id b = Cli.store fs id b.
Proof.
  unfold Cli.store. f_equal. cbn [filter fst].
  rewrite Z.eqb_refl. cbn [negb].
  induction fs as [|[m x] fs IH]; [reflexivity|].
  cbn [filter fst]. destruct (m =? id) eqn:E; cbn [negb]; [exact IH|].
  cbn [filter fst]. rewrite E. cbn [negb]. now rewrite IH.
Qed.

Lemma bytes_eqb_neq a b : a <> b -> bytes_eqb a b = false.
Proof.
  intros H. destruct (bytes_eqb a b) eqn:E; [|reflexivity].
  apply bytes_eqb_eq in E. contradiction.
Qed.

(** ** From the command line to the loop *)

Lemma deliver_outcome o w code m b :
  Cli.deliver code m
    (if bytes_eqb (outputFile o) [] then Cli.Stdout
     else Cli.OutFile (Cli.resolve w (outputFile o)))
    (if bytes_eqb (outputFile o) [] then Cli.files w
     else Cli.store (Cli.files w) (Cli.resolve w (outputFile o)) Cli.empty)
    b =
  Cli.outcome o w code m (bufio.taken (bufio.wr b)).
Proof.
  unfold Cli.deliver, Cli.outcome.
  destruct (bytes_eqb (outputFile o) []); [reflexivity|].
  now rewrite store_store.
Qed.

(** With a file name chosen, an input that opens and an output that
    is set up and is not the input file, the run is the loop on the
    stream of the input and on a new writer. *)
Lemma mainParsed_loop o args w filename s d :
  showVersion o = false ->
  parseDelimiter (delimiterArg (flags o)) = (d, None) ->
  Cli.chooseFilename args (Cli.inputIsTerminal w) = Some filename ->
  (if bytes_eqb filename (B "-") then Some (Cli.stdin w)
   else Cli.lookup (Cli.files w) (Cli.resolve w filename)) = Some s ->
  outputFile o = [] \/
  (Cli.creatable w (outputFile o) = true /\
   (filename = B "-" \/
    Cli.resolve w (outputFile o) <> Cli.resolve w filename)) ->
  Cli.mainParsed o args w =
  match Cli.loop (flags o) d (Cli.ending s) (S (length (Cli.data s)))
                 (initial (Cli.data s))
                 (bufio.NewWriter {| bufio.taken := [];
                                     bufio.room := Cli.outputRoom w |}) with
  | None | Some (Cli.Next _ _) => None
  | Some (Cli.Finished _ b) =>
      Some (Cli.outcome o w 0 None
              (bufio.taken (bufio.wr (fst (bufio.Flush b)))))
  | Some (Cli.ReadFailure b) =>
      Some (Cli.outcome o w 1 (Some Cli.ReadFailed)
              (bufio.taken (bufio.wr b)))
  | Some (Cli.WriteFailure b) =>
      Some (Cli.outcome o w 1 (Some Cli.WriteFailed)
              (bufio.taken (bufio.wr b)))
  end.
Proof.
  intros Hv Hd Hf Hin Hout. unfold Cli.mainParsed. rewrite Hv, Hd, Hf.
  assert (Hopen :
            (if bytes_eqb filename (B "-") then Some None
             else match Cli.lookup (Cli.files w) (Cli.resolve w filename) with
                  | Some _ => Some (Some (Cli.resolve w filename))
                  | None => None
                  end) =
            Some (if bytes_eqb filename (B "-") then None
                  else Some (Cli.resolve w filename))).
  { destruct (bytes_eqb filename (B "-")); [reflexivity|]. now rewrite Hin. }
  rewrite Hopen.
  assert (Hcreate :
            (if negb (bytes_eqb (outputFile o) [])
             then if Cli.creatable w (outputFile o)
                  then Some (Cli.OutFile (Cli.resolve w (outputFile o)),
                             Cli.store (Cli.files w)
                                       (Cli.resolve w (outputFile o)) Cli.empty)
                  else None
             else Some (Cli.Stdout, Cli.files w)) =
            Some (if bytes_eqb (outputFile o) [] then Cli.Stdout
                  else Cli.OutFile (Cli.resolve w (outputFile o)),
                  if bytes_eqb (outputFile o) [] then Cli.files w
                  else Cli.store (Cli.files w)
                                 (Cli.resolve w (outputFile o)) Cli.empty)).
  { destruct (bytes_eqb (outputFile o) []) eqn:Eo; cbn [negb]; [reflexivity|].
    destruct Hout as [Hout | [Hc _]]; [|now rewrite Hc].
    rewrite Hout in Eo. discriminate. }
  rewrite Hcreate.
  assert (Hs :
            match (if bytes_eqb filename (B "-") then None
                   else Some (Cli.resolve w filename)) with
            | None => Cli.stdin w
            | Some id =>
                match Cli.lookup
                        (if bytes_eqb (outputFile o) [] then Cli.files w
                         else Cli.store (Cli.files w)
                                (Cli.resolve w (outputFile o)) Cli.empty) id
                with Some s0 => s0 | None => Cli.empty end
            end = s).
  { destruct (bytes_eqb filename (B "-")) eqn:Ed; [congruence|].
    destruct (bytes_eqb (outputFile o) []) eqn:Eo; [now rewrite Hin|].
    destruct Hout as [Hout | [_ [Hdash | Hdiff]]].
    - rewrite Hout in Eo. discriminate.
    - rewrite Hdash, bytes_eqb_refl in Ed. discriminate.
    - rewrite lookup_store_other by exact Hdiff. now rewrite Hin. }
  rewrite Hs.
  destruct (Cli.loop (flags o) d (Cli.ending s) (S (length (Cli.data s)))
              (initial (Cli.data s))
              (bufio.NewWriter {| bufio.taken := [];
                                  bufio.room := Cli.outputRoom w |}))
    as [[st b | st b | b | b]|]; try reflexivity;
    now rewrite deliver_outcome.
Qed.
(** ** The loop with its failures ends *)

Lemma ReadBytes_shorter sep :
  forall u line rest,
    ReadBytes u sep = (line, false, rest) -> (length rest < length u)%nat.
Proof.
  induction u as [|c u IH]; intros line rest H; cbn [ReadBytes] in H;
    [discriminate|].
  destruct (c =? sep).
  - injection H as _ <-. cbn [length]. lia.
  - destruct (ReadBytes u sep) as [[l e] r] eqn:E.
    injection H as _ -> <-. specialize (IH _ _ eq_refl). cbn [length]. lia.
Qed.

Lemma iteration_Next_shorter fl d e st b st' b' :
  Cli.iteration fl d e st b = Cli.Next st' b' ->
  (length (unread st') < length (unread st))%nat.
Proof.
  unfold Cli.iteration.
  destruct (ReadBytes (unread st) (delimByte fl)) as [[line eof] rest] eqn:E.
  destruct eof.
  - cbn [andb]. destruct e; [|discriminate].
    match goal with
    | |- context [if hasBufferedLine st then ?x else ?y] =>
        destruct (if hasBufferedLine st then x else y) as [[k1 b1] []]
    end; [discriminate|].
    match goal with
    | |- context [if 0 <? len ?l then ?x else ?y] =>
        destruct (if 0 <? len l then x else y) as [[k2 b2] []]
    end; discriminate.
  - cbn [andb].
    match goal with
    | |- context [if hasBufferedLine st then ?x else ?y] =>
        destruct (if hasBufferedLine st then x else y) as [[k1 b1] []]
    end; [discriminate|].
    intros H. injection H as <- _. cbn [unread].
    exact (ReadBytes_shorter _ _ _ _ E).
Qed.

(** Whatever the reads and the writes do, the loop ends within its
    bound, and not with [Next]. *)
Lemma Cli_loop_total fl d e fuel :
  forall st b,
    (length (unread st) < fuel)%nat ->
    (exists st' b', Cli.loop fl d e fuel st b = Some (Cli.Finished st' b')) \/
    (exists b', Cli.loop fl d e fuel st b = Some (Cli.ReadFailure b')) \/
    (exists b', Cli.loop fl d e fuel st b = Some (Cli.WriteFailure b')).
Proof.
  induction fuel as [|fuel IH]; intros st b Hf; [lia|].
  cbn [Cli.loop].
  destruct (Cli.iteration fl d e st b) as [st1 b1 | st1 b1 | b1 | b1] eqn:E.
  - apply IH. apply iteration_Next_shorter in E. lia.
  - left. now exists st1, b1.
  - right. left. now exists b1.
  - right. right. now exists b1.
Qed.

(** How [main] ends after [flag.Parse()]: with status 0; with status 1
    and a message before anything was opened for writing; or with
    status 1 after a read or a write that failed. *)
Lemma mainParsed_result o args w :
  exists r,
    Cli.mainParsed o args w = Some r /\
    ((Cli.exitCode r = 0 /\ Cli.stderr r = None) \/
     (Cli.exitCode r = 1 /\ Cli.stdout r = [] /\
      Cli.filesAfter r = Cli.files w /\
      Cli.stderr r <> None /\ Cli.stderr r <> Some Cli.ReadFailed /\
      Cli.stderr r <> Some Cli.WriteFailed) \/
     (Cli.exitCode r = 1 /\
      (Cli.stderr r = Some Cli.ReadFailed \/
       Cli.stderr r = Some Cli.WriteFailed))).
Proof.
  assert (Hfail : forall m,
             m <> Cli.ReadFailed -> m <> Cli.WriteFailed ->
             exists r,
               Some (Cli.fail 1 m w) = Some r /\
               ((Cli.exitCode r = 0 /\ Cli.stderr r = None) \/
                (Cli.exitCode r = 1 /\ Cli.stdout r = [] /\
                 Cli.filesAfter r = Cli.files w /\
                 Cli.stderr r <> None /\
                 Cli.stderr r <> Some Cli.ReadFailed /\
                 Cli.stderr r <> Some Cli.WriteFailed) \/
                (Cli.exitCode r = 1 /\
                 (Cli.stderr r = Some Cli.ReadFailed \/
                  Cli.stderr r = Some Cli.WriteFailed)))).
  { intros m H1 H2. eexists. split; [reflexivity|]. right. left.
    cbn. repeat split; congruence. }
  unfold Cli.mainParsed.
  destruct (showVersion o).
  { eexists. split; [reflexivity|]. left. now split. }
  destruct (parseDelimiter (delimiterArg (flags o))) as [d [e|]];
    [apply Hfail; discriminate|].
  destruct (Cli.chooseFilename args (Cli.inputIsTerminal w)) as [filename|];
    [|apply Hfail; discriminate].
  cbv zeta.
  assert (Hin : exists input,
             (if bytes_eqb filename (B "-") then Some None
              else match Cli.lookup (Cli.files w) (Cli.resolve w filename) with
                   | Some _ => Some (Some (Cli.resolve w filename))
                   | None => None
                   end) = input) by (eexists; reflexivity).
  destruct Hin as [[input|] ->]; [|apply Hfail; discriminate].
  assert (Hout : exists created,
             (if negb (bytes_eqb (outputFile o) []) then
                if Cli.creatable w (outputFile o)
                then Some (Cli.OutFile (Cli.resolve w (outputFile o)),
                           Cli.store (Cli.files w)
                                     (Cli.resolve w (outputFile o)) Cli.empty)
                else None
              else Some (Cli.Stdout, Cli.files w)) = created)
    by (eexists; reflexivity).
  destruct Hout as [[[output fs]|] ->]; [|apply Hfail; discriminate].
  match goal with
  | |- context [Cli.loop ?f ?dd ?en (S (length ?u)) (initial ?u) ?b] =>
      destruct (Cli_loop_total f dd en (S (length u)) (initial u) b)
        as [(st' & b' & ->) | [(b' & ->) | (b' & ->)]];
      [cbn [unread initial]; lia | | |]
  end.
  - eexists. split; [reflexivity|]. left. destruct output; now split.
  - eexists. split; [reflexivity|]. right. right.
    destruct output; cbn; auto.
  - eexists. split; [reflexivity|]. right. right.
    destruct output; cbn; auto.
Qed.

(** X23. Every command line ends the run, with status 0, 1 or 2, and
    a run that ends with another status than 0 has given a message.
    When that message is not the one of a failed read or a failed write,
    the run has ended before anything was opened for writing: nothing
    is on the standard output and every file is as it was, the output
    file neither created nor emptied. *)
Theorem failure_before_loop_leaves_no_trace argv w :
  exists r,
    Cli.main argv w = Some r /\
    (Cli.exitCode r = 0 \/ Cli.exitCode r = 1 \/ Cli.exitCode r = 2) /\
    (Cli.exitCode r = 0 \/ Cli.stderr r <> None) /\
    (Cli.exitCode r = 0 \/
     Cli.stderr r = Some Cli.ReadFailed \/
     Cli.stderr r = Some Cli.WriteFailed \/
     (Cli.stdout r = [] /\ Cli.filesAfter r = Cli.files w)).
Proof.
  unfold Cli.main, flag.Parse.
  destruct (Parse_loop_total (S (length argv)) argv defaultOptions)
    as [p Hp]; [lia|]. rewrite Hp.
  destruct p as [o args | code e].
  - destruct (mainParsed_result o args w)
      as (r & -> & [[H0 He] | [(H1 & Ho & Hf & He & _) | (H1 & He)]]);
      exists r; (split; [reflexivity|]).
    + repeat split; auto.
    + repeat split; auto.
    + repeat split; auto.
      * right. destruct He as [-> | ->]; discriminate.
      * destruct He; auto.
  - eexists. split; [reflexivity|]. cbn.
    destruct (Parse_loop_exit _ _ _ _ _ Hp) as [-> | ->];
      repeat split; auto; right; try discriminate; right; right; auto.
Qed.

(** ** The loop on an empty input *)

Lemma loop_empty fl d b :
  Cli.loop fl d Cli.EOF 1 (initial []) b = Some (Cli.Finished (initial []) b).
Proof. reflexivity. Qed.

(** X24. When the output file of [-o] is the input file itself, under
    the same name or under another name of the same file, the run
    succeeds and the file is left empty, whatever it held and whatever
    the flags: the file is emptied when it is created for writing,
    before the first line is read from it. *)
Theorem output_onto_input_empties_file o f s w :
  showVersion o = false ->
  snd (parseDelimiter (delimiterArg (flags o))) = None ->
  outputFile o <> [] -> f <> B "-" ->
  Cli.resolve w (outputFile o) = Cli.resolve w f ->
  Cli.lookup (Cli.files w) (Cli.resolve w f) = Some s ->
  Cli.creatable w (outputFile o) = true ->
  Cli.mainParsed o [f] w =
  Some {| Cli.exitCode := 0; Cli.stdout := []; Cli.stderr := None;
          Cli.filesAfter :=
            Cli.store (Cli.files w) (Cli.resolve w f) Cli.empty |}.
Proof.
  intros Hv Hd Hne Hdash Hsame Hl Hc. unfold Cli.mainParsed. rewrite Hv.
  destruct (parseDelimiter (delimiterArg (flags o))) as [d [e|]];
    [discriminate|].
  cbn [Cli.chooseFilename]. rewrite (bytes_eqb_neq _ _ Hdash), Hl.
  rewrite (bytes_eqb_neq _ _ Hne). cbn [negb]. rewrite Hc, Hsame.
  rewrite lookup_store_same.
  change (Cli.data Cli.empty) with (@nil byte).
  change (Cli.ending Cli.empty) with Cli.EOF.
  change (S (length (@nil byte))) with 1%nat.
  rewrite loop_empty. cbn. now rewrite store_store.
Qed.

Lemma output_onto_input_empties_file_witness :
  Cli.mainParsed (with_outputFile (B "./f") defaultOptions) [B "f"]
    {| Cli.inputIsTerminal := true; Cli.stdin := Cli.empty;
       Cli.files := [(2, {| Cli.data := B "kept"; Cli.ending := Cli.EOF |});
                     (1, {| Cli.data := B "lost"; Cli.ending := Cli.EOF |})];
       Cli.resolve := fun p => if bytes_eqb p (B "g") then 2 else 1;
       Cli.creatable := fun _ => true; Cli.outputRoom := None |} =
  Some {| Cli.exitCode := 0; Cli.stdout := []; Cli.stderr := None;
          Cli.filesAfter :=
            [(1, Cli.empty);
             (2, {| Cli.data := B "kept"; Cli.ending := Cli.EOF |})] |}.
Proof.
  apply (output_onto_input_empties_file
           (with_outputFile (B "./f") defaultOptions) (B "f")
           {| Cli.data := B "lost"; Cli.ending := Cli.EOF |});
    try reflexivity; discriminate.
Defined.
(** ** Runs that reach the loop *)

Lemma run_loop fl d input :
  exists st,
    loop fl d (S (length input)) (initial input) = Some st /\
    run fl d input = Some (written (sink st)).
Proof.
  pose proof (run_drain fl d input) as H. unfold run in *.
  destruct (loop fl d (S (length input)) (initial input)) as [st|];
    [|discriminate].
  now exists st.
Qed.

Lemma holds_NewWriter cap :
  Cli.holds cap []
    (bufio.NewWriter {| bufio.taken := []; bufio.room := cap |}).
Proof.
  repeat split. cbn. destruct cap as [K|]; cbn; [|reflexivity].
  f_equal. change (len []) with 0. lia.
Qed.

(** X25. With a file name chosen, an input that opens and is read to
    its end without error, an output that can be created and is not the
    input file under any of its names, and a device that takes all of
    the output, the run is the delimiter resolution and the loop on the
    flags as given and on the bytes of the input: an invalid delimiter
    ends it with status 1 and no output; otherwise all of the output
    goes to the file of [-o], replacing what it held, and nothing to the
    standard output, or, with no [-o], to the standard output and no
    file changes. *)
Theorem command_line_runs_pipeline o args w filename s :
  showVersion o = false ->
  Cli.chooseFilename args (Cli.inputIsTerminal w) = Some filename ->
  (if bytes_eqb filename (B "-") then Some (Cli.stdin w)
   else Cli.lookup (Cli.files w) (Cli.resolve w filename)) = Some s ->
  Cli.ending s = Cli.EOF ->
  (forall out,
     main (flags o) (Cli.data s) = Some (ExitOK out) ->
     Cli.fits (Cli.outputRoom w) (len out) = true) ->
  outputFile o = [] \/
  (Cli.creatable w (outputFile o) = true /\
   (filename = B "-" \/
    Cli.resolve w (outputFile o) <> Cli.resolve w filename)) ->
  exists e,
    main (flags o) (Cli.data s) = Some e /\
    Cli.mainParsed o args w =
    Some (match e with
          | ExitInvalidDelimiter err =>
              Cli.fail 1 (Cli.InvalidDelimiter err) w
          | ExitOK out =>
              if bytes_eqb (outputFile o) []
              then {| Cli.exitCode := 0; Cli.stdout := out;
                      Cli.stderr := None; Cli.filesAfter := Cli.files w |}
              else {| Cli.exitCode := 0; Cli.stdout := [];
                      Cli.stderr := None;
                      Cli.filesAfter :=
                        Cli.store (Cli.files w)
                                  (Cli.resolve w (outputFile o))
                                  {| Cli.data := out;
                                     Cli.ending := Cli.EOF |} |}
          end).
Proof.
  intros Hv Hf Hin Hend Hroom Hout. rewrite main_run in *.
  destruct (parseDelimiter (delimiterArg (flags o))) as [d [e|]] eqn:Hd.
  - exists (ExitInvalidDelimiter e). split; [reflexivity|].
    unfold Cli.mainParsed. now rewrite Hv, Hd.
  - destruct (run_loop (flags o) d (Cli.data s)) as (st & Hl & Hr).
    rewrite Hr in *. cbn [option_map] in *.
    exists (ExitOK (written (sink st))). split; [reflexivity|].
    specialize (Hroom _ eq_refl).
    rewrite (mainParsed_loop o args w filename s d Hv Hd Hf Hin Hout), Hend.
    destruct (loop_no_failure (flags o) d
                (Cli.holds (Cli.outputRoom w))
                (fun n => Cli.fits (Cli.outputRoom w) n = true)
                (fits_down (Cli.outputRoom w))
                (fun W p b => Write_holds (Cli.outputRoom w) W b p)
                _ _ _ _ Hl (holds_NewWriter (Cli.outputRoom w)) Hroom)
      as (b' & -> & Hb').
    destruct (Flush_holds _ _ _ Hb' Hroom) as (b2 & -> & (_ & Hw & _) & Hbuf).
    cbn [fst]. rewrite Hbuf, app_nil_r in Hw. rewrite Hw.
    reflexivity.
Qed.

Lemma command_line_runs_pipeline_witness :
  exists e,
    main (with_skipEmpty true defaultFlags) (B "a" ++ [10; 10] ++ B "b") =
      Some e /\
    Cli.mainParsed
      (with_outputFile (B "out.txt")
         (with_flags (with_skipEmpty true) defaultOptions))
      [B "in.txt"]
      {| Cli.inputIsTerminal := true; Cli.stdin := Cli.empty;
         Cli.files :=
           [(1, {| Cli.data := B "a" ++ [10; 10] ++ B "b";
                   Cli.ending := Cli.EOF |});
            (2, {| Cli.data := B "old"; Cli.ending := Cli.EOF |})];
         Cli.resolve := fun p => if bytes_eqb p (B "in.txt") then 1 else 2;
         Cli.creatable := fun _ => true; Cli.outputRoom := Some 8 |} =
    Some (match e with
          | ExitInvalidDelimiter err =>
              Cli.fail 1 (Cli.InvalidDelimiter err)
                {| Cli.inputIsTerminal := true; Cli.stdin := Cli.empty;
                   Cli.files :=
                     [(1, {| Cli.data := B "a" ++ [10; 10] ++ B "b";
                             Cli.ending := Cli.EOF |});
                      (2, {| Cli.data := B "old"; Cli.ending := Cli.EOF |})];
                   Cli.resolve :=
                     fun p => if bytes_eqb p (B "in.txt") then 1 else 2;
                   Cli.creatable := fun _ => true;
                   Cli.outputRoom := Some 8 |}
          | ExitOK out =>
              {| Cli.exitCode := 0; Cli.stdout := []; Cli.stderr := None;
                 Cli.filesAfter :=
                   [(2, {| Cli.data := out; Cli.ending := Cli.EOF |});
                    (1, {| Cli.data := B "a" ++ [10; 10] ++ B "b";
                           Cli.ending := Cli.EOF |})] |}
          end).
Proof.
  apply (command_line_runs_pipeline
           (with_outputFile (B "out.txt")
              (with_flags (with_skipEmpty true) defaultOptions))
           [B "in.txt"]
           {| Cli.inputIsTerminal := true; Cli.stdin := Cli.empty;
              Cli.files :=
                [(1, {| Cli.data := B "a" ++ [10; 10] ++ B "b";
                        Cli.ending := Cli.EOF |});
                 (2, {| Cli.data := B "old"; Cli.ending := Cli.EOF |})];
              Cli.resolve :=
                fun p => if bytes_eqb p (B "in.txt") then 1 else 2;
              Cli.creatable := fun _ => true; Cli.outputRoom := Some 8 |}
           (B "in.txt")
           {| Cli.data := B "a" ++ [10; 10] ++ B "b";
              Cli.ending := Cli.EOF |}); try reflexivity.
  - intros out H. vm_compute in H. injection H as <-. reflexivity.
  - right. split; [reflexivity|]. right. vm_compute. discriminate.
Defined.

(** X26. When the first read on the input fails before a separator is
    met, as every read on a directory does, the run ends with the
    message of a failed read and status 1, nothing on the standard
    output; by then the file of [-o] has been created, or emptied, and
    it is left empty. *)
Theorem read_failure_after_create o args w filename s :
  showVersion o = false ->
  snd (parseDelimiter (delimiterArg (flags o))) = None ->
  Cli.chooseFilename args (Cli.inputIsTerminal w) = Some filename ->
  (if bytes_eqb filename (B "-") then Some (Cli.stdin w)
   else Cli.lookup (Cli.files w) (Cli.resolve w filename)) = Some s ->
  Cli.ending s = Cli.ReadError ->
  ~ In (delimByte (flags o)) (Cli.data s) ->
  outputFile o = [] \/
  (Cli.creatable w (outputFile o) = true /\
   (filename = B "-" \/
    Cli.resolve w (outputFile o) <> Cli.resolve w filename)) ->
  Cli.mainParsed o args w =
  Some {| Cli.exitCode := 1; Cli.stdout := [];
          Cli.stderr := Some Cli.ReadFailed;
          Cli.filesAfter :=
            if bytes_eqb (outputFile o) [] then Cli.files w
            else Cli.store (Cli.files w) (Cli.resolve w (outputFile o))
                           Cli.empty |}.
Proof.
  intros Hv Hd Hf Hin Hend Hsep Hout.
  destruct (parseDelimiter (delimiterArg (flags o))) as [d [e|]] eqn:Ed;
    [discriminate|].
  rewrite (mainParsed_loop o args w filename s d Hv Ed Hf Hin Hout), Hend.
  cbn [Cli.loop]. unfold Cli.iteration. cbn [unread initial].
  rewrite (ReadBytes_eof _ _ Hsep). cbn [andb].
  unfold Cli.outcome. cbn.
  destruct (bytes_eqb (outputFile o) []); reflexivity.
Qed.

Lemma read_failure_after_create_witness :
  Cli.mainParsed (with_outputFile (B "out.txt") defaultOptions) [B "dir"]
    {| Cli.inputIsTerminal := true; Cli.stdin := Cli.empty;
       Cli.files := [(1, {| Cli.data := []; Cli.ending := Cli.ReadError |});
                     (2, {| Cli.data := B "old"; Cli.ending := Cli.EOF |})];
       Cli.resolve := fun p => if bytes_eqb p (B "dir") then 1 else 2;
       Cli.creatable := fun _ => true; Cli.outputRoom := None |} =
  Some {| Cli.exitCode := 1; Cli.stdout := [];
          Cli.stderr := Some Cli.ReadFailed;
          Cli.filesAfter :=
            [(2, Cli.empty);
             (1, {| Cli.data := []; Cli.ending := Cli.ReadError |})] |}.
Proof.
  apply (read_failure_after_create
           (with_outputFile (B "out.txt") defaultOptions) [B "dir"]
           {| Cli.inputIsTerminal := true; Cli.stdin := Cli.empty;
              Cli.files :=
                [(1, {| Cli.data := []; Cli.ending := Cli.ReadError |});
                 (2, {| Cli.data := B "old"; Cli.ending := Cli.EOF |})];
              Cli.resolve := fun p => if bytes_eqb p (B "dir") then 1 else 2;
              Cli.creatable := fun _ => true; Cli.outputRoom := None |}
           (B "dir") {| Cli.data := []; Cli.ending := Cli.ReadError |});
    try reflexivity.
  - intros [].
  - right. split; [reflexivity|]. right. vm_compute. discriminate.
Defined.

(** *** Output that stays in the buffer *)

Lemma buffered_Write dv W p b :
  Cli.buffered dv W b -> len (W ++ p) <= bufio.defaultBufSize ->
  exists b', bufio.Write b p = (b', false) /\ Cli.buffered dv (W ++ p) b'.
Proof.
  intros (He & Hw & Hb) Hl. rewrite len_app in Hl.
  rewrite Write_buffered by (auto; rewrite Hb; lia).
  eexists. split; [reflexivity|]. repeat split; cbn; auto. now rewrite Hb.
Qed.

(** X27. The error of the deferred [writer.Flush()] is dropped: when
    the whole output fits in the buffer of the writer and the device
    takes only [k] bytes, fewer than the output has, no write in the
    loop fails, the flush at the end does, and the run still ends with
    status 0 and no message, the output cut after its first [k]
    bytes. *)
Theorem flush_error_is_dropped o args w filename s out k :
  showVersion o = false ->
  Cli.chooseFilename args (Cli.inputIsTerminal w) = Some filename ->
  (if bytes_eqb filename (B "-") then Some (Cli.stdin w)
   else Cli.lookup (Cli.files w) (Cli.resolve w filename)) = Some s ->
  Cli.ending s = Cli.EOF ->
  main (flags o) (Cli.data s) = Some (ExitOK out) ->
  len out <= bufio.defaultBufSize ->
  Cli.outputRoom w = Some k -> 0 <= k < len out ->
  outputFile o = [] \/
  (Cli.creatable w (outputFile o) = true /\
   (filename = B "-" \/
    Cli.resolve w (outputFile o) <> Cli.resolve w filename)) ->
  Cli.mainParsed o args w =
  Some (if bytes_eqb (outputFile o) []
        then {| Cli.exitCode := 0; Cli.stdout := slice out 0 k;
                Cli.stderr := None; Cli.filesAfter := Cli.files w |}
        else {| Cli.exitCode := 0; Cli.stdout := [];
                Cli.stderr := None;
                Cli.filesAfter :=
                  Cli.store (Cli.files w) (Cli.resolve w (outputFile o))
                            {| Cli.data := slice out 0 k;
                               Cli.ending := Cli.EOF |} |}).
Proof.
  intros Hv Hf Hin Hend Hmain Hlen Hk Hlt Hout. rewrite main_run in Hmain.
  destruct (parseDelimiter (delimiterArg (flags o))) as [d [e|]] eqn:Hd;
    [discriminate|].
  destruct (run_loop (flags o) d (Cli.data s)) as (st & Hl & Hr).
  rewrite Hr in Hmain. cbn [option_map] in Hmain. injection Hmain as Hw.
  rewrite (mainParsed_loop o args w filename s d Hv Hd Hf Hin Hout), Hend.
  set (dv := {| bufio.taken := []; bufio.room := Cli.outputRoom w |}).
  assert (Hq : forall m n : Z,
             n <= bufio.defaultBufSize -> m <= n ->
             m <= bufio.defaultBufSize) by (intros; lia).
  assert (H0 : Cli.buffered dv (written (sink (initial (Cli.data s))))
                 (bufio.NewWriter dv)) by (repeat split).
  rewrite <- Hw in Hlen.
  destruct (loop_no_failure (flags o) d (Cli.buffered dv)
              (fun n => n <= bufio.defaultBufSize) Hq
              (fun W p b => buffered_Write dv W p b)
              _ _ _ _ Hl H0 Hlen) as (b' & -> & (He & Hdv & Hb)).
  rewrite Hw in *.
  unfold bufio.Flush. rewrite He, Hb, Hdv.
  destruct (len out =? 0) eqn:E0; [blia|].
  unfold bufio.wr_Write, dv. cbn [bufio.room bufio.taken]. rewrite Hk.
  destruct (len out <=? k) eqn:E1; [blia|].
  cbn [andb negb fst bufio.wr bufio.taken app].
  rewrite Z.max_r by lia.
  match goal with
  | |- context [if ?c then true else true] => destruct c
  end; reflexivity.
Qed.

Lemma flush_error_is_dropped_witness :
  Cli.mainParsed defaultOptions []
    {| Cli.inputIsTerminal := false;
       Cli.stdin := {| Cli.data := B "a" ++ [10] ++ B "b" ++ [10];
                       Cli.ending := Cli.EOF |};
       Cli.files := []; Cli.resolve := fun _ => 1;
       Cli.creatable := fun _ => true; Cli.outputRoom := Some 5 |} =
  Some {| Cli.exitCode := 0; Cli.stdout := [34; 97; 34; 10; 34];
          Cli.stderr := None; Cli.filesAfter := [] |}.
Proof.
  apply (flush_error_is_dropped defaultOptions []
           {| Cli.inputIsTerminal := false;
              Cli.stdin := {| Cli.data := B "a" ++ [10] ++ B "b" ++ [10];
                              Cli.ending := Cli.EOF |};
              Cli.files := []; Cli.resolve := fun _ => 1;
              Cli.creatable := fun _ => true; Cli.outputRoom := Some 5 |}
           (B "-")
           {| Cli.data := B "a" ++ [10] ++ B "b" ++ [10];
              Cli.ending := Cli.EOF |}
           ([34; 97; 34; 10; 34; 98; 34; 10]) 5);
    try reflexivity; vm_compute; intuition discriminate.
Defined.
(** *** A write that fails in the loop *)

Lemma outputBuf_processLine k line d e :
  outputBuf (processLine k line d e) =
  d ++ (if e && (0 <? len d) then Strings.ReplaceAll line d (92 :: d)
        else line) ++ d ++ [10].
Proof.
  unfold processLine. cbn [outputBuf]. rewrite slice_0_0.
  unfold backslash. cbn [app].
  destruct (e && (0 <? len d)); rewrite <- !app_assoc; reflexivity.
Qed.

(** A write larger than the buffer, on a new writer, goes to the device
    at once; when the device has no room for it, the write fails with
    what there was room for taken. *)
Lemma Write_large_fails k p :
  bufio.defaultBufSize < len p -> 0 <= k < len p ->
  bufio.Write
    (bufio.NewWriter {| bufio.taken := []; bufio.room := Some k |}) p =
  ({| bufio.wr := {| bufio.taken := slice p 0 k; bufio.room := Some 0 |};
      bufio.buf := []; bufio.err := true |}, true).
Proof.
  intros Hl Hk. unfold bufio.Write. cbn [bufio.Write_loop].
  unfold bufio.Available, bufio.Buffered, bufio.NewWriter.
  cbn [bufio.buf bufio.err bufio.wr negb]. change (len []) with 0.
  destruct (bufio.defaultBufSize - 0 <? len p) eqn:E; [|blia].
  cbn [andb]. change (0 =? 0) with true. cbv iota.
  unfold bufio.wr_Write. cbn [bufio.room bufio.taken app].
  destruct (len p <=? k) eqn:E1; [blia|].
  rewrite Z.max_r by lia. cbn [bufio.err negb andb].
  rewrite andb_false_r. reflexivity.
Qed.

(** X28. A write that fails in the loop ends the run with the message
    of a failed write and status 1: when the input is one record
    without a line end whose output line is larger than the buffer of
    the writer, and the device takes only [k] bytes, fewer than the
    line has, the output is the first [k] bytes of the line. *)
Theorem write_failure_is_reported o args w filename s out k :
  showVersion o = false ->
  Cli.chooseFilename args (Cli.inputIsTerminal w) = Some filename ->
  (if bytes_eqb filename (B "-") then Some (Cli.stdin w)
   else Cli.lookup (Cli.files w) (Cli.resolve w filename)) = Some s ->
  Cli.ending s = Cli.EOF ->
  ~ In (delimByte (flags o)) (Cli.data s) ->
  main (flags o) (Cli.data s) = Some (ExitOK out) ->
  bufio.defaultBufSize < len out ->
  Cli.outputRoom w = Some k -> 0 <= k < len out ->
  outputFile o = [] \/
  (Cli.creatable w (outputFile o) = true /\
   (filename = B "-" \/
    Cli.resolve w (outputFile o) <> Cli.resolve w filename)) ->
  Cli.mainParsed o args w =
  Some (if bytes_eqb (outputFile o) []
        then {| Cli.exitCode := 1; Cli.stdout := slice out 0 k;
                Cli.stderr := Some Cli.WriteFailed;
                Cli.filesAfter := Cli.files w |}
        else {| Cli.exitCode := 1; Cli.stdout := [];
                Cli.stderr := Some Cli.WriteFailed;
                Cli.filesAfter :=
                  Cli.store (Cli.files w) (Cli.resolve w (outputFile o))
                            {| Cli.data := slice out 0 k;
                               Cli.ending := Cli.EOF |} |}).
Proof.
  intros Hv Hf Hin Hend Hsep Hmain Hlen Hk Hlt Hout.
  rewrite main_run in Hmain.
  destruct (parseDelimiter (delimiterArg (flags o))) as [d [e|]] eqn:Hd;
    [discriminate|].
  rewrite (mainParsed_loop o args w filename s d Hv Hd Hf Hin Hout), Hend, Hk.
  unfold run in Hmain. cbn [loop Cli.loop] in *.
  unfold iteration in Hmain. unfold Cli.iteration.
  cbn [unread initial hasBufferedLine sink] in *.
  rewrite (ReadBytes_eof _ _ Hsep) in *. cbn [andb].
  rewrite (cut_fragment _ _ Hsep) in *.
  cbn [option_map sink written] in Hmain. injection Hmain as Hw.
  destruct (0 <? len (Cli.data s));
    [|rewrite <- Hw in Hlen; cbn in Hlen; unfold bufio.defaultBufSize in Hlen;
      lia].
  destruct (0 <? len (strip (flags o) (Cli.data s)));
    [|rewrite <- Hw in Hlen; cbn in Hlen; unfold bufio.defaultBufSize in Hlen;
      lia].
  unfold Cli.processLine.
  rewrite written_processLine in Hw. cbn [written app] in Hw.
  rewrite outputBuf_processLine, Hw.
  rewrite (Write_large_fails k out Hlen Hlt).
  unfold Cli.outcome. cbn [bufio.wr bufio.taken]. reflexivity.
Qed.
Lemma write_failure_is_reported_witness :
  Cli.mainParsed defaultOptions []
    {| Cli.inputIsTerminal := false;
       Cli.stdin := {| Cli.data := repeat 97 4100; Cli.ending := Cli.EOF |};
       Cli.files := []; Cli.resolve := fun _ => 1;
       Cli.creatable := fun _ => true; Cli.outputRoom := Some 3 |} =
  Some {| Cli.exitCode := 1;
          Cli.stdout := slice ([34] ++ repeat 97 4100 ++ [34; 10]) 0 3;
          Cli.stderr := Some Cli.WriteFailed; Cli.filesAfter := [] |}.
Proof.
  apply (write_failure_is_reported defaultOptions []
           {| Cli.inputIsTerminal := false;
              Cli.stdin := {| Cli.data := repeat 97 4100;
                              Cli.ending := Cli.EOF |};
              Cli.files := []; Cli.resolve := fun _ => 1;
              Cli.creatable := fun _ => true; Cli.outputRoom := Some 3 |}
           (B "-")
           {| Cli.data := repeat 97 4100; Cli.ending := Cli.EOF |}
           ([34] ++ repeat 97 4100 ++ [34; 10]) 3).
  - reflexivity.
  - reflexivity.
  - reflexivity.
  - reflexivity.
  - intros H. apply repeat_spec in H. discriminate.
  - vm_compute. reflexivity.
  - vm_compute. reflexivity.
  - reflexivity.
  - split; vm_compute; [discriminate | reflexivity].
  - left. reflexivity.
Defined.
(** The loop of [b.Write(p)] runs twice at most: its condition is false
    after two rounds, whatever the writer, the device and [p], and
    further rounds change nothing. *)
Lemma from_all p : from p (len p) = [].
Proof. unfold from, len. rewrite Nat2Z.id. apply skipn_all. Qed.

Lemma Write_loop_stop fuel b p :
  (bufio.Available b <? len p) && negb (bufio.err b) = false ->
  bufio.Write_loop fuel b p = (b, p).
Proof. intros H. destruct fuel; cbn [bufio.Write_loop]; now rewrite ?H. Qed.

Lemma Write_direct_stops b p :
  bufio.Buffered b = 0 ->
  (bufio.Available
     {| bufio.wr := fst (fst (bufio.wr_Write (bufio.wr b) p));
        bufio.buf := bufio.buf b;
        bufio.err := snd (bufio.wr_Write (bufio.wr b) p) |} <?
   len (from p (snd (fst (bufio.wr_Write (bufio.wr b) p)))))
  && negb (snd (bufio.wr_Write (bufio.wr b) p)) = false.
Proof.
  intros H0. unfold bufio.Available, bufio.Buffered in *.
  cbn [bufio.buf]. rewrite H0. unfold bufio.wr_Write.
  destruct (bufio.room (bufio.wr b)) as [k|].
  - destruct (len p <=? k); cbn [fst snd negb].
    + rewrite from_all. reflexivity.
    + apply andb_false_r.
  - cbn [fst snd negb]. rewrite from_all. reflexivity.
Qed.

Lemma Write_loop_S k b p :
  bufio.Write_loop (S k) b p =
  if (bufio.Available b <? len p) && negb (bufio.err b) then
    if bufio.Buffered b =? 0 then
      let '(dv, n, e) := bufio.wr_Write (bufio.wr b) p in
      bufio.Write_loop k {| bufio.wr := dv; bufio.buf := bufio.buf b;
                            bufio.err := e |} (from p n)
    else
      bufio.Write_loop k
        (fst (bufio.Flush
                {| bufio.wr := bufio.wr b;
                   bufio.buf :=
                     bufio.buf b ++
                     slice p 0 (Z.min (bufio.Available b) (len p));
                   bufio.err := bufio.err b |}))
        (from p (Z.min (bufio.Available b) (len p)))
  else (b, p).
Proof. reflexivity. Qed.

Lemma Write_direct k b p :
  bufio.Buffered b = 0 ->
  (let '(dv, n, e) := bufio.wr_Write (bufio.wr b) p in
   bufio.Write_loop k {| bufio.wr := dv; bufio.buf := bufio.buf b;
                         bufio.err := e |} (from p n)) =
  (let '(dv, n, e) := bufio.wr_Write (bufio.wr b) p in
   ({| bufio.wr := dv; bufio.buf := bufio.buf b; bufio.err := e |},
    from p n)).
Proof.
  intros H0. pose proof (Write_direct_stops b p H0) as H.
  destruct (bufio.wr_Write (bufio.wr b) p) as [[dv n] e].
  cbn [fst snd] in H. now apply Write_loop_stop.
Qed.

Lemma Flush_Buffered b :
  bufio.err (fst (bufio.Flush b)) = false ->
  bufio.Buffered (fst (bufio.Flush b)) = 0.
Proof.
  unfold bufio.Flush, bufio.Buffered.
  destruct (bufio.err b) eqn:Ee; cbn [fst]; [congruence|].
  destruct (len (bufio.buf b) =? 0) eqn:El; cbn [fst]; [blia|].
  destruct (bufio.wr_Write (bufio.wr b) (bufio.buf b)) as [[dv n] e].
  destruct (if (n <? len (bufio.buf b)) && negb e then true else e);
    cbn [fst bufio.err bufio.buf]; [discriminate | reflexivity].
Qed.

Lemma Write_loop_twice fuel b p :
  bufio.Write_loop (S (S fuel)) b p = bufio.Write_loop 2 b p.
Proof.
  rewrite (Write_loop_S (S fuel)), (Write_loop_S 1).
  destruct ((bufio.Available b <? len p) && negb (bufio.err b));
    [|reflexivity].
  destruct (bufio.Buffered b =? 0) eqn:E0.
  - assert (H0 : bufio.Buffered b = 0) by blia.
    now rewrite !Write_direct.
  - set (b1 := fst (bufio.Flush _)). set (p1 := from p _).
    rewrite (Write_loop_S fuel), (Write_loop_S 0).
    destruct ((bufio.Available b1 <? len p1) && negb (bufio.err b1)) eqn:Ec;
      [|reflexivity].
    apply andb_true_iff in Ec. destruct Ec as [_ Ee].
    apply negb_true_iff in Ee.
    pose proof (Flush_Buffered _ Ee) as H1. fold b1 in H1.
    rewrite H1. change (0 =? 0) with true. cbv iota.
    now rewrite !Write_direct.
Qed.
